(** * varnishbackend_exporter: the protocol client, the listing aggregator
      and the poll supervisor of [varnishbackend_exporter.go]

    Go values are embedded as follows.
    - [int] is [Z]; every integer the program computes stays far inside
      the 64-bit range (a header field has at most 8 characters, a count
      is bounded by the number of lines of one body), so no wrap-around
      is written out.
    - [[]byte] is [list byte] with [byte := ascii]; [string] is [string].
      The conversions [string(b)] and [[]byte(s)] are
      [string_of_list_ascii] and [list_ascii_of_string].
    - [rune] is [Z] (a code point, [-1] for the scanner's [eof]).
    - [map[string]int] is [gmap string Z], a missing key reading as 0.
    - A run-time panic is the outcome [Panics]. *)

From Stdlib Require Import ZArith NArith Ascii String List Lia Bool.
From stdpp Require Import base option list gmap strings.

Local Open Scope string_scope.
Local Open Scope list_scope.
Local Open Scope Z_scope.

(** ** Bytes, strings and outcomes *)

Abbreviation byte := ascii (only parsing).

Definition byte_val (b : byte) : Z := Z.of_N (N_of_ascii b).
Definition byte_of_Z (z : Z) : byte := ascii_of_N (Z.to_N z).

(** [len(x)] as a Go [int]. *)
Definition len {A} (l : list A) : Z := Z.of_nat (length l).

Definition bytes (s : string) : list byte := list_ascii_of_string s.
Definition str (b : list byte) : string := string_of_list_ascii b.

(** What a call does: it returns a value, or a run-time panic unwinds the
    goroutine (nothing in this program recovers one, so the process
    dies), or a loop of the embedding ran out of fuel.  The last case is
    an artefact of the embedding; [Fscanf_header_fuel] and
    [ReadResponse_fuel] show that it never arises. *)
Inductive outcome (A : Type) : Type :=
| Returns (a : A)
| Panics (msg : string)
| OutOfFuel.
Arguments Returns {A} a.
Arguments Panics {A} msg.
Arguments OutOfFuel {A}.

Definition obind {A B} (m : outcome A) (k : A → outcome B) : outcome B :=
  match m with
  | Returns a => k a
  | Panics msg => Panics msg
  | OutOfFuel => OutOfFuel
  end.

Inductive error : Type :=
| io_EOF                      (* io.EOF *)
| net_error                   (* any error of the connection itself *)
| scan_error (msg : string).  (* an error raised by package fmt *)

(** ** unicode/utf8 and the white-space table

    [fmt]'s scanner and [strings.Fields] both work on runes, so bytes
    above 0x7f go through the decoder of package [unicode/utf8]. *)
Module utf8.

Definition RuneError : Z := 0xFFFD.
Definition RuneSelf : Z := 0x80.
Definition UTFMax : nat := 4.

(** The table [first]: information about the first byte of an encoding. *)
Definition first (b : Z) : Z :=
  if b <? 0x80 then 0xF0
  else if b <? 0xC2 then 0xF1
  else if b <? 0xE0 then 0x02
  else if b =? 0xE0 then 0x13
  else if b <? 0xED then 0x03
  else if b =? 0xED then 0x23
  else if b <? 0xF0 then 0x03
  else if b =? 0xF0 then 0x34
  else if b <? 0xF4 then 0x04
  else if b =? 0xF4 then 0x44
  else 0xF1.

Definition locb : Z := 0x80.
Definition hicb : Z := 0xBF.

Definition acceptRanges (i : Z) : Z * Z :=
  if i =? 0 then (locb, hicb)
  else if i =? 1 then (0xA0, hicb)
  else if i =? 2 then (locb, 0x9F)
  else if i =? 3 then (0x90, hicb)
  else if i =? 4 then (locb, 0x8F)
  else (0, 0).

Definition at_ (p : list byte) (i : nat) : Z :=
  match p !! i with Some b => byte_val b | None => 0 end.

Definition outside (b lo hi : Z) : bool := (b <? lo) || (hi <? b).

Definition FullRune (p : list byte) : bool :=
  let n := len p in
  if n =? 0 then false
  else
    let x := first (at_ p 0) in
    if Z.land x 7 <=? n then true
    else
      let '(lo, hi) := acceptRanges (Z.shiftr x 4) in
      if (1 <? n) && outside (at_ p 1) lo hi then true
      else if (2 <? n) && outside (at_ p 2) locb hicb then true
      else false.

Definition DecodeRune (p : list byte) : Z * Z :=
  let n := len p in
  if n <? 1 then (RuneError, 0)
  else
    let p0 := at_ p 0 in
    let x := first p0 in
    if 0xF0 <=? x then
      ((if x =? 0xF0 then p0 else RuneError), 1)
    else
      let sz := Z.land x 7 in
      let '(lo, hi) := acceptRanges (Z.shiftr x 4) in
      if n <? sz then (RuneError, 1)
      else
        let b1 := at_ p 1 in
        if outside b1 lo hi then (RuneError, 1)
        else if sz <=? 2 then
          (Z.lor (Z.shiftl (Z.land p0 0x1F) 6) (Z.land b1 0x3F), 2)
        else
          let b2 := at_ p 2 in
          if outside b2 locb hicb then (RuneError, 1)
          else if sz <=? 3 then
            (Z.lor (Z.lor (Z.shiftl (Z.land p0 0x0F) 12)
                          (Z.shiftl (Z.land b1 0x3F) 6))
                   (Z.land b2 0x3F), 3)
          else
            let b3 := at_ p 3 in
            if outside b3 locb hicb then (RuneError, 1)
            else
              (Z.lor (Z.lor (Z.lor (Z.shiftl (Z.land p0 0x07) 18)
                                   (Z.shiftl (Z.land b1 0x3F) 12))
                            (Z.shiftl (Z.land b2 0x3F) 6))
                     (Z.land b3 0x3F), 4).

(** The entry of [first] for a byte that starts no encoding. *)
Definition xx : Z := 0xF1.

(** [ValidString]'s loop, on what is left of the string from index [i].
    (The loop that first skips eight ASCII bytes at a time only saves
    time: the bytes it skips are those that this loop steps over one by
    one.) *)
Fixpoint ValidString_from (s : list byte) : bool :=
  match s with
  | [] => true
  | si :: s1 =>
      if byte_val si <? RuneSelf then ValidString_from s1
      else
        let x := first (byte_val si) in
        if x =? xx then false
        else
          let size := Z.land x 7 in
          if len s <? size then false
          else
            let '(lo, hi) := acceptRanges (Z.shiftr x 4) in
            match s1 with
            | [] => false
            | c1 :: s2 =>
                if outside (byte_val c1) lo hi then false
                else if size =? 2 then ValidString_from s2
                else
                  match s2 with
                  | [] => false
                  | c2 :: s3 =>
                      if outside (byte_val c2) locb hicb then false
                      else if size =? 3 then ValidString_from s3
                      else
                        match s3 with
                        | [] => false
                        | c3 :: s4 =>
                            if outside (byte_val c3) locb hicb then false
                            else ValidString_from s4
                        end
                  end
            end
  end.

Definition ValidString (s : string) : bool := ValidString_from (bytes s).

End utf8.

(** The white-space ranges shared by [fmt.isSpace] and [unicode.IsSpace]. *)
Definition space_table : list (Z * Z) :=
  [ (0x0009, 0x000d); (0x0020, 0x0020); (0x0085, 0x0085); (0x00a0, 0x00a0);
    (0x1680, 0x1680); (0x2000, 0x200a); (0x2028, 0x2029); (0x202f, 0x202f);
    (0x205f, 0x205f); (0x3000, 0x3000) ].

Definition isSpace (r : Z) : bool :=
  (0 <=? r) && (r <? 65536)
  && existsb (λ rng, (fst rng <=? r) && (r <=? snd rng)) space_table.

(** ** The connection

    A [net.Conn] as this program sees it.  The bytes still to come are
    given as the segments in which they become available: a [Read] into
    a non-empty buffer returns at most what the first segment holds,
    which is how a short read arises.  When the segments are used up
    every further [Read] fails, with [io.EOF] or with another error.
    A peer that stays silent for ever, so that a [Read] never returns,
    is outside the model.  [wscript] gives the results of the [Write]
    calls still to come ([true]: the write succeeds; an exhausted
    script succeeds), and [written] logs every [Write] with its payload
    and its result. *)
Inductive stream_end : Type := EndEOF | EndError.

Record Conn : Type := mkConn {
  incoming : list (list byte);
  ending : stream_end;
  wscript : list bool;
  written : list (list byte * bool)
}.

Definition end_error (e : stream_end) : error :=
  match e with EndEOF => io_EOF | EndError => net_error end.

Definition set_incoming (segs : list (list byte)) (c : Conn) : Conn :=
  mkConn segs (ending c) (wscript c) (written c).

(** The first non-empty segment gives up to [n] bytes. *)
Fixpoint take_segment (n : nat) (segs : list (list byte))
  : option (list byte * list (list byte)) :=
  match segs with
  | [] => None
  | [] :: rest => take_segment n rest
  | seg :: rest =>
      Some (take n seg,
            match drop n seg with [] => rest | more => more :: rest end)
  end.

(** [conn.Read(buf)] with [len(buf) = n]: the bytes read, or an error. *)
Definition conn_Read (n : nat) (c : Conn) : (list byte + error) * Conn :=
  match n with
  | O => (inl [], c)
  | _ =>
      match take_segment n (incoming c) with
      | Some (d, rest) => (inl d, set_incoming rest c)
      | None => (inr (end_error (ending c)), set_incoming [] c)
      end
  end.

(** [conn.Write(p)]. *)
Definition conn_Write (p : list byte) (c : Conn) : option error * Conn :=
  match wscript c with
  | false :: ws =>
      (Some net_error, mkConn (incoming c) (ending c) ws (written c ++ [(p, false)]))
  | true :: ws =>
      (None, mkConn (incoming c) (ending c) ws (written c ++ [(p, true)]))
  | [] =>
      (None, mkConn (incoming c) (ending c) [] (written c ++ [(p, true)]))
  end.

(** [k] reads of one byte each, as [readRune] makes them. *)
Fixpoint read_bytes (k : nat) (c : Conn) : Conn :=
  match k with
  | O => c
  | S k' => read_bytes k' (snd (conn_Read 1 c))
  end.

(** ** Package fmt: scanning the response header

    [fmt.Fscanf(v.conn, "%03d %8d\n", &status, &length)].  A [net.Conn]
    is no [io.RuneScanner], so the scanner reads it through [readRune],
    one byte per [Read]: only the sequence of the bytes matters to it,
    not their segmentation, and the scanner state holds the bytes still
    to come as one list [rd].  The functions below follow [fmt/scan.go]
    name by name; a [panic(scanError{..})] or [panic(io.EOF)] recovered
    by [errorHandler] is the result [ScanFails]. *)
Module fmt.

Record ss : Type := mkss {
  rd : list byte;        (* the reader: bytes not yet read *)
  rd_end : stream_end;   (* what the reader reports after them *)
  pendBuf : list byte;   (* readRune.pendBuf[:pending] *)
  peekRune : Z;          (* readRune.peekRune: >= 0 if a rune is pushed back *)
  count : Z;             (* runes consumed so far *)
  argLimit : Z;          (* max value of count for this argument *)
  atEOF : bool;
  buf : list byte        (* token accumulator *)
}.

Definition hugeWid : Z := 2 ^ 30.
Definition eof : Z := -1.

Definition newScanState (data : list byte) (e : stream_end) : ss :=
  mkss data e [] (-1) 0 hugeWid false [].

Definition set_rd v s :=
  mkss v (rd_end s) (pendBuf s) (peekRune s) (count s) (argLimit s) (atEOF s) (buf s).
Definition set_pendBuf v s :=
  mkss (rd s) (rd_end s) v (peekRune s) (count s) (argLimit s) (atEOF s) (buf s).
Definition set_peekRune v s :=
  mkss (rd s) (rd_end s) (pendBuf s) v (count s) (argLimit s) (atEOF s) (buf s).
Definition set_count v s :=
  mkss (rd s) (rd_end s) (pendBuf s) (peekRune s) v (argLimit s) (atEOF s) (buf s).
Definition set_argLimit v s :=
  mkss (rd s) (rd_end s) (pendBuf s) (peekRune s) (count s) v (atEOF s) (buf s).
Definition set_atEOF v s :=
  mkss (rd s) (rd_end s) (pendBuf s) (peekRune s) (count s) (argLimit s) v (buf s).
Definition set_buf v s :=
  mkss (rd s) (rd_end s) (pendBuf s) (peekRune s) (count s) (argLimit s) (atEOF s) v.

Inductive scan_result (A : Type) : Type :=
| Scanned (a : A) (s : ss)
| ScanFails (e : error) (s : ss)
| ScanFuel.
Arguments Scanned {A} a s.
Arguments ScanFails {A} e s.
Arguments ScanFuel {A}.

Definition scanner (A : Type) : Type := ss → scan_result A.

Definition ret {A} (a : A) : scanner A := λ s, Scanned a s.
Definition fail {A} (msg : string) : scanner A := λ s, ScanFails (scan_error msg) s.
Definition bind {A B} (m : scanner A) (k : A → scanner B) : scanner B :=
  λ s, match m s with
       | Scanned a s1 => k a s1
       | ScanFails e s1 => ScanFails e s1
       | ScanFuel => ScanFuel
       end.

Notation "'let*' x := m 'in' k" := (bind m (λ x, k))
  (at level 10, x name, m at level 200, k at level 200, only parsing).

(** *** readRune *)

Definition readByte (s : ss) : (byte + error) * ss :=
  match pendBuf s with
  | b :: p => (inl b, set_pendBuf p s)
  | [] =>
      match rd s with
      | b :: r => (inl b, set_rd r s)
      | [] => (inr (end_error (rd_end s)), s)
      end
  end.

(** [for n = 1; !utf8.FullRune(r.buf[:n]); n++]: at most [UTFMax - 1]
    further bytes, since four bytes always make a full rune. *)
Fixpoint fill (more : nat) (b : list byte) (s : ss) : (list byte + error) * ss :=
  if utf8.FullRune b then (inl b, s)
  else
    match more with
    | O => (inl b, s)
    | S more' =>
        match readByte s with
        | (inl x, s1) => fill more' (b ++ [x]) s1
        | (inr io_EOF, s1) => (inl b, s1)
        | (inr e, s1) => (inr e, s1)
        end
    end.

Definition readRune_ReadRune (s : ss) : (Z + error) * ss :=
  if 0 <=? peekRune s then
    (inl (peekRune s), set_peekRune (Z.lnot (peekRune s)) s)
  else
    match readByte s with
    | (inr e, s1) => (inr e, s1)
    | (inl b0, s1) =>
        if byte_val b0 <? utf8.RuneSelf then
          (inl (byte_val b0), set_peekRune (Z.lnot (byte_val b0)) s1)
        else
          match fill (utf8.UTFMax - 1) [b0] s1 with
          | (inr e, s2) => (inr e, s2)
          | (inl b, s2) =>
              let '(rr, size) := utf8.DecodeRune b in
              let s3 :=
                if size <? len b
                then set_pendBuf (pendBuf s2 ++ drop (Z.to_nat size) b) s2
                else s2 in
              (inl rr, set_peekRune (Z.lnot rr) s3)
          end
    end.

Definition readRune_UnreadRune (s : ss) : ss :=
  if 0 <=? peekRune s then s else set_peekRune (Z.lnot (peekRune s)) s.

(** *** ss *)

Definition ReadRune (s : ss) : (Z + error) * ss :=
  if atEOF s || (argLimit s <=? count s) then (inr io_EOF, s)
  else
    match readRune_ReadRune s with
    | (inl r, s1) => (inl r, set_count (count s1 + 1) s1)
    | (inr io_EOF, s1) => (inr io_EOF, set_atEOF true s1)
    | (inr e, s1) => (inr e, s1)
    end.

Definition getRune : scanner Z :=
  λ s, match ReadRune s with
       | (inl r, s1) => Scanned r s1
       | (inr io_EOF, s1) => Scanned eof s1
       | (inr e, s1) => ScanFails e s1
       end.

Definition UnreadRune : scanner unit :=
  λ s, Scanned tt (set_count (count s - 1) (set_atEOF false (readRune_UnreadRune s))).

(** [indexRune(ok, r) >= 0], for the ASCII strings [ok] used here. *)
Definition indexRune (ok : string) (r : Z) : bool :=
  existsb (λ c, byte_val c =? r) (bytes ok).

Definition writeRune (r : Z) : scanner unit :=
  λ s, Scanned tt (set_buf (buf s ++ [byte_of_Z r]) s).

(** The potential of a state: an upper bound on the runes that can
    still be delivered.  A loop of the scanner consumes a rune in
    every pass but the last two (one that meets the end of the input,
    one that leaves), so [2 + pot s] passes are never used up. *)
Definition pot (s : ss) : nat :=
  (length (rd s) + length (pendBuf s)
   + (if (0 <=? peekRune s)%Z then 1 else 0))%nat.

Fixpoint loop {A B} (fuel : nat) (body : A → scanner (A + B)) (a : A) (s : ss)
  : scan_result B :=
  match fuel with
  | O => ScanFuel
  | S fuel' =>
      match body a s with
      | Scanned (inl a') s1 => loop fuel' body a' s1
      | Scanned (inr b) s1 => Scanned b s1
      | ScanFails e s1 => ScanFails e s1
      | ScanFuel => ScanFuel
      end
  end.

Definition for_ {A B} (body : A → scanner (A + B)) (a : A) : scanner B :=
  λ s, loop (S (S (pot s))) body a s.

Definition continue {B} : scanner (unit + B) := ret (inl tt).
Definition break {A} : scanner (A + unit) := ret (inr tt).

Definition peek (ok : string) : scanner bool :=
  let* r := getRune in
  let* _ := (if r =? eof then ret tt else UnreadRune) in
  ret (indexRune ok r).

Definition SkipSpace_body (_ : unit) : scanner (unit + unit) :=
  let* r := getRune in
  if r =? eof then break
  else
    let* crlf := (if r =? 13 then peek (String "010" "") else ret false) in
    if crlf then continue
    else if r =? 10 then fail "unexpected newline"   (* nlIsSpace is false *)
    else if negb (isSpace r) then let* _ := UnreadRune in break
    else continue.

Definition SkipSpace : scanner unit := for_ SkipSpace_body tt.

Definition notEOF : scanner unit :=
  λ s, match getRune s with
       | Scanned r s1 => if r =? eof then ScanFails io_EOF s1 else UnreadRune s1
       | ScanFails e s1 => ScanFails e s1
       | ScanFuel => ScanFuel
       end.

Definition consume (ok : string) (accept : bool) : scanner bool :=
  let* r := getRune in
  if r =? eof then ret false
  else if indexRune ok r then
    let* _ := (if accept then writeRune r else ret tt) in ret true
  else
    let* _ := (if accept then UnreadRune else ret tt) in ret false.

Definition accept (ok : string) : scanner bool := consume ok true.

Definition decimalDigits : string := "0123456789".
Definition sign : string := "+-".

(** [for s.accept(digits) {}] *)
Definition accept_all (digits : string) : scanner unit :=
  for_ (λ _ : unit, let* ok := accept digits in if ok then continue else break) tt.

(** [scanNumber(digits, false)] *)
Definition scanNumber (digits : string) : scanner (list byte) :=
  let* _ := notEOF in
  let* ok := accept digits in
  if negb ok then fail "expected integer"
  else let* _ := accept_all digits in (λ s, Scanned (buf s) s).

(** [strconv.ParseInt(tok, 10, 64)]: an optional sign, then one or more
    decimal digits, the value within the range of [int64]. *)
Definition is_digit (c : byte) : bool :=
  (48 <=? byte_val c) && (byte_val c <=? 57).

Definition digits_value (ds : list byte) : Z :=
  fold_left (λ acc c, 10 * acc + (byte_val c - 48)) ds 0.

Definition ParseInt (tok : list byte) : option Z :=
  let '(neg, ds) :=
    match tok with
    | c :: rest =>
        if byte_val c =? 43 then (false, rest)
        else if byte_val c =? 45 then (true, rest)
        else (false, tok)
    | [] => (false, tok)
    end in
  match ds with
  | [] => None
  | _ =>
      if forallb is_digit ds then
        let v := digits_value ds in
        if neg then (if v <=? 2 ^ 63 then Some (- v) else None)
        else (if v <? 2 ^ 63 then Some v else None)
      else None
  end.

(** [scanInt('d', intBits)]: base 10 and [decimalDigits] from [getBase].
    A token has at most 8 characters here, so the final check that the
    value fits [intBits] bits never fails. *)
Definition scanInt : scanner Z :=
  let* _ := SkipSpace in
  let* _ := notEOF in
  let* _ := accept sign in
  let* tok := scanNumber decimalDigits in
  match ParseInt tok with
  | Some i => ret i
  | None => fail "strconv.ParseInt: parsing failed"
  end.

(** The step of [doScanf] for a directive ["%<wid>d"] with an [*int]
    operand: white space is skipped before the width starts to count. *)
Definition verb_d (wid : Z) : scanner Z :=
  let* _ := SkipSpace in
  let* _ := (λ s, Scanned tt (set_argLimit (Z.min hugeWid (count s + wid)) s)) in
  let* _ := (λ s, Scanned tt (set_buf [] s)) in
  let* v := scanInt in
  let* _ := (λ s, Scanned tt (set_argLimit hugeWid s)) in
  ret v.

(** [for isSpace(inputc) && inputc != '\n' { inputc = s.getRune() }] *)
Definition skip_blanks (inputc : Z) : scanner Z :=
  for_ (λ c : Z,
          if isSpace c && negb (c =? 10)
          then let* c' := getRune in ret (inl c')
          else ret (inr c)) inputc.

(** [advance] on a format that starts with one space and then a verb:
    no newline in the run, a trailing space that stands alone. *)
Definition advance_space : scanner unit :=
  let* inputc := getRune in
  if negb (isSpace inputc) && negb (inputc =? eof)
  then fail "expected space in input to match format"
  else if inputc =? 10
  then fail "newline in input does not match format"
  else
    let* inputc' := skip_blanks inputc in
    if negb (inputc' =? eof) then UnreadRune else ret tt.

(** [advance] on the format ["\n"]: one newline, no trailing space. *)
Definition advance_newline : scanner unit :=
  let* inputc := getRune in
  let* inputc' := skip_blanks inputc in
  if negb (inputc' =? 10) && negb (inputc' =? eof)
  then fail "newline in format does not match input"
  else ret tt.

(** What [Fscanf] hands back: the number of items stored, the error,
    and the two operands (declared [var status, length int], so 0
    until stored). *)
Record scanned : Type := mkscanned {
  headers : Z;
  err : option error;
  status : Z;
  length_ : Z
}.

(** [doScanf("%03d %8d\n", &status, &length)] *)
Definition doScanf (s : ss) : outcome scanned * ss :=
  match verb_d 3 s with
  | ScanFuel => (OutOfFuel, s)
  | ScanFails e s1 => (Returns (mkscanned 0 (Some e) 0 0), s1)
  | Scanned st s1 =>
      match advance_space s1 with
      | ScanFuel => (OutOfFuel, s1)
      | ScanFails e s2 => (Returns (mkscanned 1 (Some e) st 0), s2)
      | Scanned _ s2 =>
          match verb_d 8 s2 with
          | ScanFuel => (OutOfFuel, s2)
          | ScanFails e s3 => (Returns (mkscanned 1 (Some e) st 0), s3)
          | Scanned ln s3 =>
              match advance_newline s3 with
              | ScanFuel => (OutOfFuel, s3)
              | ScanFails e s4 => (Returns (mkscanned 2 (Some e) st ln), s4)
              | Scanned _ s4 => (Returns (mkscanned 2 None st ln), s4)
              end
          end
      end
  end.

(** [Fscanf] on a connection.  What the scanner has read, byte by byte,
    is gone from the connection, a rune it looked at and pushed back
    included. *)
Definition Fscanf (c : Conn) : outcome scanned * Conn :=
  let data := concat (incoming c) in
  let '(r, s) := doScanf (newScanState data (ending c)) in
  (r, read_bytes (length data - length (rd s)) c).

(** *** Printing: [Sprintf("%03d %8d\n", status, length)] *)

(** The decimal digits of [u >= 0], as [fmtInteger] produces them:
    the last digit first, [next := u / 10] until [u < 10]. *)
Fixpoint digits_fuel (fuel : nat) (u : Z) (acc : list byte) : list byte :=
  match fuel with
  | O => acc
  | S fuel' =>
      if u <? 10 then byte_of_Z (48 + u) :: acc
      else digits_fuel fuel' (u / 10) (byte_of_Z (48 + u mod 10) :: acc)
  end.

(** A 64-bit integer has at most 20 digits. *)
Definition digits (u : Z) : list byte := digits_fuel 20 u [].

Definition fmt_d (zero : bool) (wid : nat) (v : Z) : list byte :=
  let ds := digits (Z.abs v) in
  let sgn := if v <? 0 then bytes "-" else [] in
  if zero then
    sgn ++ replicate (wid - length sgn - length ds) "0"%char ++ ds
  else
    replicate (wid - length (sgn ++ ds)) " "%char ++ sgn ++ ds.

Definition Sprintf_header (status length : Z) : list byte :=
  fmt_d true 3 status ++ bytes " " ++ fmt_d false 8 length ++ [ascii_of_nat 10].

End fmt.

(** ** VarnishWrapper *)

Definition invalid : Z * option string := (-1, None).

(** [func (v *VarnishWrapper) ReadResponse() (code int, response *string)] *)
Definition ReadResponse (c : Conn) : outcome (Z * option string) * Conn :=
  match fmt.Fscanf c with
  | (OutOfFuel, c1) => (OutOfFuel, c1)
  | (Panics msg, c1) => (Panics msg, c1)
  | (Returns h, c1) =>
      match fmt.err h with
      | Some _ => (Returns invalid, c1)
      | None =>
          if negb (fmt.headers h =? 2) then (Returns invalid, c1)
          else
            let length := fmt.length_ h in
            (* buf := make([]byte, length+1) *)
            if length + 1 <? 0 then (Panics "makeslice: len out of range", c1)
            else
              let n := Z.to_nat (length + 1) in
              match conn_Read n c1 with
              | (inr _, c2) => (Returns invalid, c2)
              | (inl d, c2) =>
                  let buf := d ++ replicate (n - List.length d) zero in
                  let l := len d in
                  if negb (l =? length + 1) then (Returns invalid, c2)
                  else if len buf - 1 <? 0
                  then (Panics "slice bounds out of range [:-1]", c2)
                  else
                    let ret := str (take (Z.to_nat (len buf - 1)) buf) in
                    (Returns (fmt.status h, Some ret), c2)
              end
      end
  end.

(** [strings.Join(elems, sep)] *)
Fixpoint Join (elems : list string) (sep : string) : string :=
  match elems with
  | [] => ""
  | [e] => e
  | e :: rest => e +:+ sep +:+ Join rest sep
  end.

Definition newline : string := String (ascii_of_nat 10) "".

(** [func (v *VarnishWrapper) Send(str string, args ...string) error] *)
Definition Send (cmd : string) (args : list string) (c : Conn) : option error * Conn :=
  let buf := cmd :: args in
  let body := Join buf " " +:+ newline in
  conn_Write (bytes body) c.

(** [func (v *VarnishWrapper) CommandForSuccess(cmd string, args ...string) bool] *)
Definition CommandForSuccess (cmd : string) (args : list string) (c : Conn)
  : outcome bool * Conn :=
  match Send cmd args c with
  | (Some _, c1) => (Returns false, c1)
  | (None, c1) =>
      match ReadResponse c1 with
      | (Returns (code, _), c2) => (Returns (code =? 200), c2)
      | (Panics msg, c2) => (Panics msg, c2)
      | (OutOfFuel, c2) => (OutOfFuel, c2)
      end
  end.

(** ** crypto/sha256 and encoding/hex *)
Module sha256.

Definition w32 (x : Z) : Z := x mod 2 ^ 32.
Definition add32 (x y : Z) : Z := w32 (x + y).
(** [bits.RotateLeft32(x, -n)] *)
Definition rotr (x n : Z) : Z := Z.lor (Z.shiftr x n) (w32 (Z.shiftl x (32 - n))).
Definition not32 (x : Z) : Z := 2 ^ 32 - 1 - x.

(** The prime numbers, by trial division: the candidates from [n] on
    that no prime found so far divides. *)
Fixpoint primes_from (fuel : nat) (n : Z) (found : list Z) : list Z :=
  match fuel with
  | O => found
  | S fuel' =>
      if forallb (λ q, negb (n mod q =? 0)) found
      then primes_from fuel' (n + 1) (found ++ [n])
      else primes_from fuel' (n + 1) found
  end.

Definition primes (k : nat) : list Z := take k (primes_from 310 2 []).

(** The integer cube root, by bisection between [lo] and [hi]. *)
Fixpoint cbrt_between (fuel : nat) (lo hi n : Z) : Z :=
  match fuel with
  | O => lo
  | S fuel' =>
      let mid := (lo + hi) / 2 in
      if mid * mid * mid <=? n
      then cbrt_between fuel' mid hi n
      else cbrt_between fuel' lo mid n
  end.

(** The round constants [_K] are the first 32 bits of the fractional
    parts of the cube roots of the first 64 primes, and the initial hash
    value is taken in the same way from the square roots of the first 8
    (FIPS 180-4); the tables of [crypto/sha256] hold these numbers. *)
Definition _K : list Z :=
  Eval vm_compute in
    map (λ q, w32 (cbrt_between 40 0 (2 ^ 36) (q * 2 ^ 96))) (primes 64).

Definition init : list Z :=
  Eval vm_compute in map (λ q, w32 (Z.sqrt (q * 2 ^ 64))) (primes 8).

Definition be32 (b0 b1 b2 b3 : Z) : Z :=
  Z.lor (Z.lor (Z.lor (Z.shiftl b0 24) (Z.shiftl b1 16)) (Z.shiftl b2 8)) b3.

Fixpoint words (p : list Z) : list Z :=
  match p with
  | b0 :: b1 :: b2 :: b3 :: rest => be32 b0 b1 b2 b3 :: words rest
  | _ => []
  end.

(** The message schedule, kept newest first: [w[i-k]] is entry [k-1]. *)
Fixpoint extend (n : nat) (rw : list Z) : list Z :=
  match n with
  | O => rw
  | S n' =>
      let v1 := nth 1 rw 0 in
      let t1 := Z.lxor (Z.lxor (rotr v1 17) (rotr v1 19)) (Z.shiftr v1 10) in
      let v2 := nth 14 rw 0 in
      let t2 := Z.lxor (Z.lxor (rotr v2 7) (rotr v2 18)) (Z.shiftr v2 3) in
      extend n' (add32 (add32 (add32 t1 (nth 6 rw 0)) t2) (nth 15 rw 0) :: rw)
  end.

Definition round (st : list Z) (kw : Z * Z) : list Z :=
  match st with
  | [a; b; c; d; e; f; g; h] =>
      let t1 :=
        add32 (add32 (add32 (add32 h
          (Z.lxor (Z.lxor (rotr e 6) (rotr e 11)) (rotr e 25)))
          (Z.lxor (Z.land e f) (Z.land (not32 e) g)))
          (fst kw)) (snd kw) in
      let t2 :=
        add32 (Z.lxor (Z.lxor (rotr a 2) (rotr a 13)) (rotr a 22))
              (Z.lxor (Z.lxor (Z.land a b) (Z.land a c)) (Z.land b c)) in
      [add32 t1 t2; a; b; c; add32 d t1; e; f; g]
  | _ => st
  end.

(** [blockGeneric] on one 64-byte chunk. *)
Definition block (h : list Z) (chunk : list Z) : list Z :=
  let w := rev (extend 48 (rev (words chunk))) in
  let st := fold_left round (combine _K w) h in
  zip_with add32 h st.

(** [Write]: full chunks are hashed as they fill up. *)
Fixpoint absorb (p : list Z) (x : list Z) (h : list Z) : list Z :=
  match p with
  | [] => h
  | b :: p' =>
      let x' := x ++ [b] in
      if (length x' =? 64)%nat then absorb p' [] (block h x') else absorb p' x' h
  end.

Definition be_bytes (n : nat) (v : Z) : list Z :=
  map (λ i, Z.shiftr v (8 * Z.of_nat i) mod 256) (rev (seq 0 n)).

(** [checkSum]: 0x80, zeros up to 56 mod 64, the length in bits. *)
Definition padding (n : Z) : list Z :=
  0x80 :: replicate (Z.to_nat ((55 - n) mod 64)) 0 ++ be_bytes 8 (8 * n).

(** [sha256.Sum256(data)] *)
Definition Sum256 (data : list byte) : list byte :=
  let p := map byte_val data in
  let h := absorb (p ++ padding (len p)) [] init in
  map byte_of_Z (concat (map (be_bytes 4) h)).

End sha256.

Module hex.
Definition hextable : list byte := bytes "0123456789abcdef".
Definition digit (v : Z) : byte := nth (Z.to_nat v) hextable zero.
(** [hex.EncodeToString(src)] *)
Definition EncodeToString (src : list byte) : string :=
  str (flat_map (λ b, [digit (Z.shiftr (byte_val b) 4); digit (Z.land (byte_val b) 0x0f)]) src).
End hex.

(** ** Packages strings and bufio *)

Definition nl : byte := ascii_of_nat 10.
Definition cr : byte := ascii_of_nat 13.

(** [strings.HasPrefix(s, prefix)] *)
Definition HasPrefix (s prefix : string) : bool := String.prefix prefix s.

(** [strings.Split(s, sep)] for a separator of one byte: the pieces
    between the separators, at least one. *)
Fixpoint Split_go (s : list byte) (sep : byte) (cur : list byte) : list string :=
  match s with
  | [] => [str cur]
  | b :: s' =>
      if Ascii.eqb b sep then str cur :: Split_go s' sep []
      else Split_go s' sep (cur ++ [b])
  end.

Definition Split (s : string) (sep : byte) : list string := Split_go (bytes s) sep [].

Definition close_field (cur : list byte) : list string :=
  match cur with [] => [] | _ => [str cur] end.

(** [strings.Fields(s)]: the maximal runs of bytes between runes that
    satisfy [unicode.IsSpace].  The string is decoded as [range] does;
    [skip] counts the bytes of the current rune still to pass, [keep]
    says whether that rune belongs to a field. *)
Fixpoint Fields_go (s : list byte) (skip : nat) (keep : bool) (cur : list byte)
  : list string :=
  match s with
  | [] => close_field cur
  | b :: s' =>
      match skip with
      | S k => Fields_go s' k keep (if keep then cur ++ [b] else cur)
      | O =>
          let '(r, size) := utf8.DecodeRune (take 4 s) in
          if isSpace r
          then close_field cur ++ Fields_go s' (Z.to_nat size - 1) false []
          else Fields_go s' (Z.to_nat size - 1) true (cur ++ [b])
      end
  end.

Definition Fields (s : string) : list string := Fields_go (bytes s) 0 false [].

Module bufio.

Definition MaxScanTokenSize : Z := 64 * 1024.

(** [dropCR] drops a terminal carriage return. *)
Definition dropCR (data : list byte) : list byte :=
  match last data with
  | Some c => if Ascii.eqb c cr then removelast data else data
  | None => data
  end.

(** The tokens that [Scanner.Scan] with [ScanLines] delivers on a
    [strings.Reader]: one per line; a last line without newline counts
    if it is not empty.  A line that does not fit the buffer of
    [MaxScanTokenSize] bytes stops the scanner ([ErrTooLong]): [Scan]
    returns false from then on. *)
Fixpoint Scan_go (data : list byte) (cur : list byte) : list string :=
  match data with
  | [] =>
      match cur with
      | [] => []
      | _ => if len cur <? MaxScanTokenSize then [str (dropCR cur)] else []
      end
  | b :: data' =>
      if Ascii.eqb b nl then
        if len cur <? MaxScanTokenSize
        then str (dropCR cur) :: Scan_go data' []
        else []
      else Scan_go data' (cur ++ [b])
  end.

Definition ScanLines (s : string) : list string := Scan_go (bytes s) [].

End bufio.

(** ** Configuration and the gauge vector *)

(** A compiled [*regexp.Regexp], by its [FindStringSubmatch]: [None] for
    no match, else the whole match followed by the text of each capture
    group.  The regular-expression engine itself is not part of this
    repository. *)
Definition Regexp : Type := string → option (list string).

Record Config : Type := mkConfig {
  secret : list byte;                (* contents of the secret file *)
  varnishInterval : Z;               (* -varnish.interval *)
  resetBackends : bool;              (* -varnish.reset *)
  directorRegexp : option Regexp     (* nil unless -directorre is given *)
}.

(** [prometheus.Labels] and the children of the [GaugeVec]
    [prombackends], by their label values.  A gauge holds [float64(n)]
    for a count [n]; the conversion is exact for every count that a body
    of at most 99999999 bytes can give, and the gauge is kept as [n]. *)
Abbreviation Labels := (gmap string string) (only parsing).
Abbreviation GaugeVec := (gmap (gmap string string) Z) (only parsing).

Definition state_labels (state : string) : Labels :=
  {[ "state" := state ]}.
Definition director_labels (state director : string) : Labels :=
  <[ "director" := director ]> {[ "state" := state ]}.

(** ** The listing aggregator (the body of the poll loop) *)

Record tally : Type := mktally {
  healthy : Z;
  sick : Z;
  labelhealthy : gmap string Z;
  labelsick : gmap string Z;
  labelall : gmap string Z
}.

Definition tally0 : tally := mktally 0 0 ∅ ∅ ∅.

(** [m[k]], zero for a missing key, and [m[k]++]. *)
Definition get (m : gmap string Z) (k : string) : Z := default 0 (m !! k).
Definition incr (m : gmap string Z) (k : string) : gmap string Z :=
  <[ k := get m k + 1 ]> m.

(** [fields[i]], with the bounds check of the Go run time. *)
Definition index (fields : list string) (i : nat) : outcome string :=
  match fields !! i with
  | Some f => Returns f
  | None => Panics "index out of range"
  end.

Notation "'let!' x := m 'in' k" := (obind m (λ x, k))
  (at level 10, x name, m at level 200, k at level 200, only parsing).

(** [fields[1] != "sick" && fields[2] == "Healthy"]: the right operand
    is evaluated only when the left one holds. *)
Definition is_healthy (fields : list string) : outcome bool :=
  let! f1 := index fields 1 in
  if bool_decide (f1 ≠ "sick") then
    let! f2 := index fields 2 in
    Returns (bool_decide (f2 = "Healthy"))
  else Returns false.

(** The label of a backend name under the director pattern. *)
Definition director_of (re : Regexp) (name : string) : string :=
  match re name with
  | Some m =>
      if 1 <? len m then default "" (m !! 1%nat) else "unknown"
  | None => "unknown"
  end.

(** One pass of [for scanner.Scan()] on the line [t]. *)
Definition scan_line (cfg : Config) (t : string) (a : tally) : outcome tally :=
  if HasPrefix t "Backend name " then Returns a
  else
    let fields := Fields t in
    match directorRegexp cfg with
    | Some re =>
        let! name := index fields 0 in
        let lbl := director_of re name in
        let all := <[ lbl := 1 ]> (labelall a) in
        let! ok := is_healthy fields in
        if ok
        then Returns (mktally (healthy a) (sick a)
                        (incr (labelhealthy a) lbl) (labelsick a) all)
        else Returns (mktally (healthy a) (sick a)
                        (labelhealthy a) (incr (labelsick a) lbl) all)
    | None =>
        let! ok := is_healthy fields in
        if ok
        then Returns (mktally (healthy a + 1) (sick a)
                        (labelhealthy a) (labelsick a) (labelall a))
        else Returns (mktally (healthy a) (sick a + 1)
                        (labelhealthy a) (labelsick a) (labelall a))
    end.

Fixpoint scan_lines (cfg : Config) (lines : list string) (a : tally) : outcome tally :=
  match lines with
  | [] => Returns a
  | t :: rest => let! a' := scan_line cfg t a in scan_lines cfg rest a'
  end.

(** Lines 202-242: the tally of one listing body. *)
Definition aggregate (cfg : Config) (resp : string) : outcome tally :=
  scan_lines cfg (bufio.ScanLines resp) tally0.

(** The label names of the gauge vector (lines 124-129): what
    [prometheus.NewGaugeVec] is given in lines 137-143. *)
Definition promlabels (cfg : Config) : list string :=
  match directorRegexp cfg with
  | Some _ => ["state"; "director"]
  | None => ["state"]
  end.

(** The errors of [GetMetricWith], which [With] turns into panics; the
    panic values are abbreviated to what they say. *)
Definition cardinality_panic : string := "inconsistent label cardinality".
Definition label_value_panic : string := "label value is not valid UTF-8".
Definition label_name_panic : string := "label name missing in label map".

(** [prombackends.With(labels)] on a vector declared with the label
    names [names]: there must be as many labels as names, every label
    value must be valid UTF-8, and every name must have its label.  The
    client library is not part of this repository; these are the checks
    of its [GetMetricWith], whose error [With] panics with. *)
Definition With (names : list string) (labels : Labels) : outcome Labels :=
  if negb (size labels =? length names)%nat then Panics cardinality_panic
  else if negb (forallb (λ kv, utf8.ValidString kv.2) (map_to_list labels))
  then Panics label_value_panic
  else if negb (forallb (λ name, bool_decide (is_Some (labels !! name))) names)
  then Panics label_name_panic
  else Returns labels.

(** [prombackends.With(labels).Set(v)] *)
Definition gauge_set (names : list string) (labels : Labels) (v : Z) (g : GaugeVec)
  : outcome GaugeVec :=
  let! l := With names labels in
  Returns (<[ l := v ]> g).

(** Lines 244-256: publishing the tally.  A panic of [With] ends the
    loop over the labels, and the process with it; the gauges set until
    then are not part of the outcome.  [range] visits the labels in an
    order that Go leaves open; [map_fold] takes one of them, and the
    outcome is the same for all ([publish_outcome],
    [gauges_written_order]). *)
Definition publish (cfg : Config) (a : tally) (g : GaugeVec) : outcome GaugeVec :=
  let names := promlabels cfg in
  let g := if resetBackends cfg then ∅ else g in
  match directorRegexp cfg with
  | Some _ =>
      map_fold (λ k _ r,
                  let! g := r in
                  let! g1 := gauge_set names (director_labels "healthy" k)
                               (get (labelhealthy a) k) g in
                  gauge_set names (director_labels "sick" k) (get (labelsick a) k) g1)
               (Returns g) (labelall a)
  | None =>
      let! g1 := gauge_set names (state_labels "healthy") (healthy a) g in
      gauge_set names (state_labels "sick") (sick a) g1
  end.

(** ** The supervisor: the loops of [main]

    The run is observed as the sequence of the calls that [main] makes,
    each with its result. *)
Inductive Event : Type :=
| Sleep (seconds : Z)                                   (* time.Sleep *)
| DialTCP (ok : bool)                                   (* net.DialTCP *)
| Response (code : Z)                                   (* vadm.ReadResponse *)
| Command (cmd : string) (args : list string) (ok : bool)  (* vadm.CommandForSuccess *)
| Sent (cmd : string) (args : list string) (ok : bool)  (* vadm.Send *)
| Published (g : gmap (gmap string string) Z)           (* lines 244-256 done: the gauges *)
| Crashed (msg : string).                               (* a panic ends the process *)

(** The argument of the [auth] command (lines 179-181). *)
Definition auth_response (cfg : Config) (resp : string) : outcome string :=
  let! challenge := index (Split resp nl) 0 in
  let response :=
    sha256.Sum256 (bytes challenge ++ [nl] ++ secret cfg ++ bytes challenge ++ [nl]) in
  Returns (hex.EncodeToString response).

(** [*resp] *)
Definition deref (resp : option string) : outcome string :=
  match resp with
  | Some r => Returns r
  | None => Panics "invalid memory address or nil pointer dereference"
  end.

Inductive handshake_result : Type :=
| NoPrompt            (* "Varnish did not give authentication prompt." *)
| AuthFailed          (* "Failed to authenticate" *)
| Authenticated.

(** Lines 173-184, on a fresh connection. *)
Definition handshake (cfg : Config) (c : Conn)
  : list Event * outcome handshake_result * Conn :=
  match ReadResponse c with
  | (OutOfFuel, c1) => ([], OutOfFuel, c1)
  | (Panics msg, c1) => ([Crashed msg], Panics msg, c1)
  | (Returns (code, resp), c1) =>
      if negb (code =? 107) then ([Response code], Returns NoPrompt, c1)
      else
        match (let! r := deref resp in auth_response cfg r) with
        | OutOfFuel => ([Response code], OutOfFuel, c1)
        | Panics msg => ([Response code; Crashed msg], Panics msg, c1)
        | Returns h =>
            match CommandForSuccess "auth" [h] c1 with
            | (OutOfFuel, c2) => ([Response code], OutOfFuel, c2)
            | (Panics msg, c2) => ([Response code; Crashed msg], Panics msg, c2)
            | (Returns ok, c2) =>
                ([Response code; Command "auth" [h] ok],
                 Returns (if ok then Authenticated else AuthFailed), c2)
            end
        end
  end.

Inductive poll_end : Type :=
| Broke                (* [break]: back to the outer loop *)
| Died                 (* a panic *)
| Unfinished.          (* the observation ends here *)

(** Lines 190-260, observed for at most [n] passes. *)
Fixpoint poll (n : nat) (cfg : Config) (c : Conn) (g : GaugeVec)
  : list Event * poll_end * GaugeVec :=
  match n with
  | O => ([], Unfinished, g)
  | S n' =>
      match Send "backend.list" [] c with
      | (Some _, c1) => ([Sent "backend.list" [] false], Broke, g)
      | (None, c1) =>
          match ReadResponse c1 with
          | (OutOfFuel, _) => ([Sent "backend.list" [] true], Unfinished, g)
          | (Panics msg, _) => ([Sent "backend.list" [] true; Crashed msg], Died, g)
          | (Returns (code, resp), c2) =>
              if negb (code =? 200)
              then ([Sent "backend.list" [] true; Response code], Broke, g)
              else
                match (let! r := deref resp in aggregate cfg r) with
                | OutOfFuel => ([Sent "backend.list" [] true; Response code], Unfinished, g)
                | Panics msg =>
                    ([Sent "backend.list" [] true; Response code; Crashed msg], Died, g)
                | Returns a =>
                    match publish cfg a g with
                    | OutOfFuel =>
                        ([Sent "backend.list" [] true; Response code], Unfinished, g)
                    | Panics msg =>
                        ([Sent "backend.list" [] true; Response code; Crashed msg], Died, g)
                    | Returns g' =>
                        let '(evs, e, g'') := poll n' cfg c2 g' in
                        (Sent "backend.list" [] true :: Response code :: Published g'
                           :: Sleep (varnishInterval cfg) :: evs, e, g'')
                    end
                end
          end
      end
  end.

(** Lines 156-263.  [dials] gives the results of the [net.DialTCP] calls
    to come: no connection, or a connection with what the peer will send
    on it.  The program never leaves this loop, so a run is observed on
    a finite script, each connection polled at most [n] times. *)
Fixpoint supervise (n : nat) (cfg : Config) (dials : list (option Conn))
    (first : bool) (g : GaugeVec) : list Event :=
  match dials with
  | [] => []
  | d :: dials' =>
      (if first then [] else [Sleep 5]) ++
      match d with
      | None => DialTCP false :: supervise n cfg dials' false g
      | Some c =>
          DialTCP true ::
          match handshake cfg c with
          | (evs, Returns Authenticated, c1) =>
              match poll n cfg c1 g with
              | (evs', Broke, g') => evs ++ evs' ++ supervise n cfg dials' false g'
              | (evs', _, _) => evs ++ evs'
              end
          | (evs, Returns _, _) => evs ++ supervise n cfg dials' false g
          | (evs, _, _) => evs
          end
      end
  end.

(** [main] from line 156 on: [first := true], no gauge set yet. *)
Definition main_loop (n : nat) (cfg : Config) (dials : list (option Conn)) : list Event :=
  supervise n cfg dials true ∅.

(** ** Closing the connections (lines 172 and 262)

    [defer conn.Close()] is executed in every pass of the outer loop
    that has got a connection, and [main] never returns: the deferred
    calls run only when a panic unwinds [main], the last one first,
    before the process dies.  Line 262 closes the connection when the
    poll loop is left by [break].  The connections are numbered in the
    order in which [net.DialTCP] returns them; [k] is the number of those
    obtained so far. *)
Inductive Call : Type :=
| Ev (e : Event)      (* a call of the run, as above *)
| Close (k : nat).    (* conn.Close() on connection k *)

(** The deferred calls of [k] connections. *)
Definition unwind (k : nat) : list Call := map Close (rev (seq 0 k)).

Fixpoint supervise_closing (n : nat) (cfg : Config) (dials : list (option Conn))
    (first : bool) (g : GaugeVec) (k : nat) : list Call :=
  match dials with
  | [] => []
  | d :: dials' =>
      map Ev (if first then [] else [Sleep 5]) ++
      match d with
      | None => Ev (DialTCP false) :: supervise_closing n cfg dials' false g k
      | Some c =>
          Ev (DialTCP true) ::
          match handshake cfg c with
          | (evs, Returns Authenticated, c1) =>
              match poll n cfg c1 g with
              | (evs', Broke, g') =>
                  map Ev (evs ++ evs')
                    ++ Close k :: supervise_closing n cfg dials' false g' (S k)
              | (evs', Died, _) => map Ev (evs ++ evs') ++ unwind (S k)
              | (evs', Unfinished, _) => map Ev (evs ++ evs')
              end
          | (evs, Returns _, _) =>
              map Ev evs ++ supervise_closing n cfg dials' false g (S k)
          | (evs, Panics _, _) => map Ev evs ++ unwind (S k)
          | (evs, OutOfFuel, _) => map Ev evs
          end
      end
  end.

Definition main_closing (n : nat) (cfg : Config) (dials : list (option Conn)) : list Call :=
  supervise_closing n cfg dials true ∅ 0.

(** * The vocabulary of the properties

    The notions in which the properties below are stated, and the data of
    their examples. *)

(** The header line of a listing. *)
Definition is_header (t : string) : bool := HasPrefix t "Backend name ".

(** The lines of a body that reach the classification. *)
Definition data_lines (resp : string) : list string :=
  List.filter (λ t, negb (is_header t)) (bufio.ScanLines resp).

(** The classification of a line, when it has one. *)
Definition line_healthy (t : string) : bool :=
  match is_healthy (Fields t) with Returns b => b | _ => false end.

Definition line_label (re : Regexp) (t : string) : string :=
  director_of re (default "" (Fields t !! 0%nat)).

Fixpoint count_if (p : string → bool) (l : list string) : Z :=
  match l with
  | [] => 0
  | t :: l' => (if p t then 1 else 0) + count_if p l'
  end.



Definition plain_cfg : Config := mkConfig (bytes "s3cr3t") 15 false None.

(** [FindStringSubmatch] of [regexp.MustCompile(".*_([^_]+)$")], the
    pattern of the README, on a name without newline: the text after
    the last underscore, if there is an underscore and the text is not
    empty. *)
Definition director_suffix : Regexp := λ name,
  match rev (Split name "_"%char) with
  | last :: _ :: _ => if bool_decide (last = "") then None else Some [name; last]
  | _ => None
  end.

Definition grouped_cfg : Config := mkConfig (bytes "s3cr3t") 15 false (Some director_suffix).

Definition listing (lines : list string) : string :=
  String.concat newline (lines ++ [""]).

(** A listing with a blank line between two records. *)
Definition blank_line_listing : string :=
  listing ["Backend name                   Admin      Probe";
           "web1_fe                        healthy    Healthy 5/5";
           "";
           "web2_fe                        sick       Sick 0/5"].

Definition sample_listing : string :=
  listing ["Backend name Admin Health"; "web1_fe healthy Healthy"; "web2_fe sick Sick"].

(** The gauges after a [Set] that [With] has let through. *)
Definition set_gauge (labels : Labels) (v : Z) (g : GaugeVec) : GaugeVec :=
  <[ labels := v ]> g.

(** The writes of lines 249-252 for the labels of [m]. *)
Definition write_directors (lh ls : gmap string Z) (m : gmap string Z) (g : GaugeVec)
  : GaugeVec :=
  map_fold (λ k _ g,
              set_gauge (director_labels "sick" k) (get ls k)
                (set_gauge (director_labels "healthy" k) (get lh k) g))
           g m.

(** The gauges that a publication leaves when no [With] panics. *)
Definition gauges_written (cfg : Config) (a : tally) (g : GaugeVec) : GaugeVec :=
  let g := if resetBackends cfg then ∅ else g in
  match directorRegexp cfg with
  | Some _ => write_directors (labelhealthy a) (labelsick a) (labelall a) g
  | None =>
      set_gauge (state_labels "sick") (sick a)
        (set_gauge (state_labels "healthy") (healthy a) g)
  end.

(** Every label of the cycle is valid UTF-8 (no label is looked at
    without a director pattern). *)
Definition valid_labels (cfg : Config) (a : tally) : bool :=
  match directorRegexp cfg with
  | Some _ => forallb (λ kx, utf8.ValidString kx.1) (map_to_list (labelall a))
  | None => true
  end.

(** A backend whose name ends in the byte 0xff, which is no UTF-8. *)
Definition invalid_label : string := String "255" "".
Definition invalid_label_listing : string :=
  listing ["web_" +:+ invalid_label +:+ " healthy Healthy"].

(** The label sets that one cycle writes (lines 248-256). *)
Definition snapshot_keys (cfg : Config) (a : tally) : list (gmap string string) :=
  match directorRegexp cfg with
  | None => [state_labels "healthy"; state_labels "sick"]
  | Some _ =>
      flat_map (λ k, [director_labels "healthy" k; director_labels "sick" k])
               (map fst (map_to_list (labelall a)))
  end.

(** A gauge of a director that has left the listing. *)
Definition stale_gauges : gmap (gmap string string) Z :=
  {[ director_labels "healthy" "old" := 3 ]}.

Definition reset_cfg : Config := mkConfig (bytes "s3cr3t") 15 true (Some director_suffix).

(** The text of [s] before its first newline. *)
Fixpoint before_newline (s : list byte) : list byte :=
  match s with
  | [] => []
  | b :: s' => if Ascii.eqb b nl then [] else b :: before_newline s'
  end.

Definition first_line (s : string) : string := str (before_newline (bytes s)).

(** The response that the protocol asks for:
    hex(sha256(challenge + "\n" + secret + challenge + "\n")). *)
Definition auth_hex (secret : list byte) (challenge : string) : string :=
  hex.EncodeToString
    (sha256.Sum256 (bytes challenge ++ [nl] ++ secret ++ bytes challenge ++ [nl])).

(** A response as the server sends it: header, body, terminator. *)
Definition response_bytes (code : Z) (body : string) : list byte :=
  fmt.Sprintf_header code (len (bytes body)) ++ bytes body ++ [nl].

(** A server that greets with the challenge "abc123" and accepts the
    response; [greeted_conn] is what is left after the greeting. *)
Definition greeting_conn : Conn :=
  mkConn [response_bytes 107 (listing ["abc123"; ""; "Authentication required."]);
          response_bytes 200 "Varnish Cache CLI 1.0"]
         EndEOF [] [].


(** A response whose terminator is not a newline. *)
Definition odd_terminator_conn : Conn :=
  mkConn [bytes "200        5"; [nl]; bytes "helloX"; bytes "next"] EndEOF [] [].

Definition is_dial (e : Event) : bool :=
  match e with DialTCP _ => true | _ => false end.

Definition is_list_send (e : Event) : bool :=
  match e with
  | Sent cmd args _ => bool_decide (cmd = "backend.list" ∧ args = [])
  | _ => false
  end.

(** Every connection attempt of the trace comes right after a sleep of
    five seconds. *)
Definition spaced (tr : list Event) : Prop :=
  ∀ pre ok post, tr = pre ++ DialTCP ok :: post → ∃ pre', pre = pre' ++ [Sleep 5].

(** Every [backend.list] of the trace is sent on a connection that has
    given the greeting 107 and accepted the [auth] command. *)
Definition guarded (tr : list Event) : Prop :=
  ∀ pre ok post, tr = pre ++ Sent "backend.list" [] ok :: post →
    ∃ pre0 h mid,
      pre = pre0 ++ DialTCP true :: Response 107 :: Command "auth" [h] true :: mid ∧
      Forall (λ e, is_dial e = false) mid.

(** A run: the first attempt finds no server; the second one is
    greeted, authenticates and polls twice before the server closes. *)
Definition polling_conn : Conn :=
  mkConn [response_bytes 107 (listing ["abc123"; ""; "Authentication required."]);
          response_bytes 200 "Varnish Cache CLI 1.0";
          response_bytes 200 sample_listing;
          response_bytes 200 sample_listing]
         EndEOF [] [].

Definition demo_run : list Event := main_loop 5 plain_cfg [None; Some polling_conn; None].

(** A server whose listing has a backend that ends in the byte 0xff. *)
Definition invalid_label_conn : Conn :=
  mkConn [response_bytes 107 (listing ["abc123"; ""; "Authentication required."]);
          response_bytes 200 "Varnish Cache CLI 1.0";
          response_bytes 200 invalid_label_listing]
         EndEOF [] [].

(** A shorter run: the server closes after the handshake. *)
Definition short_run : list Event := main_loop 5 plain_cfg [None; Some greeting_conn].

(** The states, character classes and loop bodies of a scan. *)
Module scan.
Import fmt.

(** The states of a scan that goes well: nothing pending, no end of
    input seen. *)
Definition st (r : list byte) (e : stream_end) (pk cnt lim : Z) (b : list byte) : ss :=
  mkss r e [] pk cnt lim false b.

Definition sp : byte := " "%char.

Definition digit (c : byte) : Prop := is_digit c = true.

Definition accept_body (_ : unit) : scanner (unit + unit) :=
  let* ok := accept decimalDigits in if ok then continue else break.

Definition blanks_body (c : Z) : scanner (Z + Z) :=
  if isSpace c && negb (c =? 10)
  then let* c' := getRune in ret (inl c')
  else ret (inr c).

(** A scanner that always answers. *)
Definition answers {A} (m : scanner A) : Prop := ∀ s, m s ≠ ScanFuel.

Definition blanks_mu (c : Z) (s : ss) : nat :=
  (pot s + if isSpace c && negb (c =? 10)%Z then 1 else 0)%nat.

End scan.

(** The digits of [hex.EncodeToString]. *)
Definition hex_digit (c : byte) : Prop := c ∈ hex.hextable.

(** The panics that the run time can raise in the calls embedded here;
    with [label_value_panic] of [With], the panics of a run. *)
Definition makeslice_panic : string := "makeslice: len out of range".
Definition slice_panic : string := "slice bounds out of range [:-1]".
Definition index_panic : string := "index out of range".

Definition known_panic (cfg : Config) (e : Event) : Prop :=
  match e with
  | Crashed msg =>
      msg = makeslice_panic ∨ msg = slice_panic ∨ msg = index_panic
      ∨ (msg = label_value_panic ∧ directorRegexp cfg ≠ None)
  | _ => True
  end.

(** The counters of a scan: what the rune reader leaves alone, a step
    that reads on without storing, and the token within its width. *)
Module counts.
Import fmt.

Definition same_counts (s s1 : ss) : Prop :=
  count s1 = count s ∧ argLimit s1 = argLimit s ∧ buf s1 = buf s.

Definition adv (s s1 : ss) : Prop :=
  argLimit s1 = argLimit s ∧ buf s1 = buf s ∧ count s ≤ count s1 ∧
  (count s1 = count s ∨ count s1 ≤ argLimit s).

Definition within (c0 : Z) (s : ss) : Prop :=
  len (buf s) + c0 ≤ count s ∧ (buf s = [] ∨ count s ≤ argLimit s).

End counts.








(** The calls of a trace that are not [Close]. *)
Definition calls_events (tr : list Call) : list Event :=
  omap (λ c, match c with Ev e => Some e | Close _ => None end) tr.

(** The number of connections that a trace obtains. *)
Definition obtained (tr : list Call) : nat :=
  length (List.filter (λ c, match c with Ev (DialTCP true) => true | _ => false end) tr).

Definition is_crash (c : Call) : bool :=
  match c with Ev (Crashed _) => true | _ => false end.

(** Neither a connection attempt nor a [Close]. *)
Definition on_conn (c : Call) : bool :=
  match c with Ev (DialTCP _) => false | Close _ => false | _ => true end.

Definition is_close (c : Call) : bool :=
  match c with Close _ => true | _ => false end.

(** A [Close] that no panic precedes is the one of line 262: it closes
    connection [j], the connection that the last attempt obtained and
    that was greeted and authenticated, and the next call, if any, is
    the sleep before the next attempt.  [k] connections were obtained
    before the trace begins. *)
Definition closes_after_poll (k : nat) (tr : list Call) : Prop :=
  ∀ pre j post,
    tr = pre ++ Close j :: post →
    Forall (λ c, is_crash c = false) pre →
    (∃ pre0 h mid,
       pre = pre0 ++ Ev (DialTCP true) :: Ev (Response 107)
                  :: Ev (Command "auth" [h] true) :: mid ∧
       Forall (λ c, on_conn c = true) mid ∧ j = (k + obtained pre0)%nat) ∧
    (post = [] ∨ ∃ post', post = Ev (Sleep 5) :: post').

(** A panic is followed by the deferred calls of all the connections
    obtained, the last one first, and by nothing else. *)
Definition unwinds (k : nat) (tr : list Call) : Prop :=
  ∀ pre msg post,
    tr = pre ++ Ev (Crashed msg) :: post → post = unwind (k + obtained pre).

(** A server that does not give the prompt, and one whose greeting
    announces a negative length. *)
Definition unprompted_conn : Conn := mkConn [response_bytes 200 "hi"] EndEOF [] [].
Definition negative_conn : Conn := mkConn [bytes "107       -2"; [nl]] EndEOF [] [].

(** A session that ends when the server closes, and a run that dies in
    its second connection. *)
Definition closed_run : list Call := main_closing 5 plain_cfg [Some greeting_conn].
Definition dying_run : list Call :=
  main_closing 5 plain_cfg [Some unprompted_conn; Some negative_conn].

(** An ASCII character that cannot start a number: no digit, no sign,
    no white space. *)
Definition plain_char (b : byte) : bool :=
  (byte_val b <? 128) && negb (isSpace (byte_val b)) && negb (fmt.is_digit b)
  && negb (byte_val b =? 43) && negb (byte_val b =? 45).

(** The state of a scan after the end of the input has been seen. *)
Module scan_end.
Import fmt.

Definition ended (e : stream_end) (pk cnt lim : Z) (b : list byte) : ss :=
  mkss [] e [] pk cnt lim true b.

(** A scan that stops at the end of the input: it fails, or it gives
    two numbers, the length not negative, and has read everything. *)
Definition stops (r : outcome scanned * ss) : Prop :=
  ∃ h s, r = (Returns h, s) ∧
         (err h ≠ None ∨ (headers h = 2 ∧ 0 ≤ length_ h ∧ rd s = [])).

End scan_end.

(** * Properties of the listing aggregator *)

Lemma get_incr_eq m k : get (incr m k) k = get m k + 1.
Proof. unfold get, incr. by rewrite lookup_insert_eq. Qed.

Lemma get_incr_ne m k k' : k ≠ k' → get (incr m k) k' = get m k'.
Proof. intros. unfold get, incr. by rewrite lookup_insert_ne. Qed.

Lemma count_if_nonneg p l : 0 ≤ count_if p l.
Proof. induction l as [|t l IH]; simpl; [lia|]. destruct (p t); lia. Qed.

Lemma is_healthy_three f0 f1 f2 rest :
  is_healthy (f0 :: f1 :: f2 :: rest)
  = Returns (bool_decide (f1 ≠ "sick" ∧ f2 = "Healthy")).
Proof.
  unfold is_healthy, index; simpl.
  destruct (decide (f1 = "sick")) as [Heq|Hne].
  - rewrite (bool_decide_eq_false_2 (f1 ≠ "sick")) by tauto.
    rewrite (bool_decide_eq_false_2 (f1 ≠ "sick" ∧ _)) by tauto. done.
  - rewrite (bool_decide_eq_true_2 (f1 ≠ "sick")) by done. simpl. f_equal.
    apply bool_decide_ext. tauto.
Qed.

(** What one pass of the loop does when it does not panic. *)
Lemma scan_line_inv cfg t a a' :
  scan_line cfg t a = Returns a' →
  if is_header t then a' = a
  else
    is_healthy (Fields t) = Returns (line_healthy t) ∧
    match directorRegexp cfg with
    | None =>
        a' = if line_healthy t
             then mktally (healthy a + 1) (sick a) (labelhealthy a) (labelsick a) (labelall a)
             else mktally (healthy a) (sick a + 1) (labelhealthy a) (labelsick a) (labelall a)
    | Some re =>
        is_Some (Fields t !! 0%nat) ∧
        let lbl := line_label re t in
        let all := <[ lbl := 1 ]> (labelall a) in
        a' = if line_healthy t
             then mktally (healthy a) (sick a) (incr (labelhealthy a) lbl) (labelsick a) all
             else mktally (healthy a) (sick a) (labelhealthy a) (incr (labelsick a) lbl) all
    end.
Proof.
  unfold scan_line, is_header, line_healthy, line_label.
  destruct (HasPrefix t "Backend name "); [congruence|].
  destruct (directorRegexp cfg) as [re|].
  - unfold index. destruct (Fields t !! 0%nat) as [name|] eqn:Hname; simpl; [|done].
    destruct (is_healthy (Fields t)) as [b| |]; simpl; [|done..].
    intros H. split; [done|]. split; [by eexists|].
    destruct b; congruence.
  - destruct (is_healthy (Fields t)) as [b| |]; simpl; [|done..].
    intros H. split; [done|]. destruct b; congruence.
Qed.

(** The counters after a run over [lines], from any starting tally. *)
Lemma scan_lines_plain cfg lines a0 a :
  directorRegexp cfg = None →
  scan_lines cfg lines a0 = Returns a →
  healthy a = healthy a0 + count_if (λ t, negb (is_header t) && line_healthy t) lines ∧
  sick a = sick a0 + count_if (λ t, negb (is_header t) && negb (line_healthy t)) lines.
Proof.
  intros Hre. revert a0. induction lines as [|t lines IH]; intros a0; simpl.
  - intros [= ->]. lia.
  - destruct (scan_line cfg t a0) as [a1| |] eqn:Hstep; simpl; [|done..].
    intros Hrun. apply IH in Hrun as [Hh Hs]. apply scan_line_inv in Hstep.
    destruct (is_header t); simpl.
    + subst a1. lia.
    + destruct Hstep as [_ Hstep]. rewrite Hre in Hstep.
      destruct (line_healthy t); subst a1; simpl in *; lia.
Qed.

Lemma scan_lines_grouped cfg re lines a0 a lbl :
  directorRegexp cfg = Some re →
  scan_lines cfg lines a0 = Returns a →
  get (labelhealthy a) lbl
  = get (labelhealthy a0) lbl
    + count_if (λ t, negb (is_header t) && bool_decide (line_label re t = lbl)
                     && line_healthy t) lines ∧
  get (labelsick a) lbl
  = get (labelsick a0) lbl
    + count_if (λ t, negb (is_header t) && bool_decide (line_label re t = lbl)
                     && negb (line_healthy t)) lines.
Proof.
  intros Hre. revert a0. induction lines as [|t lines IH]; intros a0; simpl.
  - intros [= ->]. lia.
  - destruct (scan_line cfg t a0) as [a1| |] eqn:Hstep; simpl; [|done..].
    intros Hrun. apply IH in Hrun as [Hh Hs]. apply scan_line_inv in Hstep.
    destruct (is_header t); simpl.
    + subst a1. lia.
    + destruct Hstep as [_ Hstep]. rewrite Hre in Hstep.
      destruct Hstep as [_ Hstep]. simpl in Hstep.
      rewrite Hh, Hs. clear Hh Hs.
      destruct (decide (line_label re t = lbl)) as [Heq|Hne].
      * rewrite (bool_decide_eq_true_2 _ Heq).
        destruct (line_healthy t); subst a1 lbl; simpl;
          rewrite get_incr_eq; lia.
      * rewrite (bool_decide_eq_false_2 _ Hne).
        destruct (line_healthy t); subst a1; simpl;
          rewrite ?get_incr_ne by done; lia.
Qed.

(** The labels on record after a run: those on record before, and the
    label of every line classified. *)
Lemma scan_lines_labelall cfg re lines a0 a lbl :
  directorRegexp cfg = Some re →
  scan_lines cfg lines a0 = Returns a →
  is_Some (labelall a !! lbl) ↔
  is_Some (labelall a0 !! lbl) ∨
  ∃ t, t ∈ lines ∧ is_header t = false ∧ line_label re t = lbl.
Proof.
  intros Hre. revert a0. induction lines as [|t lines IH]; intros a0; simpl.
  - intros [= ->]. split; [auto|]. intros [H|(t & Ht & _)]; [done|].
    by apply elem_of_nil in Ht.
  - destruct (scan_line cfg t a0) as [a1| |] eqn:Hstep; simpl; [|done..].
    intros Hrun. rewrite (IH _ Hrun). apply scan_line_inv in Hstep.
    destruct (is_header t) eqn:Hhd.
    + subst a1. split.
      * intros [H|(u & Hu & Hd & Hl)]; [auto|]. right. exists u.
        split; [by apply elem_of_cons; right|done].
      * intros [H|(u & Hu & Hd & Hl)]; [auto|].
        apply elem_of_cons in Hu as [->|Hu]; [congruence|]. right. by exists u.
    + destruct Hstep as [_ Hstep]. rewrite Hre in Hstep.
      destruct Hstep as [_ Hstep]. simpl in Hstep.
      assert (Hall : labelall a1 = <[ line_label re t := 1 ]> (labelall a0))
        by (destruct (line_healthy t); by subst a1).
      rewrite Hall. split.
      * intros [H|(u & Hu & Hd & Hl)].
        -- destruct (decide (line_label re t = lbl)) as [Heq|Hne].
           ++ right. exists t. split; [by apply elem_of_cons; left|done].
           ++ rewrite lookup_insert_ne in H by done. auto.
        -- right. exists u. split; [by apply elem_of_cons; right|done].
      * intros [H|(u & Hu & Hd & Hl)].
        -- left. destruct (decide (line_label re t = lbl)) as [Heq|Hne].
           ++ rewrite Heq, lookup_insert_eq. by eexists.
           ++ by rewrite lookup_insert_ne.
        -- apply elem_of_cons in Hu as [->|Hu].
           ++ left. rewrite Hl, lookup_insert_eq. by eexists.
           ++ right. by exists u.
Qed.

Lemma count_if_split (p q : string → bool) l :
  count_if (λ t, p t && q t) l + count_if (λ t, p t && negb (q t)) l = count_if p l.
Proof.
  induction l as [|t l IH]; simpl; [done|].
  destruct (p t), (q t); simpl; lia.
Qed.

Lemma count_if_filter (p q : string → bool) l :
  count_if (λ t, p t && q t) l = count_if q (List.filter p l).
Proof.
  induction l as [|t l IH]; simpl; [done|].
  destruct (p t); simpl; by rewrite IH.
Qed.

Lemma count_if_all (p : string → bool) l :
  (∀ t, p t = true) → count_if p l = len l.
Proof.
  intros Hp. unfold len. induction l as [|t l IH]; simpl length; simpl count_if; [done|].
  rewrite Hp, IH. lia.
Qed.

Lemma count_if_ext (p q : string → bool) l :
  (∀ t, p t = q t) → count_if p l = count_if q l.
Proof. intros H. induction l as [|t l IH]; simpl; [done|]. by rewrite H, IH. Qed.

(** A line with three fields or more is classified, whatever they are. *)
Lemma scan_line_returns cfg t a :
  (3 ≤ length (Fields t))%nat → ∃ a', scan_line cfg t a = Returns a'.
Proof.
  intros Hlen. unfold scan_line.
  destruct (HasPrefix t "Backend name "); [by eexists|].
  destruct (Fields t) as [|f0 [|f1 [|f2 rest]]]; simpl in Hlen; try lia.
  rewrite is_healthy_three. unfold index; simpl.
  destruct (directorRegexp cfg); destruct (bool_decide _); by eexists.
Qed.

Lemma scan_lines_returns cfg lines a :
  Forall (λ t, (3 ≤ length (Fields t))%nat) (List.filter (λ t, negb (is_header t)) lines) →
  ∃ a', scan_lines cfg lines a = Returns a'.
Proof.
  revert a. induction lines as [|t lines IH]; intros a Hall; simpl; [by eexists|].
  simpl in Hall. destruct (is_header t) eqn:Hhd; simpl in Hall.
  - unfold scan_line. fold (is_header t). rewrite Hhd. simpl. by apply IH.
  - apply Forall_cons in Hall as [Ht Hall].
    destruct (scan_line_returns cfg t a Ht) as [a1 ->]. simpl. by apply IH.
Qed.



(** Both conjuncts matter: each one alone falsified puts the line in the
    sick counter. *)
Example classify_examples :
  aggregate plain_cfg "a healthy Healthy" = Returns (mktally 1 0 ∅ ∅ ∅) ∧
  aggregate plain_cfg "a sick Healthy" = Returns (mktally 0 1 ∅ ∅ ∅) ∧
  aggregate plain_cfg "a healthy Sick" = Returns (mktally 0 1 ∅ ∅ ∅) ∧
  aggregate plain_cfg "a probe Healthy 5/5" = Returns (mktally 1 0 ∅ ∅ ∅).
Proof. repeat split; reflexivity. Qed.

(** A line shorter than three fields: the run-time bounds check fails
    unless the line has exactly two fields, the second one "sick". *)
Lemma scan_line_short cfg t a :
  is_header t = false →
  (length (Fields t) < 3)%nat →
  scan_line cfg t a = Panics "index out of range" ∨
  ∃ f0, Fields t = [f0; "sick"].
Proof.
  intros Hhd Hlen. unfold scan_line. fold (is_header t). rewrite Hhd.
  destruct (Fields t) as [|f0 [|f1 [|f2 rest]]]; simpl in Hlen; try lia.
  - left. by destruct (directorRegexp cfg).
  - left. by destruct (directorRegexp cfg).
  - destruct (decide (f1 = "sick")) as [->|Hne]; [right; by eexists|].
    left. unfold is_healthy, index; simpl.
    rewrite (bool_decide_eq_true_2 _ Hne). by destruct (directorRegexp cfg).
Qed.

(** C2 (the code departs from the specification).  A blank line in the
    listing makes [fields[1]] (or [fields[0]] with a director pattern)
    fail its bounds check, and so does [fields[2]] on a line of two
    fields: the pass over the body panics, nothing of the cycle is
    counted, and the panic ends the process. *)
Theorem blank_line_panics :
  aggregate plain_cfg blank_line_listing = Panics "index out of range" ∧
  aggregate grouped_cfg blank_line_listing = Panics "index out of range" ∧
  aggregate plain_cfg (listing ["web1_fe healthy"]) = Panics "index out of range".
Proof. repeat split; vm_compute; reflexivity. Qed.

(** C5.  In a cycle that completes, every line that reaches the
    classification is counted in exactly one of the two counters: the
    healthy and the sick count add up to the number of lines that are
    not the header, and with a director pattern they do so label by
    label.  A body whose lines all have three fields completes. *)
Theorem healthy_plus_sick cfg resp :
  (Forall (λ t, (3 ≤ length (Fields t))%nat) (data_lines resp) →
   ∃ a, aggregate cfg resp = Returns a) ∧
  (∀ a, aggregate cfg resp = Returns a →
     match directorRegexp cfg with
     | None => healthy a + sick a = len (data_lines resp)
     | Some re =>
         ∀ lbl, get (labelhealthy a) lbl + get (labelsick a) lbl
                = count_if (λ t, bool_decide (line_label re t = lbl)) (data_lines resp)
     end).
Proof.
  split; [apply scan_lines_returns|].
  intros a Hrun. unfold aggregate in Hrun. unfold data_lines.
  destruct (directorRegexp cfg) as [re|] eqn:Hre.
  - intros lbl.
    destruct (scan_lines_grouped cfg re _ _ _ lbl Hre Hrun) as [-> ->].
    change (get (labelhealthy tally0) lbl) with 0.
    change (get (labelsick tally0) lbl) with 0.
    rewrite <- (count_if_filter (λ t, negb (is_header t))).
    rewrite <- (count_if_split
                  (λ t, negb (is_header t) && bool_decide (line_label re t = lbl))
                  line_healthy).
    lia.
  - destruct (scan_lines_plain cfg _ _ _ Hre Hrun) as [-> ->]. simpl.
    set (L := bufio.ScanLines resp).
    pose proof (count_if_split (λ t, negb (is_header t)) line_healthy L) as H1.
    pose proof (count_if_filter (λ t, negb (is_header t)) (λ _, true) L) as H2.
    rewrite (count_if_all (λ _, true) _ (λ _, eq_refl)) in H2.
    rewrite (count_if_ext (λ t, negb (is_header t) && true) (λ t, negb (is_header t)))
      in H2 by (intros; apply andb_true_r).
    simpl in H1. lia.
Qed.

Lemma healthy_plus_sick_witness :
  Forall (λ t, (3 ≤ length (Fields t))%nat) (data_lines sample_listing) ∧
  ∃ a, aggregate plain_cfg sample_listing = Returns a ∧
       healthy a + sick a = len (data_lines sample_listing).
Proof.
  assert (H : Forall (λ t, (3 ≤ length (Fields t))%nat) (data_lines sample_listing)).
  { repeat constructor. }
  split; [exact H|].
  destruct (proj1 (healthy_plus_sick plain_cfg sample_listing) H) as [a Ha].
  exists a. split; [exact Ha|].
  exact (proj2 (healthy_plus_sick plain_cfg sample_listing) a Ha).
Defined.

(** The scenarios of the listing: one healthy and one sick backend,
    without and with the director pattern. *)
Example sample_listing_plain :
  aggregate plain_cfg sample_listing = Returns (mktally 1 1 ∅ ∅ ∅).
Proof. reflexivity. Qed.

Example sample_listing_grouped :
  aggregate grouped_cfg sample_listing
  = Returns (mktally 0 0 {[ "fe" := 1 ]} {[ "fe" := 1 ]} {[ "fe" := 1 ]}).
Proof. vm_compute. reflexivity. Qed.

(** * Properties of the published gauges *)

Lemma director_labels_state s k : director_labels s k !! "state" = Some s.
Proof. unfold director_labels. rewrite lookup_insert_ne by done. apply lookup_singleton_eq. Qed.

Lemma director_labels_director s k : director_labels s k !! "director" = Some k.
Proof. unfold director_labels. apply lookup_insert_eq. Qed.

Lemma director_labels_inj s k s' k' :
  director_labels s k = director_labels s' k' → s = s' ∧ k = k'.
Proof.
  intros H. split.
  - pose proof (director_labels_state s k) as H1. rewrite H, director_labels_state in H1.
    congruence.
  - pose proof (director_labels_director s k) as H1.
    rewrite H, director_labels_director in H1. congruence.
Qed.


Lemma write_directors_lookup lh ls m g :
  (∀ k, is_Some (m !! k) →
        write_directors lh ls m g !! director_labels "healthy" k = Some (get lh k) ∧
        write_directors lh ls m g !! director_labels "sick" k = Some (get ls k)) ∧
  (∀ key, (∀ k, is_Some (m !! k) →
                 key ≠ director_labels "healthy" k ∧ key ≠ director_labels "sick" k) →
          write_directors lh ls m g !! key = g !! key).
Proof.
  unfold write_directors.
  apply (map_fold_weak_ind (λ r m,
    (∀ k, is_Some (m !! k) →
          r !! director_labels "healthy" k = Some (get lh k) ∧
          r !! director_labels "sick" k = Some (get ls k)) ∧
    (∀ key, (∀ k, is_Some (m !! k) →
                 key ≠ director_labels "healthy" k ∧ key ≠ director_labels "sick" k) →
            r !! key = g !! key))).
  - split.
    + intros k [x Hx]. by rewrite lookup_empty in Hx.
    + done.
  - intros i x m' r Hi [IH1 IH2]. unfold set_gauge. split.
    + intros k Hk. destruct (decide (k = i)) as [->|Hne].
      * rewrite lookup_insert_ne
          by (intros H; apply director_labels_inj in H as [H _]; discriminate).
        by rewrite !lookup_insert_eq.
      * rewrite lookup_insert_ne in Hk by done.
        rewrite !lookup_insert_ne
          by (intros H; apply director_labels_inj in H as [_ H]; congruence).
        by apply IH1.
    + intros key Hkey.
      rewrite !lookup_insert_ne.
      * apply IH2. intros k Hk. apply Hkey.
        destruct (decide (i = k)) as [->|Hne]; [by rewrite lookup_insert_eq|].
        by rewrite lookup_insert_ne.
      * intros H. destruct (Hkey i) as [H1 H2]; [by rewrite lookup_insert_eq|].
        congruence.
      * intros H. destruct (Hkey i) as [H1 H2]; [by rewrite lookup_insert_eq|].
        congruence.
Qed.

(** *** What [With] lets through *)

Lemma With_state s :
  With ["state"] (state_labels s)
  = if utf8.ValidString s then Returns (state_labels s) else Panics label_value_panic.
Proof.
  unfold With.
  replace (size (state_labels s)) with 1%nat by (by vm_compute).
  replace (map_to_list (state_labels s)) with [("state", s)] by (by vm_compute).
  cbn [length Nat.eqb negb forallb snd andb].
  destruct (utf8.ValidString s); [|done]. cbn [negb].
  rewrite bool_decide_eq_true_2; [done|].
  unfold state_labels. rewrite lookup_singleton_eq. by eexists.
Qed.

Lemma With_director s k :
  With ["state"; "director"] (director_labels s k)
  = if utf8.ValidString s && utf8.ValidString k
    then Returns (director_labels s k) else Panics label_value_panic.
Proof.
  unfold With.
  replace (size (director_labels s k)) with 2%nat by (by vm_compute).
  replace (map_to_list (director_labels s k)) with [("state", s); ("director", k)]
    by (by vm_compute).
  cbn [length Nat.eqb negb forallb snd].
  rewrite andb_true_r.
  destruct (utf8.ValidString s && utf8.ValidString k); [|done]. cbn [negb].
  rewrite !bool_decide_eq_true_2; [done|..].
  - rewrite director_labels_director. by eexists.
  - rewrite director_labels_state. by eexists.
Qed.

Lemma gauge_set_state s v g :
  utf8.ValidString s = true →
  gauge_set ["state"] (state_labels s) v g = Returns (set_gauge (state_labels s) v g).
Proof. intros H. unfold gauge_set. by rewrite With_state, H. Qed.

Lemma gauge_set_director s k v g :
  utf8.ValidString s = true →
  gauge_set ["state"; "director"] (director_labels s k) v g
  = if utf8.ValidString k then Returns (set_gauge (director_labels s k) v g)
    else Panics label_value_panic.
Proof.
  intros H. unfold gauge_set. rewrite With_director, H. cbn [andb].
  by destruct (utf8.ValidString k).
Qed.

(** The loop of lines 249-252 over the labels in the order of [l], the
    last one first. *)
Lemma publish_loop lh ls (l : list (string * Z)) g :
  foldr (uncurry (λ k (_ : Z) r,
           obind r (λ g,
             obind (gauge_set ["state"; "director"] (director_labels "healthy" k)
                      (get lh k) g)
               (λ g1, gauge_set ["state"; "director"] (director_labels "sick" k)
                        (get ls k) g1))))
        (Returns g) l
  = if forallb (λ kx, utf8.ValidString kx.1) l
    then Returns (foldr (uncurry (λ k (_ : Z) g,
                           set_gauge (director_labels "sick" k) (get ls k)
                             (set_gauge (director_labels "healthy" k) (get lh k) g)))
                        g l)
    else Panics label_value_panic.
Proof.
  induction l as [|[k x] l IH]; [done|].
  cbn [foldr uncurry forallb fst]. rewrite IH.
  destruct (forallb _ l); [|by rewrite andb_false_r].
  rewrite andb_true_r. cbn [obind].
  rewrite gauge_set_director by done.
  destruct (utf8.ValidString k) eqn:Hk; [|done]. cbn [obind].
  by rewrite gauge_set_director, Hk.
Qed.

(** A publication completes exactly when every label of the cycle is
    valid UTF-8; otherwise [With] panics.  Of the three errors of
    [GetMetricWith] only this one can arise: the labels given to [With]
    always have the names that the vector was declared with. *)
Lemma publish_outcome cfg a g :
  publish cfg a g
  = if valid_labels cfg a then Returns (gauges_written cfg a g)
    else Panics label_value_panic.
Proof.
  unfold publish, gauges_written, valid_labels, promlabels. cbv zeta.
  destruct (directorRegexp cfg) as [re|].
  - unfold write_directors. rewrite !map_fold_foldr. apply publish_loop.
  - rewrite gauge_set_state by done. cbn [obind]. by rewrite gauge_set_state.
Qed.

Lemma publish_returns cfg a g g' :
  publish cfg a g = Returns g' → g' = gauges_written cfg a g.
Proof. rewrite publish_outcome. destruct (valid_labels cfg a); congruence. Qed.

(** [range] over the labels in any other order [l] gives the same
    outcome. *)
Lemma gauges_written_order lh ls (m : gmap string Z) (l : list (string * Z)) g :
  l ≡ₚ map_to_list m →
  foldr (uncurry (λ k (_ : Z) r,
           obind r (λ g,
             obind (gauge_set ["state"; "director"] (director_labels "healthy" k)
                      (get lh k) g)
               (λ g1, gauge_set ["state"; "director"] (director_labels "sick" k)
                        (get ls k) g1))))
        (Returns g) l
  = map_fold (λ k (_ : Z) r,
           obind r (λ g,
             obind (gauge_set ["state"; "director"] (director_labels "healthy" k)
                      (get lh k) g)
               (λ g1, gauge_set ["state"; "director"] (director_labels "sick" k)
                        (get ls k) g1)))
        (Returns g) m.
Proof.
  intros Hl. rewrite map_fold_foldr, !publish_loop.
  assert (Hv : forallb (λ kx : string * Z, utf8.ValidString kx.1) l
               = forallb (λ kx : string * Z, utf8.ValidString kx.1) (map_to_list m)).
  { apply eq_true_iff_eq. rewrite !forallb_forall.
    split; intros H x Hx; apply H; apply list_elem_of_In;
      apply list_elem_of_In in Hx; [by rewrite Hl|by rewrite <- Hl]. }
  rewrite Hv. destruct (forallb _ (map_to_list m)); [|done]. f_equal.
  assert (Hnd : NoDup (l.*1)) by (rewrite Hl; apply NoDup_fst_map_to_list).
  clear Hv. revert Hnd. induction Hl as [|[k x] l1 l2 Hp IH|[k1 x1] [k2 x2] l0|l1 l2 l3 H1 IH1 H2 IH2];
    intros Hnd.
  - done.
  - cbn [foldr uncurry]. rewrite IH; [done|]. by apply NoDup_cons in Hnd as [_ ?].
  - cbn [foldr uncurry]. unfold set_gauge.
    apply NoDup_cons in Hnd as [Hne _]. cbn [fmap list_fmap fst] in Hne.
    assert (k1 ≠ k2) by (intros ->; apply Hne; left).
    apply map_eq. intros key.
    repeat (rewrite lookup_insert; case_decide); try done;
      repeat match goal with
             | H : director_labels _ _ = director_labels _ _ |- _ =>
                 apply director_labels_inj in H as [? ?]
             end; simplify_eq.
  - rewrite IH1 by done. apply IH2. by rewrite <- H1.
Qed.

Lemma gauges_written_grouped cfg re a g :
  directorRegexp cfg = Some re →
  gauges_written cfg a g
  = write_directors (labelhealthy a) (labelsick a) (labelall a)
      (if resetBackends cfg then ∅ else g).
Proof. intros Hre. unfold gauges_written. by rewrite Hre. Qed.

Lemma director_of_rule re name :
  match re name with
  | Some (_ :: cap :: _) => director_of re name = cap
  | _ => director_of re name = "unknown"
  end.
Proof.
  unfold director_of. destruct (re name) as [[|whole [|cap more]]|]; try done.
  unfold len. simpl length.
  destruct (1 <? Z.of_nat (S (S (length more)))) eqn:H; [done|].
  apply Z.ltb_ge in H. lia.
Qed.

(** With a director pattern, the label of a classified line is the
    text of the first capture group when the pattern matches the backend
    name and has a group, and "unknown" otherwise; and after a
    publication that completes the gauges of that label are both set,
    to the number of healthy and of sick lines of the label, zero when
    there is none. *)
Lemma director_label_published cfg re resp a g g' t name :
  directorRegexp cfg = Some re →
  aggregate cfg resp = Returns a →
  publish cfg a g = Returns g' →
  t ∈ data_lines resp →
  Fields t !! 0%nat = Some name →
  let lbl := director_of re name in
  match re name with
  | Some (_ :: cap :: _) => lbl = cap
  | _ => lbl = "unknown"
  end ∧
  g' !! director_labels "healthy" lbl
  = Some (count_if (λ u, bool_decide (line_label re u = lbl) && line_healthy u)
            (data_lines resp)) ∧
  g' !! director_labels "sick" lbl
  = Some (count_if (λ u, bool_decide (line_label re u = lbl) && negb (line_healthy u))
            (data_lines resp)).
Proof.
  intros Hre Hrun Hpub Ht Hname lbl. split; [apply director_of_rule|].
  apply publish_returns in Hpub as ->.
  unfold aggregate in Hrun.
  assert (Hall : is_Some (labelall a !! lbl)).
  { apply (scan_lines_labelall cfg re _ _ _ lbl Hre Hrun). right. exists t.
    unfold data_lines in Ht. apply list_elem_of_In, filter_In in Ht as [Ht Hhd].
    apply negb_true_iff in Hhd. split; [by apply list_elem_of_In|]. split; [done|].
    unfold line_label. by rewrite Hname. }
  rewrite (gauges_written_grouped cfg re) by done.
  destruct (write_directors_lookup (labelhealthy a) (labelsick a) (labelall a)
              (if resetBackends cfg then ∅ else g)) as [Hw _].
  destruct (Hw lbl Hall) as [-> ->].
  destruct (scan_lines_grouped cfg re _ _ _ lbl Hre Hrun) as [-> ->].
  change (get (labelhealthy tally0) lbl) with 0.
  change (get (labelsick tally0) lbl) with 0.
  unfold data_lines.
  rewrite <- !(count_if_filter (λ t, negb (is_header t))).
  split; f_equal; rewrite Z.add_0_l; apply count_if_ext; intros u;
    by rewrite andb_assoc.
Qed.

(** C6 (the code departs from the specification).  A label that is not
    valid UTF-8 is recorded like any other, but [With] panics on it at
    line 250: the gauges of the cycle are not published, for this label
    or for any label that [range] has not visited yet, and the panic
    ends the process.  Here the README's pattern captures the byte 0xff
    of the backend name [web_] + 0xff. *)
Theorem invalid_label_panics :
  (∃ a, aggregate grouped_cfg invalid_label_listing = Returns a ∧
        labelall a !! invalid_label = Some 1 ∧
        publish grouped_cfg a ∅ = Panics label_value_panic) ∧
  List.filter (λ e, match e with Command _ _ _ => false | _ => true end)
    (main_loop 5 grouped_cfg [Some invalid_label_conn; None])
  = [DialTCP true; Response 107; Sent "backend.list" [] true; Response 200;
     Crashed label_value_panic].
Proof.
  split.
  - eexists. split; [vm_compute; reflexivity|]. split; [vm_compute; reflexivity|].
    rewrite publish_outcome.
    match goal with |- context [valid_labels ?c ?a] =>
      replace (valid_labels c a) with false by (vm_compute; reflexivity) end.
    reflexivity.
  - vm_compute. reflexivity.
Qed.

(** A label whose backends are all healthy still gets its sick gauge,
    at zero. *)
Example zero_gauge_published :
  ∃ a, aggregate grouped_cfg (listing ["web1_fe healthy Healthy"]) = Returns a ∧
       publish grouped_cfg a ∅ = Returns (gauges_written grouped_cfg a ∅) ∧
       gauges_written grouped_cfg a ∅ !! director_labels "healthy" "fe" = Some 1 ∧
       gauges_written grouped_cfg a ∅ !! director_labels "sick" "fe" = Some 0.
Proof.
  eexists. split; [vm_compute; reflexivity|]. split.
  - rewrite publish_outcome.
    match goal with |- context [valid_labels ?c ?a] =>
      replace (valid_labels c a) with true by (vm_compute; reflexivity) end.
    reflexivity.
  - split; vm_compute; reflexivity.
Qed.

Lemma snapshot_keys_grouped cfg re a k s :
  directorRegexp cfg = Some re →
  is_Some (labelall a !! k) →
  s = "healthy" ∨ s = "sick" →
  director_labels s k ∈ snapshot_keys cfg a.
Proof.
  intros Hre [x Hx] Hs. unfold snapshot_keys. rewrite Hre.
  apply list_elem_of_In, in_flat_map. exists k. split.
  - apply list_elem_of_In, list_elem_of_fmap. exists (k, x).
    split; [done|]. by apply elem_of_map_to_list.
  - simpl. destruct Hs as [-> | ->]; auto.
Qed.

Lemma snapshot_keys_grouped_inv cfg re a key :
  directorRegexp cfg = Some re →
  key ∈ snapshot_keys cfg a →
  ∃ k s, is_Some (labelall a !! k) ∧ key = director_labels s k.
Proof.
  intros Hre Hin. unfold snapshot_keys in Hin. rewrite Hre in Hin.
  apply list_elem_of_In, in_flat_map in Hin as (k & Hk & Hin).
  apply list_elem_of_In, list_elem_of_fmap in Hk as ([k' x] & -> & Hk).
  apply elem_of_map_to_list in Hk. simpl in Hin.
  destruct Hin as [<-|[<-|[]]]; eexists _, _; (split; [by eexists|done]).
Qed.

(** C8.  With reset-on-each-scan the gauge set is emptied before the
    snapshot is written: what was published before has no influence,
    and a label set that the cycle does not write is absent after a
    publication that completes.  Without it, a label set that the
    cycle does not write keeps the value it had. *)
Theorem publish_reset cfg a g g' key :
  publish cfg a g = Returns g' →
  key ∉ snapshot_keys cfg a →
  (resetBackends cfg = true →
     publish cfg a g = publish cfg a ∅ ∧ g' !! key = None) ∧
  (resetBackends cfg = false → g' !! key = g !! key).
Proof.
  intros Hpub Hkey.
  assert (Hframe : ∀ g0 : GaugeVec,
    match directorRegexp cfg with
    | Some _ => write_directors (labelhealthy a) (labelsick a) (labelall a) g0
    | None => set_gauge (state_labels "sick") (sick a)
                (set_gauge (state_labels "healthy") (healthy a) g0)
    end !! key = g0 !! key).
  { intros g0. destruct (directorRegexp cfg) as [re|] eqn:Hre.
    - apply write_directors_lookup. intros k Hk.
      split; intros ->; apply Hkey;
        apply (snapshot_keys_grouped cfg re); auto.
    - unfold snapshot_keys in Hkey. rewrite Hre in Hkey. unfold set_gauge.
      rewrite !lookup_insert_ne; [done|..]; intros <-; apply Hkey;
        apply list_elem_of_In; simpl; auto. }
  apply publish_returns in Hpub as ->.
  rewrite !publish_outcome. unfold gauges_written.
  split; intros Hreset; rewrite Hreset.
  - split; [done|]. rewrite <- (lookup_empty (M:=gmap (gmap string string)) (A:=Z) key).
    apply (Hframe ∅).
  - apply (Hframe g).
Qed.

Lemma publish_reset_witness :
  publish grouped_cfg (mktally 0 0 {[ "fe" := 1 ]} {[ "fe" := 1 ]} {[ "fe" := 1 ]})
    stale_gauges
  = Returns (gauges_written grouped_cfg
               (mktally 0 0 {[ "fe" := 1 ]} {[ "fe" := 1 ]} {[ "fe" := 1 ]}) stale_gauges) ∧
  (director_labels "healthy" "old"
    ∉ snapshot_keys grouped_cfg (mktally 0 0 {[ "fe" := 1 ]} {[ "fe" := 1 ]} {[ "fe" := 1 ]})) ∧
  gauges_written grouped_cfg (mktally 0 0 {[ "fe" := 1 ]} {[ "fe" := 1 ]} {[ "fe" := 1 ]})
    stale_gauges !! director_labels "healthy" "old"
  = stale_gauges !! director_labels "healthy" "old".
Proof.
  assert (Hp : publish grouped_cfg
                 (mktally 0 0 {[ "fe" := 1 ]} {[ "fe" := 1 ]} {[ "fe" := 1 ]}) stale_gauges
               = Returns (gauges_written grouped_cfg
                            (mktally 0 0 {[ "fe" := 1 ]} {[ "fe" := 1 ]} {[ "fe" := 1 ]})
                            stale_gauges)).
  { rewrite publish_outcome.
    match goal with |- context [valid_labels ?c ?a] =>
      replace (valid_labels c a) with true by (vm_compute; reflexivity) end.
    reflexivity. }
  assert (H : director_labels "healthy" "old"
    ∉ snapshot_keys grouped_cfg (mktally 0 0 {[ "fe" := 1 ]} {[ "fe" := 1 ]} {[ "fe" := 1 ]})).
  { intros Hin.
    apply (snapshot_keys_grouped_inv grouped_cfg director_suffix) in Hin
      as (k & s & Hk & Heq); [|reflexivity].
    apply director_labels_inj in Heq as [_ <-]. simpl in Hk.
    rewrite lookup_singleton_ne in Hk by done. by destruct Hk. }
  split; [exact Hp|]. split; [exact H|].
  exact (proj2 (publish_reset grouped_cfg _ stale_gauges _ _ Hp H) eq_refl).
Defined.

Example stale_gauge_cleared :
  ∃ a, aggregate reset_cfg sample_listing = Returns a ∧
       publish reset_cfg a stale_gauges = Returns (gauges_written reset_cfg a stale_gauges) ∧
       publish grouped_cfg a stale_gauges
       = Returns (gauges_written grouped_cfg a stale_gauges) ∧
       gauges_written reset_cfg a stale_gauges !! director_labels "healthy" "old" = None ∧
       gauges_written grouped_cfg a stale_gauges !! director_labels "healthy" "old" = Some 3.
Proof.
  eexists. split; [vm_compute; reflexivity|].
  split; [|split].
  1,2: rewrite publish_outcome;
    match goal with |- context [valid_labels ?c ?a] =>
      replace (valid_labels c a) with true by (vm_compute; reflexivity) end;
    reflexivity.
  split; vm_compute; reflexivity.
Qed.

(** * Properties of the handshake *)

Lemma str_bytes s : str (bytes s) = s.
Proof. apply string_of_list_ascii_of_string. Qed.

Lemma bytes_str b : bytes (str b) = b.
Proof. apply list_ascii_of_string_of_list_ascii. Qed.

Lemma bytes_app s1 s2 : bytes (s1 +:+ s2) = bytes s1 ++ bytes s2.
Proof. induction s1 as [|c s1 IH]; simpl; [done|]. by rewrite IH. Qed.

Lemma Split_go_head s sep cur :
  ∃ more, Split_go s sep cur
          = str (cur ++ (fix go l := match l with
                                     | [] => []
                                     | b :: l' => if Ascii.eqb b sep then [] else b :: go l'
                                     end) s) :: more.
Proof.
  revert cur. induction s as [|b s IH]; intros cur; simpl.
  - exists []. by rewrite app_nil_r.
  - destruct (Ascii.eqb b sep).
    + eexists. by rewrite app_nil_r.
    + destruct (IH (cur ++ [b])) as [more ->]. exists more.
      by rewrite <- app_assoc.
Qed.

(** [strings.Split(s, "\n")[0]] is the first line, and is always there. *)
Lemma Split_first_line s : index (Split s nl) 0 = Returns (first_line s).
Proof.
  unfold Split, first_line. destruct (Split_go_head (bytes s) nl []) as [more ->].
  reflexivity.
Qed.

Lemma auth_response_hex cfg resp :
  auth_response cfg resp = Returns (auth_hex (secret cfg) (first_line resp)).
Proof. unfold auth_response. by rewrite Split_first_line. Qed.

Lemma conn_Write_written p c :
  written (snd (conn_Write p c))
  = written c ++ [(p, bool_decide (fst (conn_Write p c) = None))].
Proof. unfold conn_Write. by destruct (wscript c) as [|[] ws]. Qed.



(** The digests of "abc" and of the empty message, as FIPS 180-4 gives
    them. *)
Example sha256_vectors :
  hex.EncodeToString (sha256.Sum256 (bytes "abc"))
  = "ba7816bf8f01cfea414140de5dae2223b00361a396177a9cb410ff61f20015ad" ∧
  hex.EncodeToString (sha256.Sum256 [])
  = "e3b0c44298fc1c149afbf4c8996fb92427ae41e4649b934ca495991b7852b855".
Proof. split; vm_compute; reflexivity. Qed.

(** The fixed vector: challenge "abc123" and secret "s3cr3t". *)
Example auth_vector :
  auth_hex (bytes "s3cr3t") "abc123"
  = "cf6abf12475d710d82f41665219bc962f42dc866d00e5e53991f28c954f529c0" ∧
  snd (fst (handshake plain_cfg greeting_conn)) = Returns Authenticated ∧
  written (snd (handshake plain_cfg greeting_conn))
  = [(bytes ("auth cf6abf12475d710d82f41665219bc962f42dc866d00e5e53991f28c954f529c0"
             +:+ newline), true)].
Proof. repeat split; vm_compute; reflexivity. Qed.

(** * Properties of the connection *)

(** A read of one byte takes the first byte of what is still to come,
    whatever the segments are. *)
Lemma take_segment_one segs b rest :
  concat segs = b :: rest →
  ∃ segs', take_segment 1 segs = Some ([b], segs') ∧ concat segs' = rest.
Proof.
  induction segs as [|seg segs IH]; [done|]. destruct seg as [|x seg]; simpl.
  - apply IH.
  - intros [= -> <-]. eexists. split; [done|]. rewrite drop_0.
    by destruct seg.
Qed.

Lemma conn_Read_one c b rest :
  concat (incoming c) = b :: rest →
  ∃ c', conn_Read 1 c = (inl [b], c') ∧ concat (incoming c') = rest ∧
        ending c' = ending c ∧ wscript c' = wscript c ∧ written c' = written c.
Proof.
  intros H. destruct (take_segment_one _ _ _ H) as (segs' & Ht & Hc).
  unfold conn_Read. rewrite Ht. by eexists.
Qed.

Lemma take_segment_none n segs : concat segs = [] → take_segment n segs = None.
Proof.
  induction segs as [|seg segs IH]; [done|]. destruct seg as [|x seg]; [|done].
  apply IH.
Qed.

Lemma conn_Read_end c :
  concat (incoming c) = [] →
  conn_Read 1 c = (inr (end_error (ending c)), set_incoming [] c).
Proof. intros H. unfold conn_Read. by rewrite (take_segment_none _ _ H). Qed.

(** The scanner's view of the connection: its [readByte] on the bytes
    still to come is a read of one byte on the connection. *)
Lemma readByte_conn c pk cnt lim b :
  fmt.readByte (fmt.mkss (concat (incoming c)) (ending c) [] pk cnt lim false b)
  = match conn_Read 1 c with
    | (inl d, c') =>
        (inl (default zero (head d)),
         fmt.mkss (concat (incoming c')) (ending c') [] pk cnt lim false b)
    | (inr e, _) =>
        (inr e, fmt.mkss (concat (incoming c)) (ending c) [] pk cnt lim false b)
    end.
Proof.
  unfold fmt.readByte; cbn [fmt.pendBuf fmt.rd fmt.rd_end fmt.set_rd].
  destruct (concat (incoming c)) as [|x rest] eqn:H.
  - by rewrite (conn_Read_end c H).
  - destruct (conn_Read_one c x rest H) as (c' & -> & Hc & He & _).
    cbn [head default]. by rewrite Hc, He.
Qed.

Lemma read_bytes_concat k : ∀ c,
  concat (incoming (read_bytes k c)) = drop k (concat (incoming c)).
Proof.
  induction k as [|k IH]; intros c; cbn [read_bytes]; [by rewrite drop_0|].
  rewrite IH. destruct (concat (incoming c)) as [|x rest] eqn:H.
  - rewrite (conn_Read_end c H). cbn [snd set_incoming incoming concat].
    by rewrite !drop_nil.
  - destruct (conn_Read_one c x rest H) as (c' & -> & Hc & _). cbn [snd].
    by rewrite Hc.
Qed.

Lemma read_bytes_fields k : ∀ c,
  ending (read_bytes k c) = ending c ∧ wscript (read_bytes k c) = wscript c ∧
  written (read_bytes k c) = written c.
Proof.
  induction k as [|k IH]; intros c; cbn [read_bytes]; [done|].
  destruct (IH (snd (conn_Read 1 c))) as (-> & -> & ->).
  destruct (concat (incoming c)) as [|x rest] eqn:H.
  - by rewrite (conn_Read_end c H).
  - destruct (conn_Read_one c x rest H) as (c' & -> & _ & He & Hw & Hl).
    cbn [snd]. by rewrite He, Hw, Hl.
Qed.

(** * Properties of [ReadResponse] *)

(** What [ReadResponse] does after a header with a length that is not
    negative: the sentinel for a header that did not scan, for a failed
    read and for a read of another size than [length + 1]; otherwise the
    status and the bytes read without the last one. *)
Lemma ReadResponse_spec c h c1 :
  fmt.Fscanf c = (Returns h, c1) →
  (fmt.err h ≠ None ∨ fmt.headers h ≠ 2 → ReadResponse c = (Returns invalid, c1)) ∧
  (fmt.err h = None → fmt.headers h = 2 → 0 ≤ fmt.length_ h →
   match conn_Read (Z.to_nat (fmt.length_ h + 1)) c1 with
   | (inr _, c2) => ReadResponse c = (Returns invalid, c2)
   | (inl d, c2) =>
       if len d =? fmt.length_ h + 1
       then ReadResponse c
            = (Returns (fmt.status h, Some (str (take (Z.to_nat (fmt.length_ h)) d))), c2)
       else ReadResponse c = (Returns invalid, c2)
   end).
Proof.
  intros Hscan. unfold ReadResponse. rewrite Hscan. split.
  - intros [Herr|Hn].
    + by destruct (fmt.err h).
    + destruct (fmt.err h); [done|].
      destruct (fmt.headers h =? 2) eqn:E; [|done]. apply Z.eqb_eq in E. done.
  - intros -> -> Hlen. simpl.
    destruct (fmt.length_ h + 1 <? 0) eqn:E; [apply Z.ltb_lt in E; lia|].
    destruct (conn_Read _ c1) as [[d|e] c2]; [|done].
    destruct (len d =? fmt.length_ h + 1) eqn:El; simpl; [|done].
    apply Z.eqb_eq in El.
    assert (Hn : (Z.to_nat (fmt.length_ h + 1) - length d = 0)%nat)
      by (unfold len in El; lia).
    rewrite Hn. simpl. rewrite app_nil_r.
    destruct (len d - 1 <? 0) eqn:E2; [apply Z.ltb_lt in E2; lia|].
    by replace (len d - 1) with (fmt.length_ h) by lia.
Qed.

(** C10.  When the read returns exactly [length + 1] bytes, the body is
    all of them but the last, and the last byte is not looked at: the
    result is the same for every terminator [t]. *)
Theorem ReadResponse_strips_terminator c h c1 body t c2 :
  fmt.Fscanf c = (Returns h, c1) →
  fmt.err h = None →
  fmt.headers h = 2 →
  conn_Read (Z.to_nat (fmt.length_ h + 1)) c1 = (inl (body ++ [t]), c2) →
  len (body ++ [t]) = fmt.length_ h + 1 →
  ReadResponse c = (Returns (fmt.status h, Some (str body)), c2).
Proof.
  intros Hscan Herr Hn Hread Hlen.
  assert (Hl : len body = fmt.length_ h).
  { unfold len in *. rewrite length_app in Hlen. simpl in Hlen. lia. }
  destruct (ReadResponse_spec c h c1 Hscan) as [_ H].
  specialize (H Herr Hn). rewrite Hread in H.
  rewrite (proj2 (Z.eqb_eq _ _) Hlen) in H.
  rewrite H by (unfold len in Hl; lia).
  do 3 f_equal. rewrite <- Hl. unfold len. rewrite Nat2Z.id.
  by rewrite take_app_length.
Qed.

Lemma ReadResponse_strips_terminator_witness :
  ReadResponse odd_terminator_conn
  = (Returns (200, Some "hello"), mkConn [bytes "next"] EndEOF [] []).
Proof.
  apply (ReadResponse_strips_terminator odd_terminator_conn
           (fmt.mkscanned 2 None 200 5)
           (mkConn [bytes "helloX"; bytes "next"] EndEOF [] [])
           (bytes "hello") "X"%char);
    vm_compute; reflexivity.
Defined.

(** C4 (the code departs from the specification).  A header whose
    length field is negative scans without error, and then
    [make([]byte, length+1)] panics (for -1 it is the slice
    [buf[0:len(buf)-1]] that does): [ReadResponse] returns neither the
    sentinel nor a body.  For every other header [ReadResponse_spec]
    gives the behaviour that the specification states. *)
Theorem negative_length_panics :
  fst (ReadResponse (mkConn [bytes "200       -2"; [nl]; bytes "hello"] EndEOF [] []))
  = Panics "makeslice: len out of range" ∧
  fst (ReadResponse (mkConn [bytes "200       -1"; [nl]; bytes "hello"] EndEOF [] []))
  = Panics "slice bounds out of range [:-1]".
Proof. split; vm_compute; reflexivity. Qed.

(** The scenario of the short body: the header announces 10 bytes, 8
    bytes and the terminator arrive. *)
Example short_body_fails :
  fst (ReadResponse (mkConn [bytes "200       10"; [nl]; bytes "12345678" ++ [nl]] EndEOF [] []))
  = Returns invalid.
Proof. vm_compute. reflexivity. Qed.

(** * The header: printing and scanning *)

Module fmt_facts.
Import fmt scan.

Lemma bind_eq {A B} (m : scanner A) (k : A → scanner B) s a s1 :
  m s = Scanned a s1 → bind m k s = k a s1.
Proof. intros H. unfold bind. by rewrite H. Qed.

Lemma getRune_rd c r e pk cnt lim b :
  byte_val c < 128 → pk < 0 → cnt < lim →
  getRune (st (c :: r) e pk cnt lim b)
  = Scanned (byte_val c) (st r e (Z.lnot (byte_val c)) (cnt + 1) lim b).
Proof.
  intros Hc Hpk Hlim. unfold getRune, ReadRune, st; simpl.
  rewrite (proj2 (Z.leb_gt _ _) Hlim).
  unfold readRune_ReadRune; simpl. rewrite (proj2 (Z.leb_gt _ _) Hpk).
  unfold utf8.RuneSelf. by rewrite (proj2 (Z.ltb_lt _ _) Hc).
Qed.

Lemma getRune_peek r e pk cnt lim b :
  0 ≤ pk → cnt < lim →
  getRune (st r e pk cnt lim b) = Scanned pk (st r e (Z.lnot pk) (cnt + 1) lim b).
Proof.
  intros Hpk Hlim. unfold getRune, ReadRune, st; simpl.
  rewrite (proj2 (Z.leb_gt _ _) Hlim).
  unfold readRune_ReadRune; simpl. by rewrite (proj2 (Z.leb_le _ _) Hpk).
Qed.

Lemma getRune_limit r e pk cnt lim b :
  lim ≤ cnt → getRune (st r e pk cnt lim b) = Scanned eof (st r e pk cnt lim b).
Proof.
  intros Hlim. unfold getRune, ReadRune, st; simpl.
  by rewrite (proj2 (Z.leb_le _ _) Hlim).
Qed.

Lemma UnreadRune_st r e pk cnt lim b :
  pk < 0 →
  UnreadRune (st r e pk cnt lim b) = Scanned tt (st r e (Z.lnot pk) (cnt - 1) lim b).
Proof.
  intros Hpk. unfold UnreadRune, readRune_UnreadRune, st; simpl.
  by rewrite (proj2 (Z.leb_gt _ _) Hpk).
Qed.

Lemma lnot_neg z : 0 ≤ z → Z.lnot z < 0.
Proof. unfold Z.lnot. lia. Qed.

Lemma lnot_lnot z : Z.lnot (Z.lnot z) = z.
Proof. apply Z.lnot_involutive. Qed.

(** What the scanner asks of a decimal digit. *)
Lemma digit_facts c :
  is_digit c = true →
  0 ≤ byte_val c < 128 ∧
  indexRune decimalDigits (byte_val c) = true ∧
  indexRune sign (byte_val c) = false ∧
  isSpace (byte_val c) = false ∧
  (byte_val c =? eof) = false ∧
  (byte_val c =? 13) = false ∧
  (byte_val c =? 10) = false ∧
  byte_of_Z (byte_val c) = c.
Proof.
  destruct c as [[] [] [] [] [] [] [] []]; vm_compute; intros H;
    try discriminate H; repeat split; congruence.
Qed.

(** One pass of [SkipSpace] on a digit: it is looked at and pushed back. *)
Lemma SkipSpace_digit_rd c r e pk cnt lim b :
  is_digit c = true → pk < 0 → cnt < lim →
  SkipSpace (st (c :: r) e pk cnt lim b) = Scanned tt (st r e (byte_val c) cnt lim b).
Proof.
  intros Hc Hpk Hlim. destruct (digit_facts c Hc) as ([H0 H1] & _ & _ & Hs & He & Hcr & Hnl & _).
  unfold SkipSpace, for_. cbn [loop]. unfold SkipSpace_body at 1.
  rewrite (bind_eq _ _ _ _ _ (getRune_rd c r e pk cnt lim b H1 Hpk Hlim)).
  rewrite He, Hcr. unfold bind at 1, ret at 1. cbn beta iota.
  rewrite Hnl, Hs. cbn [negb].
  rewrite (bind_eq _ _ _ _ _ (UnreadRune_st _ _ _ _ _ _ (lnot_neg _ H0))).
  unfold break, ret. rewrite lnot_lnot. do 2 f_equal. lia.
Qed.

Lemma SkipSpace_digit_peek c r e cnt lim b :
  is_digit c = true → cnt < lim →
  SkipSpace (st r e (byte_val c) cnt lim b) = Scanned tt (st r e (byte_val c) cnt lim b).
Proof.
  intros Hc Hlim. destruct (digit_facts c Hc) as ([H0 H1] & _ & _ & Hs & He & Hcr & Hnl & _).
  unfold SkipSpace, for_. cbn [loop]. unfold SkipSpace_body at 1.
  rewrite (bind_eq _ _ _ _ _ (getRune_peek r e _ cnt lim b H0 Hlim)).
  rewrite He, Hcr. unfold bind at 1, ret at 1. cbn beta iota.
  rewrite Hnl, Hs. cbn [negb].
  rewrite (bind_eq _ _ _ _ _ (UnreadRune_st _ _ _ _ _ _ (lnot_neg _ H0))).
  unfold break, ret. rewrite lnot_lnot. do 2 f_equal. lia.
Qed.

Lemma notEOF_peek c r e cnt lim b :
  is_digit c = true → cnt < lim →
  notEOF (st r e (byte_val c) cnt lim b) = Scanned tt (st r e (byte_val c) cnt lim b).
Proof.
  intros Hc Hlim. destruct (digit_facts c Hc) as ([H0 H1] & _ & _ & Hs & He & Hcr & Hnl & _).
  unfold notEOF. rewrite (getRune_peek r e _ cnt lim b H0 Hlim), He.
  rewrite (UnreadRune_st _ _ _ _ _ _ (lnot_neg _ H0)), lnot_lnot.
  do 2 f_equal. lia.
Qed.

Lemma accept_sign_peek c r e cnt lim b :
  is_digit c = true → cnt < lim →
  accept sign (st r e (byte_val c) cnt lim b)
  = Scanned false (st r e (byte_val c) cnt lim b).
Proof.
  intros Hc Hlim. destruct (digit_facts c Hc) as ([H0 H1] & _ & Hsg & Hs & He & Hcr & Hnl & _).
  unfold accept, consume.
  rewrite (bind_eq _ _ _ _ _ (getRune_peek r e _ cnt lim b H0 Hlim)), He, Hsg.
  rewrite (bind_eq _ _ _ _ _ (UnreadRune_st _ _ _ _ _ _ (lnot_neg _ H0))), lnot_lnot.
  unfold ret. do 2 f_equal. lia.
Qed.

Lemma accept_digit_peek c r e cnt lim b :
  is_digit c = true → cnt < lim →
  accept decimalDigits (st r e (byte_val c) cnt lim b)
  = Scanned true (st r e (Z.lnot (byte_val c)) (cnt + 1) lim (b ++ [c])).
Proof.
  intros Hc Hlim. destruct (digit_facts c Hc) as ([H0 H1] & Hd & Hsg & Hs & He & Hcr & Hnl & Hb).
  unfold accept, consume.
  rewrite (bind_eq _ _ _ _ _ (getRune_peek r e _ cnt lim b H0 Hlim)), He, Hd.
  unfold bind, writeRune, ret, st; simpl. by rewrite Hb.
Qed.

Lemma accept_digit_rd c r e pk cnt lim b :
  is_digit c = true → pk < 0 → cnt < lim →
  accept decimalDigits (st (c :: r) e pk cnt lim b)
  = Scanned true (st r e (Z.lnot (byte_val c)) (cnt + 1) lim (b ++ [c])).
Proof.
  intros Hc Hpk Hlim.
  destruct (digit_facts c Hc) as ([H0 H1] & Hd & Hsg & Hs & He & Hcr & Hnl & Hb).
  unfold accept, consume.
  rewrite (bind_eq _ _ _ _ _ (getRune_rd c r e pk cnt lim b H1 Hpk Hlim)), He, Hd.
  unfold bind, writeRune, ret, st; simpl. by rewrite Hb.
Qed.

Lemma accept_limit ok r e pk cnt lim b :
  lim ≤ cnt →
  accept ok (st r e pk cnt lim b) = Scanned false (st r e pk cnt lim b).
Proof.
  intros Hlim. unfold accept, consume.
  by rewrite (bind_eq _ _ _ _ _ (getRune_limit r e pk cnt lim b Hlim)).
Qed.

(** A newline ends the digits: it is looked at and pushed back. *)
Lemma accept_digit_newline r e pk cnt lim b :
  pk < 0 → cnt < lim →
  accept decimalDigits (st (nl :: r) e pk cnt lim b)
  = Scanned false (st r e 10 cnt lim b).
Proof.
  intros Hpk Hlim. unfold accept, consume.
  rewrite (bind_eq _ _ _ _ _ (getRune_rd nl r e pk cnt lim b ltac:(done) Hpk Hlim)).
  change (byte_val nl) with 10. cbn beta iota.
  change (10 =? eof) with false. change (indexRune decimalDigits 10) with false.
  cbn iota.
  rewrite (bind_eq _ _ _ _ _ (UnreadRune_st r e (Z.lnot 10) (cnt + 1) lim b ltac:(done))).
  unfold ret. change (Z.lnot (Z.lnot 10)) with 10. do 2 f_equal. lia.
Qed.

(** [for s.accept(digits) {}] over a run of digits that the width
    ends. *)
Lemma accept_loop_width ds : ∀ fuel r e pk cnt lim b,
  Forall digit ds → pk < 0 → (length ds < fuel)%nat → cnt + len ds = lim →
  ∃ pk', pk' < 0 ∧
    loop fuel accept_body tt (st (ds ++ r) e pk cnt lim b)
    = Scanned tt (st r e pk' lim lim (b ++ ds)).
Proof.
  induction ds as [|c ds IH]; intros fuel r e pk cnt lim b Hds Hpk Hfuel Hlim.
  - destruct fuel as [|fuel]; [simpl in Hfuel; lia|].
    exists pk. split; [done|]. cbn [loop app]. unfold accept_body.
    rewrite (bind_eq _ _ _ _ _ (accept_limit _ r e pk cnt lim b ltac:(unfold len in Hlim; simpl in Hlim; lia))).
    unfold break, ret. rewrite app_nil_r. do 2 f_equal.
    unfold len in Hlim; simpl in Hlim; lia.
  - destruct fuel as [|fuel]; [simpl in Hfuel; lia|].
    apply Forall_cons in Hds as [Hc Hds].
    assert (Hlt : cnt < lim) by (unfold len in Hlim; simpl length in Hlim; lia).
    destruct (digit_facts c Hc) as ([H0 H1] & _).
    destruct (IH fuel r e (Z.lnot (byte_val c)) (cnt + 1) lim (b ++ [c]) Hds
                (lnot_neg _ H0) ltac:(simpl in Hfuel; lia)
                ltac:(unfold len in *; simpl length in Hlim; lia)) as (pk' & Hpk' & IH').
    exists pk'. split; [done|]. cbn [loop app]. unfold accept_body at 1.
    rewrite (bind_eq _ _ _ _ _ (accept_digit_rd c _ e pk cnt lim b Hc Hpk Hlt)).
    unfold continue, ret. rewrite IH'. by rewrite <- app_assoc.
Qed.

(** The same over a run of digits that a newline ends. *)
Lemma accept_loop_newline ds : ∀ fuel r e pk cnt lim b,
  Forall digit ds → pk < 0 → (length ds < fuel)%nat → cnt + len ds < lim →
  loop fuel accept_body tt (st (ds ++ nl :: r) e pk cnt lim b)
  = Scanned tt (st r e 10 (cnt + len ds) lim (b ++ ds)).
Proof.
  induction ds as [|c ds IH]; intros fuel r e pk cnt lim b Hds Hpk Hfuel Hlim.
  - destruct fuel as [|fuel]; [simpl in Hfuel; lia|].
    cbn [loop app]. unfold accept_body.
    rewrite (bind_eq _ _ _ _ _ (accept_digit_newline r e pk cnt lim b Hpk
               ltac:(unfold len in Hlim; simpl in Hlim; lia))).
    unfold break, ret. rewrite app_nil_r. do 2 f_equal. unfold len; simpl; lia.
  - destruct fuel as [|fuel]; [simpl in Hfuel; lia|].
    apply Forall_cons in Hds as [Hc Hds].
    assert (Hlt : cnt < lim) by (unfold len in Hlim; simpl length in Hlim; lia).
    destruct (digit_facts c Hc) as ([H0 H1] & _).
    cbn [loop app]. unfold accept_body at 1.
    rewrite (bind_eq _ _ _ _ _ (accept_digit_rd c _ e pk cnt lim b Hc Hpk Hlt)).
    unfold continue, ret.
    rewrite (IH fuel r e (Z.lnot (byte_val c)) (cnt + 1) lim (b ++ [c]) Hds
               (lnot_neg _ H0) ltac:(simpl in Hfuel; lia)
               ltac:(unfold len in *; simpl length in Hlim; lia)).
    rewrite <- app_assoc. do 2 f_equal. unfold len; simpl length; lia.
Qed.

(** The loop of [advance] over blanks, up to a digit. *)
Lemma blanks_loop n : ∀ fuel c r e pk cnt lim b,
  digit c → pk < 0 → (S n < fuel)%nat → cnt + Z.of_nat n < lim →
  loop fuel blanks_body 32 (st (replicate n sp ++ c :: r) e pk cnt lim b)
  = Scanned (byte_val c)
      (st r e (Z.lnot (byte_val c)) (cnt + Z.of_nat n + 1) lim b).
Proof.
  induction n as [|n IH]; intros fuel c r e pk cnt lim b Hc Hpk Hfuel Hlim.
  - destruct fuel as [|[|fuel]]; [lia..|].
    destruct (digit_facts c Hc) as ([H0 H1] & _ & _ & Hs & _).
    cbn [loop replicate app]. unfold blanks_body at 1.
    change (isSpace 32 && negb (32 =? 10)) with true. cbn iota.
    rewrite (bind_eq _ _ _ _ _ (getRune_rd c r e pk cnt lim b H1 Hpk ltac:(lia))).
    unfold ret at 1. unfold blanks_body at 1. rewrite Hs. cbn [andb].
    unfold ret. do 2 f_equal. lia.
  - destruct fuel as [|fuel]; [lia|].
    cbn [loop replicate app]. unfold blanks_body at 1.
    change (isSpace 32 && negb (32 =? 10)) with true. cbn iota.
    rewrite (bind_eq _ _ _ _ _ (getRune_rd sp _ e pk cnt lim b ltac:(done) Hpk ltac:(lia))).
    unfold ret at 1. change (byte_val sp) with 32.
    rewrite (IH fuel c r e (Z.lnot 32) (cnt + 1) lim b Hc ltac:(done) ltac:(lia) ltac:(lia)).
    do 2 f_equal. lia.
Qed.

(** *** Tokens and their values *)

Lemma digits_value_snoc ds c :
  digits_value (ds ++ [c]) = 10 * digits_value ds + (byte_val c - 48).
Proof. unfold digits_value. by rewrite fold_left_app. Qed.

Lemma digit_range c : digit c → 0 ≤ byte_val c - 48 ≤ 9.
Proof.
  unfold digit, is_digit. intros H. apply andb_prop in H as [H1 H2].
  apply Z.leb_le in H1, H2. lia.
Qed.

Lemma digits_value_bound ds : Forall digit ds → 0 ≤ digits_value ds < 10 ^ len ds.
Proof.
  induction ds as [|c ds IH] using rev_ind; intros Hds.
  - unfold len; simpl. unfold digits_value; simpl. lia.
  - apply Forall_app in Hds as [Hds Hc]. apply Forall_inv in Hc.
    specialize (IH Hds). apply digit_range in Hc.
    rewrite digits_value_snoc. unfold len in *. rewrite length_app. simpl length.
    replace (Z.of_nat (length ds + 1)) with (Z.of_nat (length ds) + 1) by lia.
    rewrite Z.pow_add_r by lia. lia.
Qed.

Lemma ParseInt_digits c ds :
  digit c → Forall digit ds → len ds < 18 →
  ParseInt (c :: ds) = Some (digits_value (c :: ds)).
Proof.
  intros Hc Hds Hlen.
  assert (Hall : Forall digit (c :: ds)) by by constructor.
  pose proof (digits_value_bound _ Hall) as Hb.
  pose proof (digit_range c Hc) as Hr.
  unfold ParseInt.
  destruct (byte_val c =? 43) eqn:E1; [apply Z.eqb_eq in E1; lia|].
  destruct (byte_val c =? 45) eqn:E2; [apply Z.eqb_eq in E2; lia|].
  assert (Hf : forallb is_digit (c :: ds) = true).
  { apply forallb_forall. intros x Hx. apply list_elem_of_In in Hx.
    by apply (proj1 (Forall_forall _ _) Hall). }
  rewrite Hf.
  assert (Hp : 10 ^ len (c :: ds) ≤ 10 ^ 18).
  { apply Z.pow_le_mono_r; [lia|]. unfold len in *. simpl length. lia. }
  assert (H63 : (10 ^ 18 < 2 ^ 63)) by reflexivity.
  destruct (digits_value (c :: ds) <? 2 ^ 63) eqn:E3; [done|].
  apply Z.ltb_ge in E3. lia.
Qed.

(** *** The directives *)

Lemma pot_ge r e pk cnt lim b : (length r ≤ pot (st r e pk cnt lim b))%nat.
Proof. unfold pot, st; simpl. lia. Qed.

Lemma scanInt_width c ds tail e cnt lim :
  digit c → Forall digit ds → cnt + 1 + len ds = lim → len ds < 18 →
  ∃ pk', pk' < 0 ∧
    scanInt (st (ds ++ tail) e (byte_val c) cnt lim [])
    = Scanned (digits_value (c :: ds)) (st tail e pk' lim lim (c :: ds)).
Proof.
  intros Hc Hds Hlim Hlen.
  assert (Hlt : cnt < lim) by (unfold len in Hlim; lia).
  destruct (digit_facts c Hc) as ([H0 H1] & _).
  destruct (accept_loop_width ds (S (S (pot (st (ds ++ tail) e (Z.lnot (byte_val c)) (cnt + 1) lim [c]))))
              tail e (Z.lnot (byte_val c)) (cnt + 1) lim [c] Hds (lnot_neg _ H0))
    as (pk' & Hpk' & Hloop).
  { pose proof (pot_ge (ds ++ tail) e (Z.lnot (byte_val c)) (cnt + 1) lim [c]) as Hp.
    rewrite length_app in Hp. lia. }
  { lia. }
  exists pk'. split; [done|]. unfold scanInt.
  rewrite (bind_eq _ _ _ _ _ (SkipSpace_digit_peek c _ e cnt lim [] Hc Hlt)).
  rewrite (bind_eq _ _ _ _ _ (notEOF_peek c _ e cnt lim [] Hc Hlt)).
  rewrite (bind_eq _ _ _ _ _ (accept_sign_peek c _ e cnt lim [] Hc Hlt)).
  unfold scanNumber.
  erewrite (bind_eq (bind notEOF _)); [by rewrite (ParseInt_digits c ds Hc Hds Hlen)|].
  rewrite (bind_eq _ _ _ _ _ (notEOF_peek c _ e cnt lim [] Hc Hlt)).
  rewrite (bind_eq _ _ _ _ _ (accept_digit_peek c _ e cnt lim [] Hc Hlt)).
  cbn [negb app]. unfold accept_all, for_.
  change (λ _ : (), bind (accept decimalDigits) _) with accept_body.
  unfold bind at 1. by rewrite Hloop.
Qed.

Lemma scanInt_newline c ds r e cnt lim :
  digit c → Forall digit ds → cnt + 1 + len ds < lim → len ds < 18 →
  scanInt (st (ds ++ nl :: r) e (byte_val c) cnt lim [])
  = Scanned (digits_value (c :: ds)) (st r e 10 (cnt + 1 + len ds) lim (c :: ds)).
Proof.
  intros Hc Hds Hlim Hlen.
  assert (Hlt : cnt < lim) by (unfold len in Hlim; lia).
  destruct (digit_facts c Hc) as ([H0 H1] & _).
  assert (Hloop := accept_loop_newline ds
                (S (S (pot (st (ds ++ nl :: r) e (Z.lnot (byte_val c)) (cnt + 1) lim [c]))))
                r e (Z.lnot (byte_val c)) (cnt + 1) lim [c] Hds (lnot_neg _ H0)).
  assert (Hp := pot_ge (ds ++ nl :: r) e (Z.lnot (byte_val c)) (cnt + 1) lim [c]).
  rewrite length_app in Hp.
  specialize (Hloop ltac:(lia) ltac:(lia)).
  unfold scanInt.
  rewrite (bind_eq _ _ _ _ _ (SkipSpace_digit_peek c _ e cnt lim [] Hc Hlt)).
  rewrite (bind_eq _ _ _ _ _ (notEOF_peek c _ e cnt lim [] Hc Hlt)).
  rewrite (bind_eq _ _ _ _ _ (accept_sign_peek c _ e cnt lim [] Hc Hlt)).
  unfold scanNumber.
  erewrite (bind_eq (bind notEOF _)); [by rewrite (ParseInt_digits c ds Hc Hds Hlen)|].
  rewrite (bind_eq _ _ _ _ _ (notEOF_peek c _ e cnt lim [] Hc Hlt)).
  rewrite (bind_eq _ _ _ _ _ (accept_digit_peek c _ e cnt lim [] Hc Hlt)).
  cbn [negb app]. unfold accept_all, for_.
  change (λ _ : (), bind (accept decimalDigits) _) with accept_body.
  unfold bind at 1. by rewrite Hloop.
Qed.

Lemma verb_d_start wid r e pk cnt b0 (k : Z → scanner Z) :
  cnt + wid ≤ hugeWid →
  bind (λ s, Scanned tt (set_argLimit (Z.min hugeWid (count s + wid)) s))
       (λ _, bind (λ s, Scanned tt (set_buf [] s)) (λ _, bind scanInt k))
       (st r e pk cnt hugeWid b0)
  = bind scanInt k (st r e pk cnt (cnt + wid) []).
Proof.
  intros Hw. unfold bind at 1 2. cbn beta iota. unfold st; cbn [count].
  by rewrite Z.min_r by done.
Qed.

Lemma verb_d_width c ds tail e cnt b0 wid :
  digit c → Forall digit ds → 1 + len ds = wid → cnt + wid ≤ hugeWid →
  len ds < 18 →
  ∃ pk', pk' < 0 ∧
    verb_d wid (st (ds ++ tail) e (byte_val c) cnt hugeWid b0)
    = Scanned (digits_value (c :: ds)) (st tail e pk' (cnt + wid) hugeWid (c :: ds)).
Proof.
  intros Hc Hds Hwid Hw Hlen.
  assert (Hlt : cnt < hugeWid) by (unfold len in Hwid; lia).
  destruct (scanInt_width c ds tail e cnt (cnt + wid) Hc Hds ltac:(lia) Hlen)
    as (pk' & Hpk' & Hscan).
  exists pk'. split; [done|]. unfold verb_d.
  rewrite (bind_eq _ _ _ _ _ (SkipSpace_digit_peek c _ e cnt hugeWid b0 Hc Hlt)).
  rewrite verb_d_start by done.
  by rewrite (bind_eq _ _ _ _ _ Hscan).
Qed.

Lemma verb_d_newline c ds r e cnt b0 wid :
  digit c → Forall digit ds → 1 + len ds < wid → cnt + wid ≤ hugeWid →
  len ds < 18 →
  verb_d wid (st (ds ++ nl :: r) e (byte_val c) cnt hugeWid b0)
  = Scanned (digits_value (c :: ds)) (st r e 10 (cnt + 1 + len ds) hugeWid (c :: ds)).
Proof.
  intros Hc Hds Hwid Hw Hlen.
  assert (Hlt : cnt < hugeWid) by (unfold len in Hwid; lia).
  unfold verb_d.
  rewrite (bind_eq _ _ _ _ _ (SkipSpace_digit_peek c _ e cnt hugeWid b0 Hc Hlt)).
  rewrite verb_d_start by done.
  by rewrite (bind_eq _ _ _ _ _
                (scanInt_newline c ds r e cnt (cnt + wid) Hc Hds ltac:(lia) Hlen)).
Qed.

(** The first directive finds its digit in the reader, not pushed
    back: [SkipSpace] brings the two cases together. *)
Lemma verb_d_rd wid c r e pk cnt lim b :
  digit c → pk < 0 → cnt < lim →
  verb_d wid (st (c :: r) e pk cnt lim b) = verb_d wid (st r e (byte_val c) cnt lim b).
Proof.
  intros Hc Hpk Hlim. unfold verb_d.
  rewrite (bind_eq _ _ _ _ _ (SkipSpace_digit_rd c r e pk cnt lim b Hc Hpk Hlim)).
  by rewrite (bind_eq _ _ _ _ _ (SkipSpace_digit_peek c r e cnt lim b Hc Hlim)).
Qed.

Lemma advance_space_blanks n c r e pk cnt lim b :
  digit c → pk < 0 → cnt + 1 + Z.of_nat n < lim →
  advance_space (st (sp :: replicate n sp ++ c :: r) e pk cnt lim b)
  = Scanned tt (st r e (byte_val c) (cnt + 1 + Z.of_nat n) lim b).
Proof.
  intros Hc Hpk Hlim. destruct (digit_facts c Hc) as ([H0 H1] & _ & _ & _ & He & _).
  unfold advance_space.
  rewrite (bind_eq _ _ _ _ _ (getRune_rd sp _ e pk cnt lim b ltac:(done) Hpk ltac:(lia))).
  change (byte_val sp) with 32.
  change (negb (isSpace 32) && negb (32 =? eof)) with false.
  change (32 =? 10) with false. cbn iota.
  unfold skip_blanks, for_.
  change (λ c0 : Z, if isSpace c0 && negb (c0 =? 10) then _ else _) with blanks_body.
  unfold bind at 1.
  rewrite (blanks_loop n _ c r e (Z.lnot 32) (cnt + 1) lim b Hc ltac:(done)).
  - rewrite He. cbn [negb].
    rewrite (UnreadRune_st _ _ _ _ _ _ (lnot_neg _ H0)), lnot_lnot.
    do 2 f_equal. lia.
  - pose proof (pot_ge (replicate n sp ++ c :: r) e (Z.lnot 32) (cnt + 1) lim b) as Hp.
    rewrite length_app, length_replicate in Hp. simpl in Hp. lia.
  - lia.
Qed.

Lemma advance_newline_peek r e cnt lim b :
  cnt < lim →
  advance_newline (st r e 10 cnt lim b) = Scanned tt (st r e (Z.lnot 10) (cnt + 1) lim b).
Proof.
  intros Hlim. unfold advance_newline.
  rewrite (bind_eq _ _ _ _ _ (getRune_peek r e 10 cnt lim b ltac:(done) Hlim)).
  reflexivity.
Qed.

Lemma advance_newline_rd r e pk cnt lim b :
  pk < 0 → cnt < lim →
  advance_newline (st (nl :: r) e pk cnt lim b)
  = Scanned tt (st r e (Z.lnot 10) (cnt + 1) lim b).
Proof.
  intros Hpk Hlim. unfold advance_newline.
  rewrite (bind_eq _ _ _ _ _ (getRune_rd nl r e pk cnt lim b ltac:(done) Hpk Hlim)).
  reflexivity.
Qed.

(** *** Scanning a header of the printed shape *)

Lemma doScanf_shape c1 zs n c2 ds rest e :
  digit c1 → Forall digit zs → 1 + len zs = 3 →
  digit c2 → Forall digit ds → Z.of_nat n + 1 + len ds = 8 →
  ∃ s, doScanf (newScanState
                  (c1 :: zs ++ sp :: replicate n sp ++ c2 :: ds ++ nl :: rest) e)
       = (Returns (mkscanned 2 None (digits_value (c1 :: zs)) (digits_value (c2 :: ds))), s)
       ∧ rd s = rest.
Proof.
  intros Hc1 Hzs Hl1 Hc2 Hds Hl2.
  assert (Hhuge : hugeWid = 1073741824) by reflexivity.
  assert (Hn : 0 ≤ Z.of_nat n) by lia.
  assert (Hd : 0 ≤ len ds) by (unfold len; lia).
  assert (Hz : 0 ≤ len zs) by (unfold len; lia).
  change (newScanState ?d e) with (st d e (-1) 0 hugeWid []).
  unfold doScanf.
  rewrite (verb_d_rd 3 c1 _ e (-1) 0 hugeWid [] Hc1 ltac:(done) ltac:(done)).
  destruct (verb_d_width c1 zs (sp :: replicate n sp ++ c2 :: ds ++ nl :: rest)
              e 0 [] 3 Hc1 Hzs Hl1 ltac:(done) ltac:(lia)) as (pk1 & Hpk1 & ->).
  rewrite (advance_space_blanks n c2 (ds ++ nl :: rest) e pk1 (0 + 3) hugeWid
             (c1 :: zs) Hc2 Hpk1 ltac:(lia)).
  destruct (decide (1 + len ds = 8)) as [Hfull|Hshort].
  - destruct (verb_d_width c2 ds (nl :: rest) e (0 + 3 + 1 + Z.of_nat n) (c1 :: zs) 8
                Hc2 Hds Hfull ltac:(lia) ltac:(lia)) as (pk2 & Hpk2 & ->).
    rewrite (advance_newline_rd rest e pk2 (0 + 3 + 1 + Z.of_nat n + 8) hugeWid _
               Hpk2 ltac:(lia)).
    by eexists.
  - rewrite (verb_d_newline c2 ds rest e (0 + 3 + 1 + Z.of_nat n) (c1 :: zs) 8
               Hc2 Hds ltac:(lia) ltac:(lia) ltac:(lia)).
    rewrite (advance_newline_peek rest e (0 + 3 + 1 + Z.of_nat n + 1 + len ds) hugeWid _
               ltac:(lia)).
    by eexists.
Qed.

(** *** The printed header *)

Lemma digit_char d :
  0 ≤ d ≤ 9 → digit (byte_of_Z (48 + d)) ∧ byte_val (byte_of_Z (48 + d)) = 48 + d.
Proof.
  intros Hd.
  assert (d = 0 ∨ d = 1 ∨ d = 2 ∨ d = 3 ∨ d = 4 ∨ d = 5 ∨ d = 6 ∨ d = 7 ∨ d = 8 ∨ d = 9)
    as H by lia.
  repeat (destruct H as [->|H]; [split; reflexivity|]). subst. split; reflexivity.
Qed.

Lemma digits_fuel_spec fuel : ∀ u acc,
  0 ≤ u < 10 ^ Z.of_nat fuel → (1 ≤ fuel)%nat →
  ∃ c ds, digits_fuel fuel u acc = (c :: ds) ++ acc ∧
          Forall digit (c :: ds) ∧ digits_value (c :: ds) = u ∧
          (∀ k, 1 ≤ k → u < 10 ^ k → len (c :: ds) ≤ k).
Proof.
  induction fuel as [|fuel IH]; intros u acc Hu Hfuel; [lia|].
  cbn [digits_fuel]. destruct (u <? 10) eqn:E.
  - apply Z.ltb_lt in E. destruct (digit_char u ltac:(lia)) as [Hdig Hval].
    exists (byte_of_Z (48 + u)), []. split; [done|]. split; [by repeat constructor|].
    split.
    + unfold digits_value; simpl. rewrite Hval. lia.
    + intros k Hk _. unfold len; simpl. lia.
  - apply Z.ltb_ge in E.
    assert (Hm : 0 ≤ u mod 10 ≤ 9) by (pose proof (Z.mod_pos_bound u 10); lia).
    destruct (digit_char (u mod 10) Hm) as [Hdig Hval].
    assert (Hf : (1 ≤ fuel)%nat).
    { destruct fuel; [|lia]. simpl in Hu. lia. }
    assert (Hq : 0 ≤ u / 10 < 10 ^ Z.of_nat fuel).
    { split; [apply Z.div_pos; lia|]. apply Z.div_lt_upper_bound; [lia|].
      rewrite Nat2Z.inj_succ, Z.pow_succ_r in Hu by lia. lia. }
    destruct (IH (u / 10) (byte_of_Z (48 + u mod 10) :: acc) Hq Hf)
      as (c & ds & -> & Hall & Hv & Hlen).
    exists c, (ds ++ [byte_of_Z (48 + u mod 10)]).
    split; [simpl; by rewrite <- app_assoc|]. split; [|split].
    + change (c :: ds ++ [byte_of_Z (48 + u mod 10)])
        with ((c :: ds) ++ [byte_of_Z (48 + u mod 10)]).
      apply Forall_app. split; [done|by repeat constructor].
    + change (c :: ds ++ [byte_of_Z (48 + u mod 10)])
        with ((c :: ds) ++ [byte_of_Z (48 + u mod 10)]).
      rewrite digits_value_snoc, Hv, Hval. pose proof (Z.div_mod u 10). lia.
    + intros k Hk Huk.
      assert (Hk2 : 2 ≤ k).
      { destruct (decide (k = 1)) as [->|]; [|lia]. simpl in Huk. lia. }
      assert (Hq' : u / 10 < 10 ^ (k - 1)).
      { apply Z.div_lt_upper_bound; [lia|].
        rewrite <- Z.pow_succ_r by lia. by replace (Z.succ (k - 1)) with k by lia. }
      specialize (Hlen (k - 1) ltac:(lia) Hq').
      unfold len in *. simpl length in *. rewrite length_app. simpl length. lia.
Qed.

Lemma digits_spec u :
  0 ≤ u < 10 ^ 20 →
  ∃ c ds, digits u = c :: ds ∧ Forall digit (c :: ds) ∧ digits_value (c :: ds) = u ∧
          (∀ k, 1 ≤ k → u < 10 ^ k → len (c :: ds) ≤ k).
Proof.
  intros Hu. destruct (digits_fuel_spec 20 u [] Hu ltac:(lia)) as (c & ds & H & Hr).
  exists c, ds. split; [|done]. unfold digits. by rewrite H, app_nil_r.
Qed.

Lemma digits_value_zero ds : digits_value ("0"%char :: ds) = digits_value ds.
Proof. reflexivity. Qed.

Lemma digits_value_zeros m ds : digits_value (replicate m "0"%char ++ ds) = digits_value ds.
Proof. induction m as [|m IH]; [done|]. simpl. by rewrite digits_value_zero. Qed.

Lemma fmt_status_shape status :
  0 ≤ status ≤ 999 →
  ∃ c zs, fmt_d true 3 status = c :: zs ∧ digit c ∧ Forall digit zs ∧
          1 + len zs = 3 ∧ digits_value (c :: zs) = status.
Proof.
  intros Hs. destruct (digits_spec status ltac:(lia)) as (c0 & ds0 & Hd & Hall & Hv & Hlen).
  specialize (Hlen 3 ltac:(lia) ltac:(lia)).
  unfold fmt_d. rewrite Z.abs_eq by lia. rewrite Hd.
  destruct (status <? 0) eqn:E; [apply Z.ltb_lt in E; lia|]. cbn [app length].
  set (m := (3 - 0 - S (length ds0))%nat).
  assert (Hm : (m + S (length ds0) = 3)%nat).
  { unfold len in Hlen. simpl length in Hlen. lia. }
  assert (HallL : Forall digit (replicate m "0"%char ++ c0 :: ds0)).
  { apply Forall_app. split; [|done]. by apply Forall_replicate. }
  assert (HlenL : length (replicate m "0"%char ++ c0 :: ds0) = 3%nat).
  { rewrite length_app, length_replicate. simpl length. lia. }
  assert (HvL : digits_value (replicate m "0"%char ++ c0 :: ds0) = status)
    by by rewrite digits_value_zeros.
  destruct (replicate m "0"%char ++ c0 :: ds0) as [|c zs]; [done|].
  apply Forall_cons in HallL as [Hc Hzs].
  exists c, zs. repeat split; try done. unfold len. simpl in HlenL. lia.
Qed.

Lemma fmt_length_shape size :
  0 ≤ size ≤ 99999999 →
  ∃ n c ds, fmt_d false 8 size = replicate n sp ++ c :: ds ∧ digit c ∧
            Forall digit ds ∧ Z.of_nat n + 1 + len ds = 8 ∧
            digits_value (c :: ds) = size.
Proof.
  intros Hs. destruct (digits_spec size ltac:(lia)) as (c & ds & Hd & Hall & Hv & Hlen).
  specialize (Hlen 8 ltac:(lia) ltac:(lia)).
  unfold fmt_d. rewrite Z.abs_eq by lia. rewrite Hd.
  destruct (size <? 0) eqn:E; [apply Z.ltb_lt in E; lia|]. cbn [app].
  apply Forall_cons in Hall as [Hc Hds].
  exists (8 - List.length (c :: ds))%nat, c, ds. repeat split; try done.
  unfold len in *. simpl length in *. lia.
Qed.

End fmt_facts.

(** ** The loops of the scanner never run out of fuel *)
Module fmt_fuel.
Import fmt scan.

Lemma byte_val_nonneg b : 0 ≤ byte_val b.
Proof. unfold byte_val. lia. Qed.

Lemma at_nonneg p i : 0 ≤ utf8.at_ p i.
Proof. unfold utf8.at_. destruct (p !! i); [apply byte_val_nonneg|done]. Qed.

Lemma lor_nonneg a b : 0 ≤ a → 0 ≤ b → 0 ≤ Z.lor a b.
Proof. intros. by apply Z.lor_nonneg. Qed.

Lemma shiftl_land_nonneg a m n : 0 ≤ m → 0 ≤ Z.shiftl (Z.land a m) n.
Proof. intros. apply Z.shiftl_nonneg, Z.land_nonneg. auto. Qed.

Lemma land_nonneg a m : 0 ≤ m → 0 ≤ Z.land a m.
Proof. intros. apply Z.land_nonneg. auto. Qed.

(** A rune decoded from a non-empty buffer is not negative and takes
    at least one byte. *)
Lemma DecodeRune_bounds p :
  p ≠ [] → 0 ≤ fst (utf8.DecodeRune p) ∧ 1 ≤ snd (utf8.DecodeRune p).
Proof.
  intros Hp. unfold utf8.DecodeRune.
  destruct (len p <? 1) eqn:E.
  { apply Z.ltb_lt in E. destruct p; [done|]. unfold len in E. simpl in E. lia. }
  pose proof (at_nonneg p 0) as H0.
  repeat match goal with
         | |- context [let '(_, _) := ?x in _] => destruct x
         | |- context [if ?b then _ else _] => destruct b
         end; simpl; (split; [|lia]);
    try done; try (unfold utf8.RuneError; lia);
    repeat apply lor_nonneg; try apply shiftl_land_nonneg; try apply land_nonneg; lia.
Qed.

Lemma readByte_inl s b s1 :
  readByte s = (inl b, s1) → (S (pot s1) = pot s)%nat ∧ peekRune s1 = peekRune s.
Proof.
  unfold readByte, pot. destruct (pendBuf s) as [|x p] eqn:Hp.
  - destruct (rd s) as [|x r] eqn:Hr; [done|]. intros [= <- <-]. simpl.
    rewrite Hp. simpl. split; [lia|done].
  - intros [= <- <-]. simpl. split; [lia|done].
Qed.

Lemma readByte_inr s e s1 : readByte s = (inr e, s1) → s1 = s.
Proof.
  unfold readByte. destruct (pendBuf s); [|done]. destruct (rd s); [|done]. congruence.
Qed.

Lemma fill_inl more : ∀ b s b' s1,
  fill more b s = (inl b', s1) →
  (pot s1 + length b' = pot s + length b)%nat ∧ peekRune s1 = peekRune s ∧
  (length b ≤ length b')%nat.
Proof.
  induction more as [|more IH]; intros b s b' s1; simpl.
  - destruct (utf8.FullRune b); intros [= <- <-]; auto.
  - destruct (utf8.FullRune b); [intros [= <- <-]; auto|].
    destruct (readByte s) as [[x|e] s2] eqn:Hrb.
    + intros H. apply IH in H as (H1 & H2 & H3).
      apply readByte_inl in Hrb as [H4 H5]. rewrite length_app in *. simpl in *.
      split; [lia|]. split; [congruence|lia].
    + apply readByte_inr in Hrb as ->. destruct e; [|done..]. intros [= <- <-]. auto.
Qed.

Lemma readRune_ReadRune_inl s r s1 :
  readRune_ReadRune s = (inl r, s1) → (pot s1 < pot s)%nat.
Proof.
  unfold readRune_ReadRune. destruct (0 <=? peekRune s) eqn:Hpk.
  - intros [= <- <-]. unfold pot; simpl. rewrite Hpk.
    apply Z.leb_le in Hpk.
    rewrite (proj2 (Z.leb_gt 0 (Z.lnot (peekRune s)))) by (unfold Z.lnot; lia). lia.
  - destruct (readByte s) as [[b0|e] s2] eqn:Hrb; [|done].
    apply readByte_inl in Hrb as [H1 H2]. rewrite <- H2 in Hpk.
    destruct (byte_val b0 <? utf8.RuneSelf).
    + intros [= <- <-]. pose proof (byte_val_nonneg b0).
      unfold pot in *; simpl in *. rewrite Hpk in H1.
      rewrite (proj2 (Z.leb_gt 0 (Z.lnot (byte_val b0)))) by (unfold Z.lnot; lia). lia.
    + destruct (fill (utf8.UTFMax - 1) [b0] s2) as [[b|e] s3] eqn:Hfill; [|done].
      apply fill_inl in Hfill as (H3 & H4 & H5). simpl in H3, H5.
      assert (Hb : b ≠ []) by (destruct b; [simpl in H5; lia|done]).
      destruct (DecodeRune_bounds b Hb) as [Hr Hsz].
      destruct (utf8.DecodeRune b) as [rr size]. simpl in Hr, Hsz.
      intros [= <- <-]. rewrite <- H4 in Hpk.
      unfold pot in *; simpl in *. rewrite Hpk in *.
      rewrite (proj2 (Z.leb_gt 0 (Z.lnot rr))) by (unfold Z.lnot; lia).
      destruct (size <? len b); simpl; [|lia].
      rewrite length_app, length_drop. lia.
Qed.

Lemma atEOF_pot v s : pot (set_atEOF v s) = pot s.
Proof. done. Qed.

Lemma getRune_pot s r s1 :
  getRune s = Scanned r s1 → (pot s1 ≤ pot s)%nat ∧ ((pot s1 < pot s)%nat ∨ r = eof).
Proof.
  unfold getRune, ReadRune.
  destruct (atEOF s || (argLimit s <=? count s)).
  { intros [= <- <-]. auto. }
  destruct (readRune_ReadRune s) as [[r'|e] s2] eqn:Hrr.
  - apply readRune_ReadRune_inl in Hrr. intros [= <- <-].
    change (pot (set_count (count s2 + 1) s2)) with (pot s2). split; [lia|auto].
  - destruct e; [|done..]. intros [= <- <-]. split; [|auto].
    rewrite atEOF_pot. unfold readRune_ReadRune in Hrr.
    destruct (0 <=? peekRune s); [done|].
    destruct (readByte s) as [[b0|e] s3] eqn:Hrb.
    + apply readByte_inl in Hrb as [H1 _].
      destruct (byte_val b0 <? utf8.RuneSelf); [done|].
      destruct (fill (utf8.UTFMax - 1) [b0] s3) as [[b|e] s4] eqn:Hfill.
      * by destruct (utf8.DecodeRune b).
      * injection Hrr as _ <-. clear -Hfill H1.
        assert (∀ more b s e s', fill more b s = (inr e, s') → (pot s' ≤ pot s)%nat)
          as Hmono.
        { clear. induction more as [|more IH]; intros b s e s'; simpl.
          - by destruct (utf8.FullRune b).
          - destruct (utf8.FullRune b); [done|].
            destruct (readByte s) as [[x|e'] s2] eqn:Hrb.
            + intros H. apply IH in H. apply readByte_inl in Hrb as [H1 _]. lia.
            + apply readByte_inr in Hrb as ->. destruct e'; [done|..]; by intros [= _ <-]. }
        apply Hmono in Hfill. lia.
    + apply readByte_inr in Hrb as ->. by injection Hrr as _ <-.
Qed.

Lemma UnreadRune_pot s u s1 :
  UnreadRune s = Scanned u s1 → (pot s1 ≤ S (pot s))%nat.
Proof.
  unfold UnreadRune, readRune_UnreadRune. intros H. injection H as _ <-. unfold pot.
  destruct (0 <=? peekRune s) eqn:E;
    cbn [rd pendBuf peekRune set_count set_atEOF set_peekRune]; rewrite ?E; [lia|].
  destruct (0 <=? Z.lnot (peekRune s)); lia.
Qed.

Lemma answers_bind {A B} (m : scanner A) (k : A → scanner B) :
  answers m → (∀ a, answers (k a)) → answers (bind m k).
Proof.
  intros Hm Hk s. unfold bind. specialize (Hm s).
  destruct (m s) as [a s1| |]; [apply Hk|done..].
Qed.

Lemma answers_ret {A} (a : A) : answers (ret a).
Proof. done. Qed.

Lemma answers_fail {A} msg : answers (@fail A msg).
Proof. done. Qed.

Lemma answers_getRune : answers getRune.
Proof.
  intros s. unfold getRune. destruct (ReadRune s) as [[r|e] s1]; [done|].
  by destruct e.
Qed.

Lemma answers_UnreadRune : answers UnreadRune.
Proof. done. Qed.

Lemma answers_if {A} (b : bool) (m1 m2 : scanner A) :
  answers m1 → answers m2 → answers (if b then m1 else m2).
Proof. by destruct b. Qed.

Lemma loop_answers {A B} (body : A → scanner (A + B)) (mu : A → ss → nat) :
  (∀ a, answers (body a)) →
  (∀ a s a' s', body a s = Scanned (inl a') s' → (mu a' s' < mu a s)%nat) →
  ∀ fuel a s, (mu a s < fuel)%nat → loop fuel body a s ≠ ScanFuel.
Proof.
  intros Hans Hdec. induction fuel as [|fuel IH]; intros a s Hmu; [lia|].
  simpl. specialize (Hans a s).
  destruct (body a s) as [[a'|b] s'| |] eqn:Hb; [|done..].
  apply IH. apply Hdec in Hb. lia.
Qed.

Lemma peek_pot ok s b s1 : peek ok s = Scanned b s1 → (pot s1 ≤ pot s)%nat.
Proof.
  unfold peek, bind. destruct (getRune s) as [r s2| |] eqn:Hg; [|done..].
  apply getRune_pot in Hg as [Hle Hlt].
  destruct (r =? eof) eqn:E.
  - unfold ret. intros H. injection H as _ <-. done.
  - apply Z.eqb_neq in E. destruct Hlt as [Hlt|]; [|done].
    destruct (UnreadRune s2) as [u s3| |] eqn:Hu; [|done..].
    apply UnreadRune_pot in Hu. unfold ret. intros H. injection H as _ <-. lia.
Qed.

Lemma answers_peek ok : answers (peek ok).
Proof.
  unfold peek. apply answers_bind; [apply answers_getRune|]. intros r.
  apply answers_bind; [|done]. apply answers_if; done.
Qed.

Lemma SkipSpace_body_dec a s a' s' :
  SkipSpace_body a s = Scanned (inl a') s' → (pot s' < pot s)%nat.
Proof.
  unfold SkipSpace_body, bind. destruct (getRune s) as [r s1| |] eqn:Hg; [|done..].
  apply getRune_pot in Hg as [Hle Hlt].
  destruct (r =? eof) eqn:E; [done|]. apply Z.eqb_neq in E.
  destruct Hlt as [Hlt|]; [|done].
  destruct ((if r =? 13 then peek (String "010" "") else ret false) s1)
    as [crlf s2| |] eqn:Hp; [|done..].
  assert (Hle2 : (pot s2 ≤ pot s1)%nat).
  { destruct (r =? 13); [by apply peek_pot in Hp|].
    unfold ret in Hp. by injection Hp as _ <-. }
  clear Hp. destruct crlf.
  - unfold continue, ret. intros H. injection H as _ <-. lia.
  - destruct (r =? 10); [done|]. destruct (negb (isSpace r)).
    + by destruct (UnreadRune s2).
    + unfold continue, ret. intros H. injection H as _ <-. lia.
Qed.

Lemma answers_SkipSpace_body a : answers (SkipSpace_body a).
Proof.
  unfold SkipSpace_body. apply answers_bind; [apply answers_getRune|]. intros r.
  apply answers_if; [done|]. apply answers_bind.
  - apply answers_if; [apply answers_peek|done].
  - intros crlf. repeat apply answers_if; try done.
Qed.

Lemma answers_SkipSpace : answers SkipSpace.
Proof.
  intros s. unfold SkipSpace, for_.
  apply (loop_answers SkipSpace_body (λ _ s, pot s));
    [apply answers_SkipSpace_body | apply SkipSpace_body_dec | lia].
Qed.

Lemma answers_notEOF : answers notEOF.
Proof.
  intros s. unfold notEOF. pose proof (answers_getRune s) as H.
  destruct (getRune s) as [r s1| |]; [|done..]. by destruct (r =? eof).
Qed.

Lemma answers_consume ok acc : answers (consume ok acc).
Proof.
  unfold consume. apply answers_bind; [apply answers_getRune|]. intros r.
  repeat apply answers_if; try done; apply answers_bind; try done;
    by apply answers_if.
Qed.

Lemma accept_body_dec a s a' s' :
  scan.accept_body a s = Scanned (inl a') s' → (pot s' < pot s)%nat.
Proof.
  unfold scan.accept_body, accept, consume, bind.
  destruct (getRune s) as [r s1| |] eqn:Hg; [|done..].
  apply getRune_pot in Hg as [Hle Hlt].
  destruct (r =? eof) eqn:E; [done|]. apply Z.eqb_neq in E.
  destruct Hlt as [Hlt|]; [|done].
  destruct (indexRune decimalDigits r).
  - unfold writeRune, ret, continue. intros H. injection H as _ <-.
    change (pot (set_buf _ s1)) with (pot s1). lia.
  - by destruct (UnreadRune s1).
Qed.

Lemma answers_accept_all : answers (accept_all decimalDigits).
Proof.
  intros s. unfold accept_all, for_.
  apply (loop_answers scan.accept_body (λ _ s, pot s)); [|apply accept_body_dec|lia].
  intros a. apply answers_bind; [apply answers_consume|]. intros ok. by destruct ok.
Qed.

Lemma answers_scanNumber : answers (scanNumber decimalDigits).
Proof.
  unfold scanNumber. apply answers_bind; [apply answers_notEOF|]. intros _.
  apply answers_bind; [apply answers_consume|]. intros ok.
  apply answers_if; [done|]. apply answers_bind; [apply answers_accept_all|done].
Qed.

Lemma answers_scanInt : answers scanInt.
Proof.
  unfold scanInt. apply answers_bind; [apply answers_SkipSpace|]. intros _.
  apply answers_bind; [apply answers_notEOF|]. intros _.
  apply answers_bind; [apply answers_consume|]. intros _.
  apply answers_bind; [apply answers_scanNumber|]. intros tok.
  by destruct (ParseInt tok).
Qed.

Lemma answers_verb_d wid : answers (verb_d wid).
Proof.
  unfold verb_d. apply answers_bind; [apply answers_SkipSpace|]. intros _.
  apply answers_bind; [done|]. intros _. apply answers_bind; [done|]. intros _.
  apply answers_bind; [apply answers_scanInt|]. intros v.
  apply answers_bind; done.
Qed.

Lemma blanks_body_dec c s c' s' :
  scan.blanks_body c s = Scanned (inl c') s' → (blanks_mu c' s' < blanks_mu c s)%nat.
Proof.
  unfold scan.blanks_body, blanks_mu.
  destruct (isSpace c && negb (c =? 10)); [|done].
  unfold bind. destruct (getRune s) as [r s1| |] eqn:Hg; [|done..].
  apply getRune_pot in Hg as [Hle Hlt]. unfold ret. intros H. injection H as <- <-.
  destruct Hlt as [Hlt| ->]; [case_match; lia|].
  change (isSpace eof && negb (eof =? 10)) with false. cbn iota. lia.
Qed.

Lemma answers_skip_blanks c : answers (skip_blanks c).
Proof.
  intros s. unfold skip_blanks, for_.
  apply (loop_answers scan.blanks_body blanks_mu); [|apply blanks_body_dec|].
  - intros a. unfold scan.blanks_body. apply answers_if; [|done].
    apply answers_bind; [apply answers_getRune|done].
  - unfold blanks_mu. destruct (isSpace c && negb (c =? 10)); lia.
Qed.

Lemma answers_advance_space : answers advance_space.
Proof.
  unfold advance_space. apply answers_bind; [apply answers_getRune|]. intros c.
  repeat apply answers_if; try done.
  apply answers_bind; [apply answers_skip_blanks|]. intros c'. by apply answers_if.
Qed.

Lemma answers_advance_newline : answers advance_newline.
Proof.
  unfold advance_newline. apply answers_bind; [apply answers_getRune|]. intros c.
  apply answers_bind; [apply answers_skip_blanks|]. intros c'. by apply answers_if.
Qed.

(** The scan of a header always answers. *)
Lemma doScanf_fuel s : fst (doScanf s) ≠ OutOfFuel.
Proof.
  unfold doScanf.
  pose proof (answers_verb_d 3 s) as H1. destruct (verb_d 3 s) as [st s1| |]; [|done..].
  pose proof (answers_advance_space s1) as H2.
  destruct (advance_space s1) as [u s2| |]; [|done..].
  pose proof (answers_verb_d 8 s2) as H3. destruct (verb_d 8 s2) as [ln s3| |]; [|done..].
  pose proof (answers_advance_newline s3) as H4.
  destruct (advance_newline s3) as [u' s4| |]; done.
Qed.

End fmt_fuel.

Theorem Fscanf_header_fuel c : fst (fmt.Fscanf c) ≠ OutOfFuel.
Proof.
  unfold fmt.Fscanf. cbv zeta.
  pose proof (fmt_fuel.doScanf_fuel (fmt.newScanState (concat (incoming c)) (ending c))) as H.
  by destruct (fmt.doScanf _) as [r s].
Qed.

Theorem ReadResponse_fuel c : fst (ReadResponse c) ≠ OutOfFuel.
Proof.
  unfold ReadResponse. pose proof (Fscanf_header_fuel c) as H.
  destruct (fmt.Fscanf c) as [[h| |] c1]; [|done..].
  destruct (fmt.err h); [done|]. destruct (negb _); [done|].
  destruct (_ <? 0); [done|]. destruct (conn_Read _ c1) as [[d|e] c2]; [|done].
  cbv zeta. destruct (negb _); [done|]. by destruct (_ <? 0).
Qed.

(** C9.  A header printed with ["%03d %8d\n"] for a status in [0, 999]
    and a length of at most 8 decimal digits scans, with the format and
    the scanner of [ReadResponse], to that status and that length, and
    the scan stops right after the header. *)
Theorem header_roundtrip status size rest c :
  0 ≤ status ≤ 999 →
  0 ≤ size ≤ 99999999 →
  concat (incoming c) = fmt.Sprintf_header status size ++ rest →
  ∃ c', fmt.Fscanf c = (Returns (fmt.mkscanned 2 None status size), c') ∧
        concat (incoming c') = rest.
Proof.
  intros Hs Hl Hdata.
  destruct (fmt_facts.fmt_status_shape status Hs) as (c1 & zs & Hst & Hc1 & Hzs & Hl1 & Hv1).
  destruct (fmt_facts.fmt_length_shape size Hl)
    as (n & c2 & ds & Hln & Hc2 & Hds & Hl2 & Hv2).
  assert (Hshape : concat (incoming c)
                   = c1 :: zs ++ scan.sp :: replicate n scan.sp
                              ++ c2 :: ds ++ nl :: rest).
  { rewrite Hdata. unfold fmt.Sprintf_header. rewrite Hst, Hln.
    simpl. rewrite <- !app_assoc. simpl. do 2 f_equal.
    rewrite <- app_assoc. f_equal. simpl. by rewrite <- app_assoc. }
  destruct (fmt_facts.doScanf_shape c1 zs n c2 ds rest (ending c) Hc1 Hzs Hl1 Hc2 Hds Hl2)
    as (s & Hscan & Hrd).
  rewrite <- Hshape in Hscan. unfold fmt.Fscanf. cbv zeta. rewrite Hscan, Hv1, Hv2.
  eexists. split; [done|].
  rewrite read_bytes_concat, Hrd, Hdata, length_app.
  replace (length (fmt.Sprintf_header status size) + length rest - length rest)%nat
    with (length (fmt.Sprintf_header status size)) by lia.
  by rewrite drop_app_length.
Qed.

Lemma header_roundtrip_witness :
  ∃ c', fmt.Fscanf (mkConn [bytes "200       42"; nl :: bytes "body"] EndEOF [] [])
        = (Returns (fmt.mkscanned 2 None 200 42), c') ∧
        concat (incoming c') = bytes "body".
Proof.
  apply (header_roundtrip 200 42 (bytes "body")); [lia | lia | reflexivity].
Defined.

(** Headers at the ends of the two ranges, read back by [ReadResponse]. *)
Example printed_headers_scan :
  fst (fmt.Fscanf (mkConn [fmt.Sprintf_header 0 0] EndEOF [] []))
  = Returns (fmt.mkscanned 2 None 0 0) ∧
  fst (fmt.Fscanf (mkConn [fmt.Sprintf_header 999 99999999] EndEOF [] []))
  = Returns (fmt.mkscanned 2 None 999 99999999) ∧
  fst (ReadResponse (mkConn [response_bytes 200 "backends"] EndEOF [] []))
  = Returns (200, Some "backends").
Proof. repeat split; vm_compute; reflexivity. Qed.

(** * Properties of the supervisor *)

Lemma app_eq_split {A} (l1 l2 pre post : list A) x :
  l1 ++ l2 = pre ++ x :: post →
  (∃ post', l1 = pre ++ x :: post') ∨ (∃ pre', pre = l1 ++ pre' ∧ l2 = pre' ++ x :: post).
Proof.
  intros H. apply app_eq_app in H as [l [[H1 H2]|[H1 H2]]].
  - destruct l as [|y l].
    + right. exists []. rewrite app_nil_r in H1. simpl in H2. split; [|done].
      by rewrite app_nil_r.
    + injection H2 as -> ->. left. by eexists.
  - right. by exists l.
Qed.

Lemma split_not_in {A} (P : A → bool) (l pre post : list A) x :
  Forall (λ e, P e = false) l → P x = true → l ≠ pre ++ x :: post.
Proof.
  intros Hall Hx ->. apply Forall_app in Hall as [_ Hall].
  apply Forall_cons in Hall as [Hall _]. congruence.
Qed.

Lemma spaced_app X T :
  Forall (λ e, is_dial e = false) X → spaced T → spaced (X ++ T).
Proof.
  intros HX HT pre ok post H. apply app_eq_split in H as [[post' H]|(pre' & -> & H)].
  - by apply (split_not_in is_dial) in H.
  - apply HT in H as [p ->]. exists (X ++ p). by rewrite app_assoc.
Qed.

Lemma spaced_quiet X : Forall (λ e, is_dial e = false) X → spaced X.
Proof. intros HX pre ok post H. by apply (split_not_in is_dial) in H. Qed.

Lemma spaced_sleep_dial b T : spaced T → spaced (Sleep 5 :: DialTCP b :: T).
Proof.
  intros HT pre ok post H. destruct pre as [|e [|e' pre]]; [done|..].
  - exists []. simpl in *. congruence.
  - injection H as <- <- H. apply HT in H as [p ->]. by exists (Sleep 5 :: DialTCP b :: p).
Qed.

Lemma guarded_app P Q : guarded P → guarded Q → guarded (P ++ Q).
Proof.
  intros HP HQ pre ok post H. apply app_eq_split in H as [[post' H]|(pre' & -> & H)].
  - by apply HP in H.
  - apply HQ in H as (pre0 & h & mid & -> & Hmid).
    exists (P ++ pre0), h, mid. by rewrite <- app_assoc.
Qed.

Lemma guarded_quiet P : Forall (λ e, is_list_send e = false) P → guarded P.
Proof.
  intros HP pre ok post H. by apply (split_not_in is_list_send) in H.
Qed.

Lemma guarded_conn h evs :
  Forall (λ e, is_dial e = false) evs →
  guarded (DialTCP true :: Response 107 :: Command "auth" [h] true :: evs).
Proof.
  intros Hevs pre ok post H.
  destruct pre as [|e1 [|e2 [|e3 mid]]]; try done.
  injection H as <- <- <- H. exists [], h, mid. split; [done|].
  rewrite H in Hevs. by apply Forall_app in Hevs as [Hmid _].
Qed.

(** The poll loop makes no connection attempt. *)
Lemma poll_no_dial n cfg : ∀ c g,
  Forall (λ e, is_dial e = false) (fst (fst (poll n cfg c g))).
Proof.
  induction n as [|n IH]; intros c g; simpl; [done|].
  destruct (Send "backend.list" [] c) as [[e|] c1]; [by repeat constructor|].
  destruct (ReadResponse c1) as [[[code resp]| |] c2]; try by repeat constructor.
  destruct (negb (code =? 200)); [by repeat constructor|].
  destruct (obind (deref resp) _) as [a| |]; try by repeat constructor.
  destruct (publish cfg a g) as [g'| |]; try by repeat constructor.
  specialize (IH c2 g').
  destruct (poll n cfg c2 g') as [[evs e] g'']. simpl in *.
  by repeat constructor.
Qed.

(** The handshake makes no connection attempt and sends no
    [backend.list]; when it succeeds, it has seen the greeting 107 and
    the [auth] command has succeeded. *)
Lemma handshake_events cfg c :
  Forall (λ e, is_dial e = false) (fst (fst (handshake cfg c))) ∧
  Forall (λ e, is_list_send e = false) (fst (fst (handshake cfg c))) ∧
  (snd (fst (handshake cfg c)) = Returns Authenticated →
   ∃ h, fst (fst (handshake cfg c)) = [Response 107; Command "auth" [h] true]).
Proof.
  unfold handshake.
  destruct (ReadResponse c) as [[[code resp]| |] c1]; simpl;
    try (repeat split; [by repeat constructor..|done]).
  destruct (code =? 107) eqn:Hcode; simpl;
    [|repeat split; [by repeat constructor..|done]].
  apply Z.eqb_eq in Hcode as ->.
  destruct (obind (deref resp) _) as [h| |]; simpl;
    try (repeat split; [by repeat constructor..|done]).
  destruct (CommandForSuccess "auth" [h] c1) as [[ok| |] c2]; simpl;
    try (repeat split; [by repeat constructor..|done]).
  repeat split; [by repeat constructor..|]. destruct ok; [|done]. by exists h.
Qed.

Lemma supervise_traces n cfg dials : ∀ g,
  spaced (supervise n cfg dials false g) ∧
  guarded (supervise n cfg dials false g) ∧
  guarded (supervise n cfg dials true g) ∧
  (∀ pre ok post, supervise n cfg dials true g = pre ++ DialTCP ok :: post →
                  pre = [] ∨ ∃ pre', pre = pre' ++ [Sleep 5]).
Proof.
  induction dials as [|d dials IH]; intros g.
  { simpl. repeat split; try (intros [|??] ?? ?; done). }
  (* what follows the connection attempt *)
  assert (Hrest : ∃ b rest,
    (∀ first, supervise n cfg (d :: dials) first g
              = (if first then [] else [Sleep 5]) ++ DialTCP b :: rest) ∧
    spaced rest ∧ guarded (DialTCP b :: rest)).
  { simpl. destruct d as [c|].
    - pose proof (handshake_events cfg c) as (Hd & Hl & Hauth).
      destruct (handshake cfg c) as [[evs r] c1]. simpl in Hd, Hl, Hauth.
      destruct r as [[]| |].
      + eexists _, _. split; [done|]. destruct (IH g) as (Hs & Hg & _). split.
        * by apply spaced_app.
        * apply (guarded_app [_]); [by apply guarded_quiet; repeat constructor|].
          apply guarded_app; [by apply guarded_quiet|done].
      + eexists _, _. split; [done|]. destruct (IH g) as (Hs & Hg & _). split.
        * by apply spaced_app.
        * apply (guarded_app [_]); [by apply guarded_quiet; repeat constructor|].
          apply guarded_app; [by apply guarded_quiet|done].
      + destruct (Hauth eq_refl) as [h ->].
        pose proof (poll_no_dial n cfg c1 g) as Hp.
        destruct (poll n cfg c1 g) as [[evs' e] g']. simpl in Hp.
        destruct (IH g') as (Hs & Hg & _).
        destruct e; eexists _, _; (split; [done|]); split.
        * apply (spaced_app [_; _]); [by repeat constructor|]. by apply spaced_app.
        * change (DialTCP true :: [Response 107; Command "auth" [h] true]
                    ++ evs' ++ supervise n cfg dials false g')
            with ((DialTCP true :: Response 107 :: Command "auth" [h] true :: evs')
                    ++ supervise n cfg dials false g').
          apply guarded_app; [by apply guarded_conn|done].
        * apply spaced_quiet, Forall_app. split; [by repeat constructor|done].
        * by apply guarded_conn.
        * apply spaced_quiet, Forall_app. split; [by repeat constructor|done].
        * by apply guarded_conn.
      + eexists _, _. split; [done|]. split; [by apply spaced_quiet|].
        apply (guarded_app [_]); by apply guarded_quiet; repeat constructor.
      + eexists _, _. split; [done|]. split; [by apply spaced_quiet|].
        apply (guarded_app [_]); by apply guarded_quiet; repeat constructor.
    - eexists _, _. split; [done|]. destruct (IH g) as (Hs & Hg & _). split; [done|].
      apply (guarded_app [_]); [by apply guarded_quiet; repeat constructor|done]. }
  destruct Hrest as (b & rest & Heq & Hs & Hg).
  rewrite (Heq false), (Heq true). simpl. repeat split.
  - by apply spaced_sleep_dial.
  - apply (guarded_app [_]); [by apply guarded_quiet; repeat constructor|done].
  - done.
  - intros pre ok post H. destruct pre as [|e pre]; [by left|]. right.
    injection H as <- H. apply Hs in H as [p ->]. by exists (DialTCP b :: p).
Qed.

(** C7.  In every run of the supervisor, observed on any script of
    connection results and for any number of polls, each connection
    attempt but the very first comes right after a sleep of five
    seconds, and each [backend.list] is sent on a connection (no
    connection attempt in between) on which the greeting 107 was
    received and the [auth] command succeeded. *)
Theorem supervisor_trace n cfg dials :
  (∀ pre ok post,
     main_loop n cfg dials = pre ++ DialTCP ok :: post →
     pre = [] ∨ ∃ pre', pre = pre' ++ [Sleep 5]) ∧
  (∀ pre ok post,
     main_loop n cfg dials = pre ++ Sent "backend.list" [] ok :: post →
     ∃ pre0 h mid,
       pre = pre0 ++ DialTCP true :: Response 107 :: Command "auth" [h] true :: mid ∧
       Forall (λ e, is_dial e = false) mid).
Proof.
  unfold main_loop. destruct (supervise_traces n cfg dials ∅) as (_ & _ & Hg & Hs).
  split; [exact Hs|exact Hg].
Qed.

Lemma supervisor_trace_witness :
  short_run = take 5 short_run ++ Sent "backend.list" [] true :: drop 6 short_run ∧
  ∃ pre0 h mid,
    take 5 short_run
    = pre0 ++ DialTCP true :: Response 107 :: Command "auth" [h] true :: mid ∧
    Forall (λ e, is_dial e = false) mid.
Proof.
  assert (H : short_run = take 5 short_run ++ Sent "backend.list" [] true :: drop 6 short_run)
    by (vm_compute; reflexivity).
  split; [exact H|].
  exact (proj2 (supervisor_trace 5 plain_cfg [None; Some greeting_conn]) _ _ _ H).
Defined.

(** The calls of that run, the gauges left out. *)
Example demo_run_calls :
  List.filter (λ e, match e with Published _ => false | _ => true end) demo_run
  = [ DialTCP false; Sleep 5; DialTCP true; Response 107;
      Command "auth" ["cf6abf12475d710d82f41665219bc962f42dc866d00e5e53991f28c954f529c0"] true;
      Sent "backend.list" [] true; Response 200; Sleep 15;
      Sent "backend.list" [] true; Response 200; Sleep 15;
      Sent "backend.list" [] true; Response (-1);
      Sleep 5; DialTCP false ].
Proof. vm_compute. reflexivity. Qed.

(** * What a call leaves alone *)

Lemma conn_Read_frame n c :
  ending (snd (conn_Read n c)) = ending c ∧ wscript (snd (conn_Read n c)) = wscript c ∧
  written (snd (conn_Read n c)) = written c.
Proof.
  unfold conn_Read. destruct n; [done|].
  by destruct (take_segment _ _) as [[d rest]|].
Qed.

Lemma Fscanf_frame c :
  ending (snd (fmt.Fscanf c)) = ending c ∧ wscript (snd (fmt.Fscanf c)) = wscript c ∧
  written (snd (fmt.Fscanf c)) = written c.
Proof.
  unfold fmt.Fscanf. cbv zeta. destruct (fmt.doScanf _) as [r s]. cbn [snd].
  apply read_bytes_fields.
Qed.

Lemma ReadResponse_frame c :
  ending (snd (ReadResponse c)) = ending c ∧ wscript (snd (ReadResponse c)) = wscript c ∧
  written (snd (ReadResponse c)) = written c.
Proof.
  unfold ReadResponse. pose proof (Fscanf_frame c) as HF.
  destruct (fmt.Fscanf c) as [[h| |] c1]; cbn [snd] in *; try done.
  destruct (fmt.err h); [done|]. destruct (negb _); [done|].
  destruct (_ <? 0); [done|].
  pose proof (conn_Read_frame (Z.to_nat (fmt.length_ h + 1)) c1) as HR.
  destruct (conn_Read _ c1) as [[d|e] c2]; cbn [snd] in *.
  - cbv zeta. destruct (negb _); [|destruct (_ <? 0)]; cbn [snd];
      by destruct HR as (-> & -> & ->).
  - by destruct HR as (-> & -> & ->).
Qed.

Lemma Send_frame cmd args c :
  incoming (snd (Send cmd args c)) = incoming c ∧ ending (snd (Send cmd args c)) = ending c.
Proof. unfold Send, conn_Write. by destruct (wscript c) as [|[] ws]. Qed.

(** * A response, from the header to the terminator *)

(** The scan of a printed header, and the connection it leaves. *)
Lemma Fscanf_printed status size rest c :
  0 ≤ status ≤ 999 →
  0 ≤ size ≤ 99999999 →
  concat (incoming c) = fmt.Sprintf_header status size ++ rest →
  fmt.Fscanf c
  = (Returns (fmt.mkscanned 2 None status size),
     read_bytes (length (fmt.Sprintf_header status size)) c).
Proof.
  intros Hs Hl Hdata.
  destruct (fmt_facts.fmt_status_shape status Hs) as (c1 & zs & Hst & Hc1 & Hzs & Hl1 & Hv1).
  destruct (fmt_facts.fmt_length_shape size Hl)
    as (n & c2 & ds & Hln & Hc2 & Hds & Hl2 & Hv2).
  assert (Hshape : concat (incoming c)
                   = c1 :: zs ++ scan.sp :: replicate n scan.sp
                              ++ c2 :: ds ++ nl :: rest).
  { rewrite Hdata. unfold fmt.Sprintf_header. rewrite Hst, Hln.
    simpl. rewrite <- !app_assoc. simpl. do 2 f_equal.
    rewrite <- app_assoc. f_equal. simpl. by rewrite <- app_assoc. }
  destruct (fmt_facts.doScanf_shape c1 zs n c2 ds rest (ending c) Hc1 Hzs Hl1 Hc2 Hds Hl2)
    as (s & Hscan & Hrd).
  rewrite <- Hshape in Hscan. unfold fmt.Fscanf. cbv zeta. rewrite Hscan, Hv1, Hv2.
  do 2 f_equal. rewrite Hrd, Hdata, length_app. lia.
Qed.

(** Reading one byte where the first bytes to come are [x :: seg]. *)
Lemma conn_Read_byte pad x seg rest e ws wr :
  concat pad = [] →
  conn_Read 1 (mkConn (pad ++ (x :: seg) :: rest) e ws wr)
  = (inl [x], mkConn (match seg with [] => rest | _ => seg :: rest end) e ws wr).
Proof.
  intros Hpad. unfold conn_Read. cbn [incoming].
  induction pad as [|p pad IH]; cbn [app take_segment].
  - cbn [take drop]. by destruct seg.
  - destruct p as [|y p]; [|done]. by apply IH.
Qed.

(** Reading, byte by byte, up to a place inside a segment: the rest of
    that segment is what comes first afterwards. *)
Lemma read_bytes_segments k : ∀ pre hseg tail rest e ws wr,
  length (concat pre ++ hseg) = k → tail ≠ [] →
  ∃ pad, concat pad = [] ∧
         read_bytes k (mkConn (pre ++ (hseg ++ tail) :: rest) e ws wr)
         = mkConn (pad ++ tail :: rest) e ws wr.
Proof.
  induction k as [|k IH]; intros pre hseg tail rest e ws wr Hk Ht.
  - apply length_zero_iff_nil, app_eq_nil in Hk as [Hpre ->]. by exists pre.
  - cbn [read_bytes].
    assert (Hsplit : (∃ pad x seg pre', pre = pad ++ (x :: seg) :: pre' ∧ concat pad = [])
                     ∨ (concat pre = [] ∧ ∃ x hs, hseg = x :: hs)).
    { clear IH. induction pre as [|p pre IHp].
      - right. split; [done|]. destruct hseg as [|x hs]; [done|]. by eexists _, _.
      - destruct p as [|x seg].
        + cbn [concat app] in Hk. destruct (IHp Hk) as [(pad & x & seg & pre' & -> & Hp)|[Hp Hh]].
          * left. by exists ([] :: pad), x, seg, pre'.
          * by right.
        + left. by exists [], x, seg, pre. }
    destruct Hsplit as [(pad & x & seg & pre' & -> & Hp)|[Hp (x & hs & ->)]].
    + rewrite <- app_assoc. cbn [app].
      rewrite (conn_Read_byte pad x seg _ e ws wr Hp). cbn [snd].
      rewrite concat_app, Hp in Hk. cbn [app concat length] in Hk.
      destruct seg as [|y seg].
      * apply (IH pre' hseg tail rest e ws wr); [|done]. simpl in Hk. lia.
      * apply (IH ((y :: seg) :: pre') hseg tail rest e ws wr); [|done].
        cbn [concat]. rewrite <- app_assoc in Hk. simpl in Hk.
        rewrite <- app_assoc. simpl. lia.
    + cbn [app]. rewrite (conn_Read_byte pre x (hs ++ tail) rest e ws wr Hp). cbn [snd].
      rewrite Hp in Hk. cbn [app length] in Hk.
      destruct (hs ++ tail) as [|y l] eqn:Hl.
      { apply app_eq_nil in Hl as [_ ->]. done. }
      rewrite <- Hl. apply (IH [] hs tail rest e ws wr); [|done]. simpl. lia.
Qed.

(** A read of [n] bytes after such a place. *)
Lemma conn_Read_pad n pad tail rest e ws wr :
  concat pad = [] → tail ≠ [] → n ≠ 0%nat →
  conn_Read n (mkConn (pad ++ tail :: rest) e ws wr)
  = (inl (take n tail),
     mkConn (match drop n tail with [] => rest | more => more :: rest end) e ws wr).
Proof.
  intros Hpad Ht Hn. unfold conn_Read. destruct n as [|n]; [done|]. cbn [incoming].
  induction pad as [|p pad IH]; cbn [app take_segment].
  - by destruct tail.
  - destruct p as [|y p]; [|done]. by apply IH.
Qed.

(** X1.  A response as a server prints it (status in [0, 999], a body of
    at most 99999999 bytes, any terminator byte) is read back as that
    status and that body, however the header is cut into segments, as
    long as body and terminator arrive in one piece; and exactly the
    response is consumed: what follows it on the connection is what the
    next call reads. *)
Theorem response_roundtrip status body t hsegs htail more rest e ws wr :
  0 ≤ status ≤ 999 →
  len (bytes body) ≤ 99999999 →
  concat hsegs ++ htail = fmt.Sprintf_header status (len (bytes body)) →
  ReadResponse (mkConn (hsegs ++ (htail ++ bytes body ++ t :: more) :: rest) e ws wr)
  = (Returns (status, Some body),
     mkConn (match more with [] => rest | _ => more :: rest end) e ws wr).
Proof.
  intros Hs Hl Hhdr.
  set (c := mkConn (hsegs ++ (htail ++ bytes body ++ t :: more) :: rest) e ws wr).
  set (size := len (bytes body)) in *.
  assert (Hsize : 0 ≤ size) by (unfold size, len; lia).
  assert (Hdata : concat (incoming c)
                  = fmt.Sprintf_header status size ++ (bytes body ++ t :: more) ++ concat rest).
  { unfold c. cbn [incoming]. rewrite concat_app. cbn [concat].
    rewrite <- Hhdr, <- !app_assoc. done. }
  pose proof (Fscanf_printed status size _ c Hs (conj Hsize Hl) Hdata) as Hscan.
  destruct (read_bytes_segments (length (fmt.Sprintf_header status size))
              hsegs htail (bytes body ++ t :: more) rest e ws wr)
    as (pad & Hpad & Hrb).
  { by rewrite Hhdr. }
  { by destruct (bytes body). }
  fold c in Hrb. rewrite Hrb in Hscan.
  destruct (ReadResponse_spec c _ _ Hscan) as [_ H].
  specialize (H eq_refl eq_refl Hsize). cbn [fmt.length_ fmt.status] in H.
  rewrite (conn_Read_pad _ pad _ rest e ws wr Hpad) in H;
    [|by destruct (bytes body)|lia].
  assert (Hn : Z.to_nat (size + 1) = S (length (bytes body))) by (unfold size, len; lia).
  rewrite Hn in H.
  assert (Htake : take (S (length (bytes body))) (bytes body ++ t :: more) = bytes body ++ [t]).
  { rewrite (take_app_ge _ _ (S _)) by lia.
    replace (S (length (bytes body)) - length (bytes body))%nat with 1%nat by lia. done. }
  assert (Hdrop : drop (S (length (bytes body))) (bytes body ++ t :: more) = more).
  { rewrite (drop_app_ge _ _ (S _)) by lia.
    replace (S (length (bytes body)) - length (bytes body))%nat with 1%nat by lia. done. }
  rewrite Htake, Hdrop in H.
  assert (Hlen : (len (bytes body ++ [t]) =? size + 1) = true).
  { apply Z.eqb_eq. unfold size, len. rewrite length_app. simpl. lia. }
  rewrite Hlen in H. rewrite H.
  replace (Z.to_nat size) with (length (bytes body)) by (unfold size, len; lia).
  rewrite take_app_length, str_bytes. by destruct more.
Qed.

Lemma response_roundtrip_witness :
  ReadResponse (mkConn [bytes "200  "; bytes "      5"; nl :: bytes "helloX107"; bytes "next"]
                       EndEOF [] [])
  = (Returns (200, Some "hello"), mkConn [bytes "107"; bytes "next"] EndEOF [] []).
Proof.
  apply (response_roundtrip 200 "hello" "X"%char
           [bytes "200  "; bytes "      5"] [nl] (bytes "107") [bytes "next"] EndEOF [] []);
    [lia | vm_compute; discriminate | reflexivity].
Defined.

(** X2.  A body that does not arrive complete and in one piece is
    rejected: when the segment with the first bytes after the header
    holds at most [size] of them, the one [Read] of [ReadResponse]
    returns short and the result is the sentinel, whatever follows in
    later segments; and so it is when nothing follows the header. *)
Theorem short_read_rejected status size hsegs htail first rest e ws wr :
  0 ≤ status ≤ 999 →
  0 ≤ size ≤ 99999999 →
  concat hsegs ++ htail = fmt.Sprintf_header status size →
  len first ≤ size →
  first ≠ [] ∨ concat rest = [] →
  fst (ReadResponse (mkConn (hsegs ++ (htail ++ first) :: rest) e ws wr)) = Returns invalid.
Proof.
  intros Hs Hl Hhdr Hshort Hcase.
  set (c := mkConn (hsegs ++ (htail ++ first) :: rest) e ws wr).
  assert (Hdata : concat (incoming c)
                  = fmt.Sprintf_header status size ++ first ++ concat rest).
  { unfold c. cbn [incoming]. rewrite concat_app. cbn [concat].
    rewrite <- Hhdr, <- !app_assoc. done. }
  pose proof (Fscanf_printed status size _ c Hs Hl Hdata) as Hscan.
  destruct (ReadResponse_spec c _ _ Hscan) as [_ H].
  specialize (H eq_refl eq_refl (proj1 Hl)). cbn [fmt.length_ fmt.status] in H.
  destruct (decide (first = [])) as [->|Hne].
  - destruct Hcase as [Hcase|Hrest]; [done|].
    assert (Hend : concat (incoming (read_bytes (length (fmt.Sprintf_header status size)) c))
                   = []).
    { rewrite read_bytes_concat, Hdata, drop_app_length. by rewrite Hrest. }
    unfold conn_Read in H. rewrite (take_segment_none _ _ Hend) in H.
    destruct (Z.to_nat (size + 1)) eqn:Hn; [lia|]. by rewrite H.
  - destruct (read_bytes_segments (length (fmt.Sprintf_header status size))
                hsegs htail first rest e ws wr) as (pad & Hpad & Hrb);
      [by rewrite Hhdr|done|].
    fold c in Hrb. rewrite Hrb in H.
    rewrite (conn_Read_pad _ pad _ rest e ws wr Hpad) in H; [|done|lia].
    assert (Hlen : (len (take (Z.to_nat (size + 1)) first) =? size + 1) = false).
    { apply Z.eqb_neq. unfold len in *. rewrite length_take. lia. }
    rewrite Hlen in H. by rewrite H.
Qed.

Lemma short_read_rejected_witness :
  fst (ReadResponse (mkConn [bytes "200       10"; nl :: bytes "12345"; bytes "67890" ++ [nl]]
                            EndEOF [] []))
  = Returns invalid.
Proof.
  apply (short_read_rejected 200 10 [bytes "200       10"] [nl] (bytes "12345")
           [bytes "67890" ++ [nl]] EndEOF [] []);
    [lia | lia | reflexivity | vm_compute; discriminate | left; discriminate].
Defined.

(** * The width of a directive bounds the number it scans *)

Module fmt_bounds.
Import fmt scan counts.

Lemma readByte_counts s x s1 : readByte s = (x, s1) → same_counts s s1.
Proof.
  unfold readByte, same_counts. destruct (pendBuf s); [|by intros [= <- <-]].
  destruct (rd s); by intros [= <- <-].
Qed.

Lemma fill_counts more : ∀ b s x s1, fill more b s = (x, s1) → same_counts s s1.
Proof.
  induction more as [|more IH]; intros b s x s1; simpl.
  - destruct (utf8.FullRune b); by intros [= <- <-].
  - destruct (utf8.FullRune b); [by intros [= <- <-]|].
    destruct (readByte s) as [[y|e] s2] eqn:Hrb; apply readByte_counts in Hrb.
    + intros H. apply IH in H. unfold same_counts in *. intuition congruence.
    + destruct e; intros [= <- <-]; done.
Qed.

Lemma readRune_counts s x s1 :
  readRune_ReadRune s = (x, s1) →
  same_counts s s1 ∧ ∀ r, x = inl r → 0 ≤ r.
Proof.
  unfold readRune_ReadRune. destruct (0 <=? peekRune s) eqn:Hpk.
  - intros [= <- <-]. split; [done|]. intros r [= <-]. by apply Z.leb_le.
  - destruct (readByte s) as [[b0|e] s2] eqn:Hrb.
    + pose proof (fmt_fuel.readByte_inl _ _ _ Hrb) as _.
      apply readByte_counts in Hrb.
      destruct (byte_val b0 <? utf8.RuneSelf).
      * intros [= <- <-]. split; [done|]. intros r [= <-]. apply fmt_fuel.byte_val_nonneg.
      * destruct (fill (utf8.UTFMax - 1) [b0] s2) as [[b|e] s3] eqn:Hfill.
        -- pose proof (fmt_fuel.fill_inl _ _ _ _ _ Hfill) as (_ & _ & Hlen).
           apply fill_counts in Hfill.
           assert (Hb : b ≠ []) by (destruct b; [simpl in Hlen; lia|done]).
           destruct (fmt_fuel.DecodeRune_bounds b Hb) as [Hr _].
           destruct (utf8.DecodeRune b) as [rr size]. simpl in Hr.
           intros [= <- <-]. split.
           ++ unfold same_counts in *. destruct (size <? len b); simpl; intuition congruence.
           ++ by intros r [= <-].
        -- apply fill_counts in Hfill. intros [= <- <-]. split; [|done].
           unfold same_counts in *. intuition congruence.
    + apply readByte_counts in Hrb. by intros [= <- <-].
Qed.

(** A rune read counts for one and stays within the limit; the end of
    the input counts for nothing. *)
Lemma getRune_count s r s1 :
  getRune s = Scanned r s1 →
  argLimit s1 = argLimit s ∧ buf s1 = buf s ∧
  ((r = eof ∧ count s1 = count s) ∨
   (r ≠ eof ∧ count s1 = count s + 1 ∧ count s1 ≤ argLimit s)).
Proof.
  unfold getRune, ReadRune.
  destruct (atEOF s || (argLimit s <=? count s)) eqn:Hlim.
  { intros [= <- <-]. auto. }
  apply orb_false_iff in Hlim as [_ Hlim]. apply Z.leb_gt in Hlim.
  destruct (readRune_ReadRune s) as [[r'|e] s2] eqn:Hrr;
    apply readRune_counts in Hrr as [(Hc & Ha & Hb) Hr].
  - intros [= <- <-]. cbn. repeat split; try done. right.
    specialize (Hr _ eq_refl). unfold eof. lia.
  - destruct e; [|done..]. intros [= <- <-]. cbn. auto.
Qed.

Lemma UnreadRune_count s u s1 :
  UnreadRune s = Scanned u s1 →
  argLimit s1 = argLimit s ∧ buf s1 = buf s ∧ count s1 = count s - 1.
Proof.
  unfold UnreadRune, readRune_UnreadRune. intros [= _ <-].
  by destruct (0 <=? peekRune s).
Qed.

Lemma adv_refl s : adv s s.
Proof. unfold adv. repeat split; auto; lia. Qed.

Lemma adv_trans s s1 s2 : adv s s1 → adv s1 s2 → adv s s2.
Proof. unfold adv. intros (-> & -> & ? & ?) (-> & -> & ? & ?). repeat split; lia. Qed.

Lemma peek_adv ok s b s1 : peek ok s = Scanned b s1 → adv s s1.
Proof.
  unfold peek, bind. destruct (getRune s) as [r s2| |] eqn:Hg; [|done..].
  apply getRune_count in Hg as (Ha & Hb & Hc).
  destruct (r =? eof) eqn:E.
  - apply Z.eqb_eq in E. unfold ret. intros [= _ <-].
    destruct Hc as [[_ Hc]|[Hr _]]; [|done]. unfold adv. repeat split; auto; lia.
  - apply Z.eqb_neq in E. destruct Hc as [[Hr _]|(_ & Hc & Hl)]; [done|].
    destruct (UnreadRune s2) as [u s3| |] eqn:Hu; [|done..].
    apply UnreadRune_count in Hu as (Ha' & Hb' & Hc').
    unfold ret. intros [= _ <-]. unfold adv. repeat split; try congruence; lia.
Qed.

Lemma notEOF_adv s u s1 : notEOF s = Scanned u s1 → adv s s1.
Proof.
  unfold notEOF. destruct (getRune s) as [r s2| |] eqn:Hg; [|done..].
  apply getRune_count in Hg as (Ha & Hb & Hc).
  destruct (r =? eof) eqn:E; [done|]. apply Z.eqb_neq in E.
  destruct Hc as [[Hr _]|(_ & Hc & Hl)]; [done|].
  intros Hu. apply UnreadRune_count in Hu as (Ha' & Hb' & Hc').
  unfold adv. repeat split; try congruence; lia.
Qed.

Lemma SkipSpace_body_adv a s x s1 : SkipSpace_body a s = Scanned x s1 → adv s s1.
Proof.
  unfold SkipSpace_body, bind. destruct (getRune s) as [r s2| |] eqn:Hg; [|done..].
  apply getRune_count in Hg as (Ha & Hb & Hc).
  destruct (r =? eof) eqn:E.
  { apply Z.eqb_eq in E. unfold break, ret. intros [= _ <-].
    destruct Hc as [[_ Hc]|[Hr _]]; [|done]. unfold adv. repeat split; auto; lia. }
  apply Z.eqb_neq in E. destruct Hc as [[Hr _]|(_ & Hc & Hl)]; [done|].
  assert (H02 : adv s s2) by (unfold adv; repeat split; auto; lia).
  destruct ((if r =? 13 then peek (String "010" "") else ret false) s2)
    as [crlf s3| |] eqn:Hp; [|done..].
  assert (H23 : adv s2 s3).
  { destruct (r =? 13); [by apply peek_adv in Hp|].
    unfold ret in Hp. injection Hp as _ <-. apply adv_refl. }
  pose proof (adv_trans _ _ _ H02 H23) as H03. clear Hp.
  destruct crlf; [unfold continue, ret; by intros [= _ <-]|].
  destruct (r =? 10); [done|]. destruct (negb (isSpace r)).
  - destruct (UnreadRune s3) as [u s4| |] eqn:Hu; [|done..].
    apply UnreadRune_count in Hu as (Ha' & Hb' & Hc').
    unfold break, ret. intros [= _ <-].
    destruct H23 as (A1 & A2 & A3 & A4).
    unfold adv. repeat split; try congruence; lia.
  - unfold continue, ret. by intros [= _ <-].
Qed.

Lemma loop_adv {A B} (body : A → scanner (A + B)) :
  (∀ a s x s1, body a s = Scanned x s1 → adv s s1) →
  ∀ fuel a s b s1, loop fuel body a s = Scanned b s1 → adv s s1.
Proof.
  intros Hbody. induction fuel as [|fuel IH]; intros a s b s1; simpl; [done|].
  destruct (body a s) as [[a'|b'] s2| |] eqn:Hb; [| |done..].
  - intros H. apply IH in H. apply Hbody in Hb. by apply (adv_trans _ s2).
  - intros [= <- <-]. by apply Hbody in Hb.
Qed.

Lemma SkipSpace_adv s u s1 : SkipSpace s = Scanned u s1 → adv s s1.
Proof. unfold SkipSpace, for_. apply loop_adv. apply SkipSpace_body_adv. Qed.

Lemma within_adv c0 s s1 : within c0 s → adv s s1 → within c0 s1.
Proof.
  unfold within, adv. intros [H1 H2] (Ha & Hb & Hc & Hd). rewrite Hb, Ha.
  split; [lia|]. destruct H2 as [H2|H2]; [by left|]. right. lia.
Qed.

Lemma accept_within ok c0 s b s1 :
  accept ok s = Scanned b s1 → within c0 s →
  within c0 s1 ∧ argLimit s1 = argLimit s.
Proof.
  unfold accept, consume, bind. destruct (getRune s) as [r s2| |] eqn:Hg; [|done..].
  apply getRune_count in Hg as (Ha & Hb & Hc). intros H Hw.
  destruct (r =? eof) eqn:E.
  { apply Z.eqb_eq in E. unfold ret in H. injection H as _ <-.
    destruct Hc as [[_ Hc]|[Hr _]]; [|done]. split; [|done].
    apply (within_adv c0 s); [done|]. unfold adv. repeat split; auto; lia. }
  apply Z.eqb_neq in E. destruct Hc as [[Hr _]|(_ & Hc & Hl)]; [done|].
  destruct (indexRune ok r).
  - unfold writeRune, ret in H. injection H as _ <-. split; [|done].
    unfold within in *. cbn. rewrite Hb, Ha. unfold len in *. rewrite length_app.
    simpl length. split; [lia|]. right. lia.
  - destruct (UnreadRune s2) as [u s3| |] eqn:Hu; [|done..].
    apply UnreadRune_count in Hu as (Ha' & Hb' & Hc').
    unfold ret in H. injection H as _ <-. split; [|congruence].
    apply (within_adv c0 s); [done|]. unfold adv. repeat split; try congruence; lia.
Qed.

Lemma accept_all_within c0 s u s1 :
  accept_all decimalDigits s = Scanned u s1 → within c0 s →
  within c0 s1 ∧ argLimit s1 = argLimit s.
Proof.
  unfold accept_all, for_. generalize (S (S (pot s))). intros fuel. revert s.
  induction fuel as [|fuel IH]; intros s; simpl; [done|].
  unfold bind at 1.
  destruct (accept decimalDigits s) as [ok s2| |] eqn:Hacc; [|done..].
  intros H Hw. destruct (accept_within _ c0 _ _ _ Hacc Hw) as [Hw2 Ha2].
  destruct ok.
  - unfold continue, ret in H. apply IH in H; [|done]. destruct H. split; [done|congruence].
  - unfold break, ret in H. by injection H as _ <-.
Qed.

(** The token of [scanInt] has at most [argLimit - count] characters. *)
Lemma scanInt_token s v s1 :
  scanInt s = Scanned v s1 → buf s = [] →
  ∃ tok, ParseInt tok = Some v ∧ count s + len tok ≤ Z.max (count s) (argLimit s).
Proof.
  unfold scanInt, bind. intros H Hbuf.
  destruct (SkipSpace s) as [u1 s2| |] eqn:H1; [|done..].
  destruct (notEOF s2) as [u2 s3| |] eqn:H2; [|done..].
  destruct (accept sign s3) as [b s4| |] eqn:H3; [|done..].
  unfold scanNumber, bind in H.
  destruct (notEOF s4) as [u3 s5| |] eqn:H4; [|done..].
  destruct (accept decimalDigits s5) as [ok s6| |] eqn:H5; [|done..].
  destruct ok; cbn [negb] in H; [|done].
  destruct (accept_all decimalDigits s6) as [u4 s7| |] eqn:H6; [|done..].
  destruct (ParseInt (buf s7)) as [i|] eqn:HP; [|done].
  unfold ret in H. injection H as <- <-.
  assert (W0 : within (count s) s) by (unfold within; rewrite Hbuf; unfold len; simpl; split; [lia|by left]).
  apply SkipSpace_adv in H1. apply notEOF_adv in H2. apply notEOF_adv in H4.
  pose proof (within_adv _ _ _ W0 H1) as W2.
  pose proof (within_adv _ _ _ W2 H2) as W3.
  destruct (accept_within _ _ _ _ _ H3 W3) as [W4 A4].
  pose proof (within_adv _ _ _ W4 H4) as W5.
  destruct (accept_within _ _ _ _ _ H5 W5) as [W6 A6].
  destruct (accept_all_within _ _ _ _ H6 W6) as [W7 A7].
  exists (buf s7). split; [done|].
  assert (Hlim : argLimit s7 = argLimit s).
  { destruct H1 as (E1 & _), H2 as (E2 & _), H4 as (E4 & _). congruence. }
  destruct W7 as [Hlen [Hnil|Hc]].
  - rewrite Hnil. unfold len. simpl. lia.
  - lia.
Qed.

Lemma ParseInt_bound tok v :
  ParseInt tok = Some v → - 10 ^ (len tok - 1) < v < 10 ^ len tok.
Proof.
  assert (Hdig : ∀ ds, forallb is_digit ds = true → 0 ≤ digits_value ds < 10 ^ len ds).
  { intros ds H. apply fmt_facts.digits_value_bound. apply Forall_forall.
    intros x Hx. apply list_elem_of_In in Hx.
    by apply (proj1 (forallb_forall _ _) H). }
  assert (Hpow : ∀ n, 0 ≤ n → 10 ^ n < 10 ^ (n + 1) ∧ 0 < 10 ^ n).
  { intros n Hn. rewrite Z.pow_add_r by lia.
    assert (0 < 10 ^ n) by (apply Z.pow_pos_nonneg; lia). lia. }
  assert (Hparse : ∀ (neg : bool) ds w,
    match ds with
    | [] => None
    | _ => if forallb is_digit ds
           then let v := digits_value ds in
                if neg then (if v <=? 2 ^ 63 then Some (- v) else None)
                else (if v <? 2 ^ 63 then Some v else None)
           else None
    end = Some w →
    0 ≤ (if neg then - w else w) < 10 ^ len ds).
  { intros neg ds w. destruct ds as [|d ds]; [done|].
    destruct (forallb is_digit (d :: ds)) eqn:Hf; [|done]. apply Hdig in Hf. cbv zeta.
    destruct neg.
    - destruct (_ <=? _); [|done]. intros [= <-]. lia.
    - destruct (_ <? _); [|done]. by intros [= <-]. }
  unfold ParseInt. destruct tok as [|c rest]; [done|].
  assert (Hl : len (c :: rest) = len rest + 1) by (unfold len; simpl length; lia).
  assert (Hr : 0 ≤ len rest) by (unfold len; lia).
  destruct (Hpow (len rest) Hr) as [Hp1 Hp2].
  destruct (byte_val c =? 43).
  - intros H. apply (Hparse false) in H. rewrite Hl.
    replace (len rest + 1 - 1) with (len rest) by lia. lia.
  - destruct (byte_val c =? 45).
    + intros H. apply (Hparse true) in H. rewrite Hl.
      replace (len rest + 1 - 1) with (len rest) by lia. lia.
    + intros H. apply (Hparse false (c :: rest)) in H. rewrite Hl in *.
      replace (len rest + 1 - 1) with (len rest) by lia. lia.
Qed.

(** A directive ["%<wid>d"] scans a number of at most [wid] characters,
    the sign included. *)
Lemma verb_d_bound wid s v s1 :
  1 ≤ wid → verb_d wid s = Scanned v s1 →
  - 10 ^ (wid - 1) < v < 10 ^ wid.
Proof.
  intros Hwid. unfold verb_d, bind.
  destruct (SkipSpace s) as [u1 s2| |]; [|done..].
  set (s3 := set_buf [] (set_argLimit (Z.min hugeWid (count s2 + wid)) s2)).
  destruct (scanInt s3) as [i s4| |] eqn:Hscan; [|done..].
  unfold ret. intros [= <- _].
  destruct (scanInt_token s3 i s4 Hscan eq_refl) as (tok & HP & Hlen).
  change (count s3) with (count s2) in Hlen.
  change (argLimit s3) with (Z.min hugeWid (count s2 + wid)) in Hlen.
  assert (Htok : len tok ≤ wid) by lia.
  assert (H1 : 1 ≤ len tok).
  { destruct tok; [done|]. unfold len. simpl length. lia. }
  apply ParseInt_bound in HP.
  assert (10 ^ len tok ≤ 10 ^ wid) by (apply Z.pow_le_mono_r; lia).
  assert (10 ^ (len tok - 1) ≤ 10 ^ (wid - 1)) by (apply Z.pow_le_mono_r; lia).
  lia.
Qed.

(** The two numbers of a header, whatever the input. *)
Lemma doScanf_bounds s h s1 :
  doScanf s = (Returns h, s1) →
  -99 ≤ status h ≤ 999 ∧ -9999999 ≤ length_ h ≤ 99999999.
Proof.
  unfold doScanf.
  destruct (verb_d 3 s) as [st s2| |] eqn:H1; [|intros [= <- _]; simpl; lia|done].
  apply verb_d_bound in H1; [|lia].
  assert (Hst : -99 ≤ st ≤ 999) by (change (10 ^ (3 - 1)) with 100 in H1; change (10 ^ 3) with 1000 in H1; lia).
  destruct (advance_space s2) as [u s3| |]; [|intros [= <- _]; simpl; lia|done].
  destruct (verb_d 8 s3) as [ln s4| |] eqn:H2; [|intros [= <- _]; simpl; lia|done].
  apply verb_d_bound in H2; [|lia].
  assert (Hln : -9999999 ≤ ln ≤ 99999999)
    by (change (10 ^ (8 - 1)) with 10000000 in H2; change (10 ^ 8) with 100000000 in H2; lia).
  destruct (advance_newline s4) as [u' s5| |]; [| |done]; intros [= <- _]; simpl; lia.
Qed.

End fmt_bounds.

(** X3.  The widths of the header format bound what a response can be:
    whatever bytes arrive, a response that [ReadResponse] returns has a
    status between -99 and 999 and a body of at most 99999999 bytes, so
    the buffer it allocates never exceeds 100000000 bytes. *)
Theorem ReadResponse_bounds c code body c' :
  ReadResponse c = (Returns (code, Some body), c') →
  -99 ≤ code ≤ 999 ∧ len (bytes body) ≤ 99999999.
Proof.
  unfold ReadResponse, fmt.Fscanf. cbv zeta.
  destruct (fmt.doScanf _) as [r s] eqn:Hscan.
  destruct r as [h| |]; [|done..].
  apply fmt_bounds.doScanf_bounds in Hscan as [Hst Hln].
  destruct (fmt.err h); [done|]. destruct (negb _); [done|].
  destruct (_ <? 0) eqn:Hneg; [done|]. apply Z.ltb_ge in Hneg.
  destruct (conn_Read _ _) as [[d|e] c2]; [|done].
  destruct (negb _) eqn:Hl; [done|]. apply negb_false_iff, Z.eqb_eq in Hl.
  destruct (_ <? 0); [done|]. intros [= <- <- _]. split; [done|].
  unfold len in *. rewrite bytes_str, length_take, length_app, length_replicate. lia.
Qed.

Lemma ReadResponse_bounds_witness :
  ReadResponse (mkConn [bytes "-07 5"; nl :: bytes "hello" ++ [nl]] EndEOF [] [])
  = (Returns (-7, Some "hello"), mkConn [] EndEOF [] []) ∧
  -99 ≤ -7 ≤ 999 ∧ len (bytes "hello") ≤ 99999999.
Proof.
  assert (H : ReadResponse (mkConn [bytes "-07 5"; nl :: bytes "hello" ++ [nl]] EndEOF [] [])
              = (Returns (-7, Some "hello"), mkConn [] EndEOF [] []))
    by (vm_compute; reflexivity).
  split; [exact H|]. exact (ReadResponse_bounds _ _ _ _ H).
Defined.

(** * Headers that do not scan *)

Module fmt_reject.
Import fmt scan.

Lemma plain_facts b :
  plain_char b = true →
  0 ≤ byte_val b < 128 ∧
  indexRune decimalDigits (byte_val b) = false ∧
  indexRune sign (byte_val b) = false ∧
  isSpace (byte_val b) = false ∧
  (byte_val b =? eof) = false ∧
  (byte_val b =? 13) = false ∧
  (byte_val b =? 10) = false.
Proof.
  destruct b as [[] [] [] [] [] [] [] []]; vm_compute; intros H;
    try discriminate H; repeat split; congruence.
Qed.

(** A character that starts no number is looked at and pushed back by
    every step of [scanInt], up to the one that wants a digit. *)
Lemma SkipSpace_plain_rd b r e pk cnt lim buf0 :
  plain_char b = true → pk < 0 → cnt < lim →
  SkipSpace (st (b :: r) e pk cnt lim buf0) = Scanned tt (st r e (byte_val b) cnt lim buf0).
Proof.
  intros Hb Hpk Hlim. destruct (plain_facts b Hb) as ([H0 H1] & _ & _ & Hs & He & Hcr & Hnl).
  unfold SkipSpace, for_. cbn [loop]. unfold SkipSpace_body at 1.
  rewrite (fmt_facts.bind_eq _ _ _ _ _ (fmt_facts.getRune_rd b r e pk cnt lim buf0 H1 Hpk Hlim)).
  rewrite He, Hcr. unfold bind at 1, ret at 1. cbn beta iota.
  rewrite Hnl, Hs. cbn [negb].
  rewrite (fmt_facts.bind_eq _ _ _ _ _
             (fmt_facts.UnreadRune_st _ _ _ _ _ _ (fmt_facts.lnot_neg _ H0))).
  unfold break, ret. rewrite fmt_facts.lnot_lnot. do 2 f_equal. lia.
Qed.

Lemma SkipSpace_plain_peek b r e cnt lim buf0 :
  plain_char b = true → cnt < lim →
  SkipSpace (st r e (byte_val b) cnt lim buf0) = Scanned tt (st r e (byte_val b) cnt lim buf0).
Proof.
  intros Hb Hlim. destruct (plain_facts b Hb) as ([H0 H1] & _ & _ & Hs & He & Hcr & Hnl).
  unfold SkipSpace, for_. cbn [loop]. unfold SkipSpace_body at 1.
  rewrite (fmt_facts.bind_eq _ _ _ _ _ (fmt_facts.getRune_peek r e _ cnt lim buf0 H0 Hlim)).
  rewrite He, Hcr. unfold bind at 1, ret at 1. cbn beta iota.
  rewrite Hnl, Hs. cbn [negb].
  rewrite (fmt_facts.bind_eq _ _ _ _ _
             (fmt_facts.UnreadRune_st _ _ _ _ _ _ (fmt_facts.lnot_neg _ H0))).
  unfold break, ret. rewrite fmt_facts.lnot_lnot. do 2 f_equal. lia.
Qed.

Lemma notEOF_plain b r e cnt lim buf0 :
  plain_char b = true → cnt < lim →
  notEOF (st r e (byte_val b) cnt lim buf0) = Scanned tt (st r e (byte_val b) cnt lim buf0).
Proof.
  intros Hb Hlim. destruct (plain_facts b Hb) as ([H0 H1] & _ & _ & Hs & He & Hcr & Hnl).
  unfold notEOF. rewrite (fmt_facts.getRune_peek r e _ cnt lim buf0 H0 Hlim), He.
  rewrite (fmt_facts.UnreadRune_st _ _ _ _ _ _ (fmt_facts.lnot_neg _ H0)), fmt_facts.lnot_lnot.
  do 2 f_equal. lia.
Qed.

Lemma accept_plain ok b r e cnt lim buf0 :
  plain_char b = true → cnt < lim → indexRune ok (byte_val b) = false →
  accept ok (st r e (byte_val b) cnt lim buf0)
  = Scanned false (st r e (byte_val b) cnt lim buf0).
Proof.
  intros Hb Hlim Hok. destruct (plain_facts b Hb) as ([H0 H1] & _ & _ & Hs & He & Hcr & Hnl).
  unfold accept, consume.
  rewrite (fmt_facts.bind_eq _ _ _ _ _ (fmt_facts.getRune_peek r e _ cnt lim buf0 H0 Hlim)),
    He, Hok.
  rewrite (fmt_facts.bind_eq _ _ _ _ _
             (fmt_facts.UnreadRune_st _ _ _ _ _ _ (fmt_facts.lnot_neg _ H0))),
    fmt_facts.lnot_lnot.
  unfold ret. do 2 f_equal. lia.
Qed.

Lemma bind_fails {A B} (m : scanner A) (k : A → scanner B) s err s1 :
  m s = ScanFails err s1 → bind m k s = ScanFails err s1.
Proof. intros H. unfold bind. by rewrite H. Qed.

Lemma scanInt_plain b r e cnt lim :
  plain_char b = true → cnt < lim →
  ∃ err s, scanInt (st r e (byte_val b) cnt lim []) = ScanFails err s.
Proof.
  intros Hb Hlim. destruct (plain_facts b Hb) as ([H0 H1] & Hd & Hsg & _).
  unfold scanInt.
  rewrite (fmt_facts.bind_eq _ _ _ _ _ (SkipSpace_plain_peek b r e cnt lim [] Hb Hlim)).
  rewrite (fmt_facts.bind_eq _ _ _ _ _ (notEOF_plain b r e cnt lim [] Hb Hlim)).
  rewrite (fmt_facts.bind_eq _ _ _ _ _ (accept_plain sign b r e cnt lim [] Hb Hlim Hsg)).
  eexists _, _. apply bind_fails. unfold scanNumber.
  rewrite (fmt_facts.bind_eq _ _ _ _ _ (notEOF_plain b r e cnt lim [] Hb Hlim)).
  rewrite (fmt_facts.bind_eq _ _ _ _ _ (accept_plain decimalDigits b r e cnt lim [] Hb Hlim Hd)).
  reflexivity.
Qed.

Lemma doScanf_plain b rest e :
  plain_char b = true →
  ∃ err s, doScanf (newScanState (b :: rest) e) = (Returns (mkscanned 0 (Some err) 0 0), s).
Proof.
  intros Hb.
  change (newScanState ?d e) with (st d e (-1) 0 hugeWid []).
  destruct (scanInt_plain b rest e 0 (0 + 3) Hb ltac:(done)) as (err & s & Hscan).
  unfold doScanf, verb_d.
  rewrite (fmt_facts.bind_eq _ _ _ _ _
             (SkipSpace_plain_rd b rest e (-1) 0 hugeWid [] Hb ltac:(done) ltac:(done))).
  rewrite fmt_facts.verb_d_start by done.
  rewrite (bind_fails _ _ _ _ _ Hscan). by eexists _, _.
Qed.

(** A newline where the format has its space. *)
Lemma advance_space_newline_rd r e pk cnt lim buf0 :
  pk < 0 → cnt < lim →
  ∃ err s, advance_space (st (nl :: r) e pk cnt lim buf0) = ScanFails err s.
Proof.
  intros Hpk Hlim. unfold advance_space.
  rewrite (fmt_facts.bind_eq _ _ _ _ _
             (fmt_facts.getRune_rd nl r e pk cnt lim buf0 ltac:(done) Hpk Hlim)).
  change (byte_val nl) with 10. by eexists _, _.
Qed.

Lemma advance_space_newline_peek r e cnt lim buf0 :
  cnt < lim →
  ∃ err s, advance_space (st r e 10 cnt lim buf0) = ScanFails err s.
Proof.
  intros Hlim. unfold advance_space.
  rewrite (fmt_facts.bind_eq _ _ _ _ _
             (fmt_facts.getRune_peek r e 10 cnt lim buf0 ltac:(done) Hlim)).
  by eexists _, _.
Qed.

Lemma doScanf_one_field c ds rest e :
  digit c → Forall digit ds → 1 + len ds ≤ 3 →
  ∃ err s, doScanf (newScanState (c :: ds ++ nl :: rest) e)
           = (Returns (mkscanned 1 (Some err) (digits_value (c :: ds)) 0), s).
Proof.
  intros Hc Hds Hlen.
  assert (Hl0 : 0 ≤ len ds) by (unfold len; lia).
  change (newScanState ?d e) with (st d e (-1) 0 hugeWid []).
  unfold doScanf.
  rewrite (fmt_facts.verb_d_rd 3 c _ e (-1) 0 hugeWid [] Hc ltac:(done) ltac:(done)).
  destruct (decide (1 + len ds = 3)) as [Hfull|Hshort].
  - destruct (fmt_facts.verb_d_width c ds (nl :: rest) e 0 [] 3 Hc Hds Hfull
                ltac:(done) ltac:(lia)) as (pk1 & Hpk1 & ->).
    destruct (advance_space_newline_rd rest e pk1 (0 + 3) hugeWid (c :: ds) Hpk1 ltac:(done))
      as (err & s & ->).
    by eexists _, _.
  - rewrite (fmt_facts.verb_d_newline c ds rest e 0 [] 3 Hc Hds ltac:(lia)
               ltac:(done) ltac:(lia)).
    destruct (advance_space_newline_peek rest e (0 + 1 + len ds) hugeWid (c :: ds))
      as (err & s & ->); [unfold hugeWid; lia|].
    by eexists _, _.
Qed.

End fmt_reject.

Lemma ReadResponse_scan_error c h s :
  fmt.doScanf (fmt.newScanState (concat (incoming c)) (ending c)) = (Returns h, s) →
  fmt.err h ≠ None →
  fst (ReadResponse c) = Returns invalid.
Proof.
  intros Hscan Herr. unfold ReadResponse, fmt.Fscanf. cbv zeta. rewrite Hscan.
  by destruct (fmt.err h).
Qed.

(** X4.  Headers that [ReadResponse] rejects with the sentinel, whatever
    follows them: a stream that ends (or fails) before its first byte;
    a first character that can start no number (an ASCII character that
    is no digit, no sign and no white space); and a status of one to
    three digits followed by a newline, where the length should be. *)
Theorem malformed_header_rejected c :
  (concat (incoming c) = [] → fst (ReadResponse c) = Returns invalid) ∧
  (∀ b rest, concat (incoming c) = b :: rest → plain_char b = true →
             fst (ReadResponse c) = Returns invalid) ∧
  (∀ d ds rest, concat (incoming c) = d :: ds ++ nl :: rest →
                fmt.is_digit d = true → Forall (λ x, fmt.is_digit x = true) ds →
                (length ds ≤ 2)%nat →
                fst (ReadResponse c) = Returns invalid).
Proof.
  split; [|split].
  - intros Hdata. unfold ReadResponse, fmt.Fscanf. cbv zeta. rewrite Hdata.
    by destruct (ending c).
  - intros b rest Hdata Hb.
    destruct (fmt_reject.doScanf_plain b rest (ending c) Hb) as (err & s & Hscan).
    rewrite <- Hdata in Hscan. by apply (ReadResponse_scan_error c _ s Hscan).
  - intros d ds rest Hdata Hd Hds Hlen.
    destruct (fmt_reject.doScanf_one_field d ds rest (ending c) Hd Hds) as (err & s & Hscan).
    { unfold len. lia. }
    rewrite <- Hdata in Hscan. by apply (ReadResponse_scan_error c _ s Hscan).
Qed.

Lemma malformed_header_rejected_witness :
  fst (ReadResponse (mkConn [] EndEOF [] [])) = Returns invalid ∧
  fst (ReadResponse (mkConn [bytes "HTTP/1.1 200 OK"] EndEOF [] [])) = Returns invalid ∧
  fst (ReadResponse (mkConn [bytes "200"; nl :: bytes "hello"] EndEOF [] [])) = Returns invalid.
Proof.
  split; [|split].
  - exact (proj1 (malformed_header_rejected (mkConn [] EndEOF [] [])) eq_refl).
  - exact (proj1 (proj2 (malformed_header_rejected
                           (mkConn [bytes "HTTP/1.1 200 OK"] EndEOF [] [])))
             "H"%char (bytes "TTP/1.1 200 OK") eq_refl eq_refl).
  - apply (proj2 (proj2 (malformed_header_rejected
                           (mkConn [bytes "200"; nl :: bytes "hello"] EndEOF [] [])))
             "2"%char (bytes "00") (bytes "hello"));
      [reflexivity | reflexivity | repeat constructor | simpl; lia].
Defined.

(** * A response that is cut off *)

Module fmt_end.
Import fmt scan scan_end.

Lemma getRune_end e pk cnt lim b :
  pk < 0 → cnt < lim →
  getRune (st [] e pk cnt lim b)
  = match e with
    | EndEOF => Scanned eof (ended e pk cnt lim b)
    | EndError => ScanFails net_error (st [] e pk cnt lim b)
    end.
Proof.
  intros Hpk Hlim. unfold getRune, ReadRune, st; simpl.
  rewrite (proj2 (Z.leb_gt _ _) Hlim).
  unfold readRune_ReadRune; simpl. rewrite (proj2 (Z.leb_gt _ _) Hpk).
  by destruct e.
Qed.

Lemma getRune_atEOF s : atEOF s = true → getRune s = Scanned eof s.
Proof. intros H. unfold getRune, ReadRune. by rewrite H. Qed.

Lemma SkipSpace_atEOF s : atEOF s = true → SkipSpace s = Scanned tt s.
Proof.
  intros H. unfold SkipSpace, for_. cbn [loop]. unfold SkipSpace_body.
  by rewrite (fmt_facts.bind_eq _ _ _ _ _ (getRune_atEOF s H)).
Qed.

Lemma skip_blanks_eof s : skip_blanks eof s = Scanned eof s.
Proof. unfold skip_blanks, for_. reflexivity. Qed.

Lemma verb_d_atEOF wid s :
  atEOF s = true → ∃ err s1, verb_d wid s = ScanFails err s1.
Proof.
  intros H. unfold verb_d.
  rewrite (fmt_facts.bind_eq _ _ _ _ _ (SkipSpace_atEOF s H)).
  unfold bind at 1 2. cbn beta iota.
  set (s1 := set_buf [] (set_argLimit _ s)).
  assert (H1 : atEOF s1 = true) by done.
  eexists _, _. apply fmt_reject.bind_fails. unfold scanInt.
  rewrite (fmt_facts.bind_eq _ _ _ _ _ (SkipSpace_atEOF s1 H1)).
  apply fmt_reject.bind_fails. unfold notEOF.
  by rewrite (getRune_atEOF s1 H1).
Qed.

Lemma advance_space_atEOF s : atEOF s = true → advance_space s = Scanned tt s.
Proof.
  intros H. unfold advance_space.
  rewrite (fmt_facts.bind_eq _ _ _ _ _ (getRune_atEOF s H)).
  change (negb (isSpace eof) && negb (eof =? eof)) with false.
  change (eof =? 10) with false. cbn iota.
  by rewrite (fmt_facts.bind_eq _ _ _ _ _ (skip_blanks_eof s)).
Qed.

Lemma advance_newline_atEOF s : atEOF s = true → advance_newline s = Scanned tt s.
Proof.
  intros H. unfold advance_newline.
  rewrite (fmt_facts.bind_eq _ _ _ _ _ (getRune_atEOF s H)).
  by rewrite (fmt_facts.bind_eq _ _ _ _ _ (skip_blanks_eof _)).
Qed.

(** The directives of the format where the input ends. *)
Lemma advance_space_end e pk cnt lim b :
  pk < 0 → cnt < lim →
  advance_space (st [] e pk cnt lim b)
  = match e with
    | EndEOF => Scanned tt (ended e pk cnt lim b)
    | EndError => ScanFails net_error (st [] e pk cnt lim b)
    end.
Proof.
  intros Hpk Hlim. unfold advance_space. unfold bind at 1.
  rewrite (getRune_end e pk cnt lim b Hpk Hlim). destruct e; [|done].
  change (negb (isSpace eof) && negb (eof =? eof)) with false.
  change (eof =? 10) with false. cbn iota.
  by rewrite (fmt_facts.bind_eq _ _ _ _ _ (skip_blanks_eof _)).
Qed.

Lemma advance_newline_end e pk cnt lim b :
  pk < 0 → cnt < lim →
  advance_newline (st [] e pk cnt lim b)
  = match e with
    | EndEOF => Scanned tt (ended e pk cnt lim b)
    | EndError => ScanFails net_error (st [] e pk cnt lim b)
    end.
Proof.
  intros Hpk Hlim. unfold advance_newline. unfold bind at 1.
  rewrite (getRune_end e pk cnt lim b Hpk Hlim). destruct e; [|done].
  by rewrite (fmt_facts.bind_eq _ _ _ _ _ (skip_blanks_eof _)).
Qed.

Lemma accept_end ok e pk cnt lim b :
  pk < 0 → cnt < lim →
  accept ok (st [] e pk cnt lim b)
  = match e with
    | EndEOF => Scanned false (ended e pk cnt lim b)
    | EndError => ScanFails net_error (st [] e pk cnt lim b)
    end.
Proof.
  intros Hpk Hlim. unfold accept, consume. unfold bind at 1.
  rewrite (getRune_end e pk cnt lim b Hpk Hlim). by destruct e.
Qed.

(** [for s.accept(digits) {}] over digits that the end of the input
    follows. *)
Lemma accept_loop_end ds : ∀ fuel e pk cnt lim b,
  Forall digit ds → pk < 0 → (length ds < fuel)%nat → cnt + len ds < lim →
  ∃ pk', pk' < 0 ∧
    loop fuel accept_body tt (st ds e pk cnt lim b)
    = match e with
      | EndEOF => Scanned tt (ended e pk' (cnt + len ds) lim (b ++ ds))
      | EndError => ScanFails net_error (st [] e pk' (cnt + len ds) lim (b ++ ds))
      end.
Proof.
  induction ds as [|c ds IH]; intros fuel e pk cnt lim b Hds Hpk Hfuel Hlim.
  - destruct fuel as [|fuel]; [simpl in Hfuel; lia|].
    exists pk. split; [done|]. cbn [loop]. unfold accept_body. unfold bind at 1.
    rewrite (accept_end _ e pk cnt lim b Hpk ltac:(unfold len in Hlim; simpl in Hlim; lia)).
    rewrite app_nil_r. replace (cnt + len []) with cnt by (unfold len; simpl; lia).
    by destruct e.
  - destruct fuel as [|fuel]; [simpl in Hfuel; lia|].
    apply Forall_cons in Hds as [Hc Hds].
    assert (Hlt : cnt < lim) by (unfold len in Hlim; simpl length in Hlim; lia).
    destruct (fmt_facts.digit_facts c Hc) as ([H0 H1] & _).
    destruct (IH fuel e (Z.lnot (byte_val c)) (cnt + 1) lim (b ++ [c]) Hds
                (fmt_facts.lnot_neg _ H0) ltac:(simpl in Hfuel; lia)
                ltac:(unfold len in *; simpl length in Hlim; lia)) as (pk' & Hpk' & IH').
    exists pk'. split; [done|]. cbn [loop]. unfold accept_body at 1.
    rewrite (fmt_facts.bind_eq _ _ _ _ _ (fmt_facts.accept_digit_rd c _ e pk cnt lim b Hc Hpk Hlt)).
    unfold continue, ret. rewrite IH'. rewrite <- app_assoc.
    replace (cnt + 1 + len ds) with (cnt + len (c :: ds))
      by (unfold len; simpl length; lia).
    done.
Qed.

Lemma scanInt_end c ds e cnt lim :
  digit c → Forall digit ds → cnt + 1 + len ds < lim → len ds < 18 →
  ∃ pk', pk' < 0 ∧
    scanInt (st ds e (byte_val c) cnt lim [])
    = match e with
      | EndEOF => Scanned (digits_value (c :: ds))
                    (ended e pk' (cnt + 1 + len ds) lim (c :: ds))
      | EndError => ScanFails net_error (st [] e pk' (cnt + 1 + len ds) lim (c :: ds))
      end.
Proof.
  intros Hc Hds Hlim Hlen.
  assert (Hd0 : 0 ≤ len ds) by (unfold len; lia).
  assert (Hlt : cnt < lim) by lia.
  destruct (fmt_facts.digit_facts c Hc) as ([H0 H1] & _).
  destruct (accept_loop_end ds (S (S (pot (st ds e (Z.lnot (byte_val c)) (cnt + 1) lim [c]))))
              e (Z.lnot (byte_val c)) (cnt + 1) lim [c] Hds (fmt_facts.lnot_neg _ H0))
    as (pk' & Hpk' & Hloop).
  { pose proof (fmt_facts.pot_ge ds e (Z.lnot (byte_val c)) (cnt + 1) lim [c]). lia. }
  { lia. }
  exists pk'. split; [done|]. unfold scanInt.
  rewrite (fmt_facts.bind_eq _ _ _ _ _ (fmt_facts.SkipSpace_digit_peek c _ e cnt lim [] Hc Hlt)).
  rewrite (fmt_facts.bind_eq _ _ _ _ _ (fmt_facts.notEOF_peek c _ e cnt lim [] Hc Hlt)).
  rewrite (fmt_facts.bind_eq _ _ _ _ _ (fmt_facts.accept_sign_peek c _ e cnt lim [] Hc Hlt)).
  assert (Hnum : scanNumber decimalDigits (st ds e (byte_val c) cnt lim [])
                 = match e with
                   | EndEOF => Scanned (c :: ds) (ended e pk' (cnt + 1 + len ds) lim (c :: ds))
                   | EndError => ScanFails net_error
                                   (st [] e pk' (cnt + 1 + len ds) lim (c :: ds))
                   end).
  { unfold scanNumber.
    rewrite (fmt_facts.bind_eq _ _ _ _ _ (fmt_facts.notEOF_peek c _ e cnt lim [] Hc Hlt)).
    rewrite (fmt_facts.bind_eq _ _ _ _ _ (fmt_facts.accept_digit_peek c _ e cnt lim [] Hc Hlt)).
    cbn [negb app]. unfold accept_all, for_.
    change (λ _ : (), bind (accept decimalDigits) _) with accept_body.
    unfold bind at 1. rewrite Hloop. by destruct e. }
  unfold bind at 1. rewrite Hnum. destruct e; [|done].
  by rewrite (fmt_facts.ParseInt_digits c ds Hc Hds Hlen).
Qed.

Lemma verb_d_end c ds e cnt b0 wid :
  digit c → Forall digit ds → 1 + len ds < wid → cnt + wid ≤ hugeWid → len ds < 18 →
  ∃ pk', pk' < 0 ∧
    verb_d wid (st ds e (byte_val c) cnt hugeWid b0)
    = match e with
      | EndEOF => Scanned (digits_value (c :: ds))
                    (ended e pk' (cnt + 1 + len ds) hugeWid (c :: ds))
      | EndError => ScanFails net_error
                      (st [] e pk' (cnt + 1 + len ds) (cnt + wid) (c :: ds))
      end.
Proof.
  intros Hc Hds Hwid Hw Hlen.
  assert (Hd0 : 0 ≤ len ds) by (unfold len; lia).
  assert (Hlt : cnt < hugeWid) by lia.
  destruct (scanInt_end c ds e cnt (cnt + wid) Hc Hds ltac:(lia) Hlen)
    as (pk' & Hpk' & Hscan).
  exists pk'. split; [done|]. unfold verb_d.
  rewrite (fmt_facts.bind_eq _ _ _ _ _ (fmt_facts.SkipSpace_digit_peek c _ e cnt hugeWid b0 Hc Hlt)).
  rewrite fmt_facts.verb_d_start by done.
  unfold bind at 1. rewrite Hscan. by destruct e.
Qed.

(** The loop of [advance] over blanks that the end of the input
    follows. *)
Lemma blanks_loop_end j : ∀ fuel e pk cnt lim b,
  pk < 0 → (S j < fuel)%nat → cnt + Z.of_nat j < lim →
  ∃ pk', pk' < 0 ∧
    loop fuel blanks_body 32 (st (replicate j sp) e pk cnt lim b)
    = match e with
      | EndEOF => Scanned eof (ended e pk' (cnt + Z.of_nat j) lim b)
      | EndError => ScanFails net_error (st [] e pk' (cnt + Z.of_nat j) lim b)
      end.
Proof.
  induction j as [|j IH]; intros fuel e pk cnt lim b Hpk Hfuel Hlim.
  - destruct fuel as [|[|fuel]]; [lia..|]. exists pk. split; [done|].
    cbn [loop replicate]. unfold blanks_body at 1.
    change (isSpace 32 && negb (32 =? 10)) with true. cbn iota.
    unfold bind at 1. rewrite (getRune_end e pk cnt lim b Hpk ltac:(lia)).
    replace (cnt + Z.of_nat 0) with cnt by lia. by destruct e.
  - destruct fuel as [|fuel]; [lia|].
    destruct (IH fuel e (Z.lnot 32) (cnt + 1) lim b ltac:(done) ltac:(lia) ltac:(lia))
      as (pk' & Hpk' & IH').
    exists pk'. split; [done|].
    cbn [loop replicate]. unfold blanks_body at 1.
    change (isSpace 32 && negb (32 =? 10)) with true. cbn iota.
    rewrite (fmt_facts.bind_eq _ _ _ _ _
               (fmt_facts.getRune_rd sp _ e pk cnt lim b ltac:(done) Hpk ltac:(lia))).
    unfold ret at 1. change (byte_val sp) with 32. rewrite IH'.
    replace (cnt + 1 + Z.of_nat j) with (cnt + Z.of_nat (S j)) by lia. done.
Qed.

Lemma advance_space_blanks_end j e pk cnt lim b :
  pk < 0 → cnt + 1 + Z.of_nat j < lim →
  ∃ pk', pk' < 0 ∧
    advance_space (st (sp :: replicate j sp) e pk cnt lim b)
    = match e with
      | EndEOF => Scanned tt (ended e pk' (cnt + 1 + Z.of_nat j) lim b)
      | EndError => ScanFails net_error (st [] e pk' (cnt + 1 + Z.of_nat j) lim b)
      end.
Proof.
  intros Hpk Hlim.
  destruct (blanks_loop_end j (S (S (pot (st (replicate j sp) e (Z.lnot 32) (cnt + 1) lim b))))
              e (Z.lnot 32) (cnt + 1) lim b ltac:(done)) as (pk' & Hpk' & Hloop).
  { pose proof (fmt_facts.pot_ge (replicate j sp) e (Z.lnot 32) (cnt + 1) lim b) as Hp.
    rewrite length_replicate in Hp. lia. }
  { lia. }
  exists pk'. split; [done|]. unfold advance_space.
  rewrite (fmt_facts.bind_eq _ _ _ _ _
             (fmt_facts.getRune_rd sp _ e pk cnt lim b ltac:(done) Hpk ltac:(lia))).
  change (byte_val sp) with 32.
  change (negb (isSpace 32) && negb (32 =? eof)) with false.
  change (32 =? 10) with false. cbn iota.
  unfold skip_blanks, for_.
  change (λ c0 : Z, if isSpace c0 && negb (c0 =? 10) then _ else _) with blanks_body.
  unfold bind at 1. rewrite Hloop. by destruct e.
Qed.

(** *** The scan of a header that is cut off *)

Lemma stops_fails h s : err h ≠ None → stops (Returns h, s).
Proof. intros H. exists h, s. split; [done|by left]. Qed.

Lemma doScanf_nothing e : stops (doScanf (newScanState [] e)).
Proof. destruct e; by apply stops_fails. Qed.

(** Cut in the status, or right after it. *)
Lemma doScanf_status_end c ds e :
  digit c → Forall digit ds → 1 + len ds ≤ 3 →
  stops (doScanf (newScanState (c :: ds) e)).
Proof.
  intros Hc Hds Hlen.
  assert (Hd0 : 0 ≤ len ds) by (unfold len; lia).
  change (newScanState ?d e) with (st d e (-1) 0 hugeWid []).
  unfold doScanf.
  rewrite (fmt_facts.verb_d_rd 3 c _ e (-1) 0 hugeWid [] Hc ltac:(done) ltac:(done)).
  destruct (decide (1 + len ds = 3)) as [Hfull|Hshort].
  - destruct (fmt_facts.verb_d_width c ds [] e 0 [] 3 Hc Hds Hfull ltac:(done) ltac:(lia))
      as (pk1 & Hpk1 & Hv).
    rewrite app_nil_r in Hv. rewrite Hv.
    rewrite (advance_space_end e pk1 (0 + 3) hugeWid (c :: ds) Hpk1 ltac:(done)).
    destruct e; [|by apply stops_fails].
    destruct (verb_d_atEOF 8 (ended EndEOF pk1 (0 + 3) hugeWid (c :: ds)) eq_refl)
      as (err & s1 & ->).
    by apply stops_fails.
  - destruct (verb_d_end c ds e 0 [] 3 Hc Hds ltac:(lia) ltac:(done) ltac:(lia))
      as (pk1 & Hpk1 & ->).
    destruct e; [|by apply stops_fails].
    rewrite (advance_space_atEOF (ended EndEOF pk1 (0 + 1 + len ds) hugeWid (c :: ds)) eq_refl).
    destruct (verb_d_atEOF 8 (ended EndEOF pk1 (0 + 1 + len ds) hugeWid (c :: ds)) eq_refl)
      as (err & s1 & ->).
    by apply stops_fails.
Qed.

(** Cut in the blanks between the two numbers. *)
Lemma doScanf_blanks_end c1 zs j e :
  digit c1 → Forall digit zs → 1 + len zs = 3 → (j ≤ 8)%nat →
  stops (doScanf (newScanState (c1 :: zs ++ sp :: replicate j sp) e)).
Proof.
  intros Hc1 Hzs Hl1 Hj.
  change (newScanState ?d e) with (st d e (-1) 0 hugeWid []).
  unfold doScanf.
  rewrite (fmt_facts.verb_d_rd 3 c1 _ e (-1) 0 hugeWid [] Hc1 ltac:(done) ltac:(done)).
  destruct (fmt_facts.verb_d_width c1 zs (sp :: replicate j sp) e 0 [] 3 Hc1 Hzs Hl1
              ltac:(done) ltac:(lia)) as (pk1 & Hpk1 & ->).
  destruct (advance_space_blanks_end j e pk1 (0 + 3) hugeWid (c1 :: zs) Hpk1)
    as (pk2 & Hpk2 & ->); [unfold hugeWid; lia|].
  destruct e; [|by apply stops_fails].
  destruct (verb_d_atEOF 8 (ended EndEOF pk2 (0 + 3 + 1 + Z.of_nat j) hugeWid (c1 :: zs))
              eq_refl) as (err & s1 & ->).
  by apply stops_fails.
Qed.

(** Cut in the length, or right after it: the digits read so far are
    taken for the length. *)
Lemma doScanf_length_end c1 zs n c2 ds e :
  digit c1 → Forall digit zs → 1 + len zs = 3 →
  digit c2 → Forall digit ds → Z.of_nat n + 1 + len ds ≤ 8 →
  stops (doScanf (newScanState (c1 :: zs ++ sp :: replicate n sp ++ c2 :: ds) e)).
Proof.
  intros Hc1 Hzs Hl1 Hc2 Hds Hl2.
  assert (Hd0 : 0 ≤ len ds) by (unfold len; lia).
  assert (Hhuge : hugeWid = 1073741824) by reflexivity.
  change (newScanState ?d e) with (st d e (-1) 0 hugeWid []).
  unfold doScanf.
  rewrite (fmt_facts.verb_d_rd 3 c1 _ e (-1) 0 hugeWid [] Hc1 ltac:(done) ltac:(done)).
  destruct (fmt_facts.verb_d_width c1 zs (sp :: replicate n sp ++ c2 :: ds) e 0 [] 3
              Hc1 Hzs Hl1 ltac:(done) ltac:(lia)) as (pk1 & Hpk1 & ->).
  rewrite (fmt_facts.advance_space_blanks n c2 ds e pk1 (0 + 3) hugeWid (c1 :: zs)
             Hc2 Hpk1 ltac:(lia)).
  pose proof (fmt_facts.digits_value_bound (c2 :: ds) ltac:(by constructor)) as [Hv0 _].
  destruct (decide (1 + len ds = 8)) as [Hfull|Hshort].
  - destruct (fmt_facts.verb_d_width c2 ds [] e (0 + 3 + 1 + Z.of_nat n) (c1 :: zs) 8
                Hc2 Hds Hfull ltac:(lia) ltac:(lia)) as (pk2 & Hpk2 & Hv).
    rewrite app_nil_r in Hv. rewrite Hv.
    rewrite (advance_newline_end e pk2 (0 + 3 + 1 + Z.of_nat n + 8) hugeWid (c2 :: ds)
               Hpk2 ltac:(lia)).
    destruct e; [|by apply stops_fails].
    eexists _, _. split; [done|]. right. by repeat split.
  - destruct (verb_d_end c2 ds e (0 + 3 + 1 + Z.of_nat n) (c1 :: zs) 8 Hc2 Hds
                ltac:(lia) ltac:(lia) ltac:(lia)) as (pk2 & Hpk2 & ->).
    destruct e; [|by apply stops_fails].
    rewrite (advance_newline_atEOF
               (ended EndEOF pk2 (0 + 3 + 1 + Z.of_nat n + 1 + len ds) hugeWid (c2 :: ds)) eq_refl).
    eexists _, _. split; [done|]. right. by repeat split.
Qed.

Lemma prefix_of_replicate {A} (x : A) n l l' :
  replicate n x = l ++ l' → l = replicate (length l) x ∧ (length l ≤ n)%nat.
Proof.
  intros H. assert (Hlen : (length l ≤ n)%nat).
  { apply (f_equal length) in H. rewrite length_replicate, length_app in H. lia. }
  split; [|done].
  transitivity (take (length l) (replicate n x)).
  - by rewrite H, take_app_length.
  - rewrite take_replicate. f_equal. lia.
Qed.

(** Every proper prefix of a header of the printed shape. *)
Lemma doScanf_cut c1 zs n c2 ds e p q :
  digit c1 → Forall digit zs → 1 + len zs = 3 →
  digit c2 → Forall digit ds → Z.of_nat n + 1 + len ds = 8 →
  p ++ q = (c1 :: zs) ++ (sp :: replicate n sp) ++ (c2 :: ds) ++ [nl] →
  q ≠ [] →
  stops (doScanf (newScanState p e)).
Proof.
  intros Hc1 Hzs Hl1 Hc2 Hds Hl2 Heq Hq.
  assert (Hd0 : 0 ≤ len ds) by (unfold len; lia).
  apply app_eq_app in Heq as [l [[-> Heq]|[HS _]]].
  2:{ (* in the status *)
      destruct p as [|c p]; [apply doScanf_nothing|].
      injection HS as <- ->. apply Forall_app in Hzs as [Hp _].
      apply doScanf_status_end; [done..|].
      unfold len in *. rewrite length_app in Hl1. lia. }
  symmetry in Heq. apply app_eq_app in Heq as [l2 [[-> Heq]|[HB _]]].
  2:{ (* in the blanks *)
      destruct l as [|x l].
      - rewrite app_nil_r. apply doScanf_status_end; [done..|].
        by apply Z.eq_le_incl.
      - injection HB as <- HB. apply prefix_of_replicate in HB as [Hl Hj].
        rewrite Hl. cbn [app]. apply doScanf_blanks_end; [done..|]. lia. }
  symmetry in Heq. apply app_eq_app in Heq as [l3 [[-> Heq]|[HD _]]].
  - (* the newline is missing *)
    destruct l3 as [|x l3].
    + rewrite app_nil_r. cbn [app].
      apply doScanf_length_end; [done..|lia].
    + injection Heq as _ Heq. destruct l3; destruct q; done.
  - (* in the length *)
    destruct l2 as [|x l2].
    + rewrite app_nil_r. cbn [app]. apply doScanf_blanks_end; [done..|lia].
    + injection HD as <- ->. apply Forall_app in Hds as [Hp _].
      cbn [app]. apply doScanf_length_end; [done..|].
      unfold len in *. rewrite length_app in Hl2. lia.
Qed.

End fmt_end.

Lemma conn_Read_le n c d c' :
  conn_Read n c = (inl d, c') → (length d ≤ length (concat (incoming c)))%nat.
Proof.
  unfold conn_Read. destruct n as [|n]; [intros [= <- _]; simpl; lia|].
  generalize (incoming c). intros segs.
  destruct (take_segment (S n) segs) as [[d0 rest]|] eqn:Ht; [|done].
  intros [= <- _]. revert Ht.
  induction segs as [|seg segs IH]; [done|]. cbn [take_segment concat].
  destruct seg as [|x seg].
  - intros H. apply IH in H. simpl. lia.
  - intros [= <- _]. simpl. rewrite length_app, length_take. lia.
Qed.

(** A scan that stops at the end of the input gives no response. *)
Lemma ReadResponse_stops c :
  scan_end.stops (fmt.doScanf (fmt.newScanState (concat (incoming c)) (ending c))) →
  fst (ReadResponse c) = Returns invalid.
Proof.
  intros (h & s & Hscan & Hcase).
  destruct Hcase as [Herr|(Hh & Hlen & Hrd)].
  { by apply (ReadResponse_scan_error c h s). }
  unfold ReadResponse, fmt.Fscanf. cbv zeta. rewrite Hscan, Hrd, Hh.
  destruct (fmt.err h); [done|]. cbn [negb Z.eqb Pos.eqb].
  destruct (_ <? 0) eqn:E; [apply Z.ltb_lt in E; lia|].
  cbn [length]. rewrite Nat.sub_0_r.
  set (c1 := read_bytes (length (concat (incoming c))) c).
  assert (Hend : concat (incoming c1) = []).
  { unfold c1. rewrite read_bytes_concat. apply drop_all. }
  unfold conn_Read. rewrite (take_segment_none _ _ Hend).
  destruct (Z.to_nat (fmt.length_ h + 1)) eqn:Hn; [lia|done].
Qed.

(** X5.  A response that is cut off is never taken for a response: when
    the stream ends, with [io.EOF] or with an error, anywhere before the
    last byte of a response as a server prints it (in the header, in
    the body, before the terminator), [ReadResponse] returns the
    sentinel, however the bytes are cut into segments.  No truncated
    body is returned, and a header cut in its length field, which scans
    as a smaller length, is caught by the read that follows. *)
Theorem truncated_response_rejected c status body t p q :
  0 ≤ status ≤ 999 →
  len (bytes body) ≤ 99999999 →
  p ++ q = fmt.Sprintf_header status (len (bytes body)) ++ bytes body ++ [t] →
  q ≠ [] →
  concat (incoming c) = p →
  fst (ReadResponse c) = Returns invalid.
Proof.
  intros Hs Hl Heq Hq Hdata.
  set (size := len (bytes body)) in *.
  assert (Hsize : 0 ≤ size ≤ 99999999) by (unfold size, len in *; lia).
  apply app_eq_app in Heq as [l [[Hp Hbody]|[Hhdr Hrest]]].
  - (* the header is there, the rest is short *)
    rewrite Hp in Hdata.
    pose proof (Fscanf_printed status size l c Hs Hsize Hdata) as Hscan.
    destruct (ReadResponse_spec c _ _ Hscan) as [_ H].
    specialize (H eq_refl eq_refl (proj1 Hsize)). cbn [fmt.length_ fmt.status] in H.
    set (c1 := read_bytes (length (fmt.Sprintf_header status size)) c) in *.
    assert (Hc1 : concat (incoming c1) = l).
    { unfold c1. by rewrite read_bytes_concat, Hdata, drop_app_length. }
    assert (Hshort : (length l < Z.to_nat (size + 1))%nat).
    { apply (f_equal length) in Hbody. rewrite !length_app in Hbody. simpl in Hbody.
      assert (length q ≠ 0%nat) by (by destruct q).
      unfold size, len. lia. }
    destruct (conn_Read (Z.to_nat (size + 1)) c1) as [[d|e'] c2] eqn:Hread.
    + apply conn_Read_le in Hread. rewrite Hc1 in Hread.
      assert (Hne : (len d =? size + 1) = false).
      { apply Z.eqb_neq. unfold len. lia. }
      rewrite Hne in H. by rewrite H.
    + by rewrite H.
  - (* the header is cut *)
    destruct l as [|x l].
    { (* exactly the header: the first case, with nothing after it *)
      rewrite app_nil_r in Hhdr. subst p.
      assert (Hdata' : concat (incoming c) = fmt.Sprintf_header status size ++ [])
        by by rewrite app_nil_r.
      pose proof (Fscanf_printed status size [] c Hs Hsize Hdata') as Hscan.
      destruct (ReadResponse_spec c _ _ Hscan) as [_ H].
      specialize (H eq_refl eq_refl (proj1 Hsize)). cbn [fmt.length_ fmt.status] in H.
      set (c1 := read_bytes (length (fmt.Sprintf_header status size)) c) in *.
      assert (Hc1 : concat (incoming c1) = []).
      { unfold c1. rewrite read_bytes_concat, Hdata'. by rewrite drop_app_length. }
      unfold conn_Read in H. rewrite (take_segment_none _ _ Hc1) in H.
      destruct (Z.to_nat (size + 1)) eqn:Hn; [lia|]. by rewrite H. }
    apply ReadResponse_stops. rewrite Hdata.
    destruct (fmt_facts.fmt_status_shape status Hs) as (c1 & zs & Hst & Hc1 & Hzs & Hl1 & _).
    destruct (fmt_facts.fmt_length_shape size Hsize)
      as (n & c2 & ds & Hln & Hc2 & Hds & Hl2 & _).
    apply (fmt_end.doScanf_cut c1 zs n c2 ds (ending c) p (x :: l)); try done.
    rewrite <- Hhdr. unfold fmt.Sprintf_header. rewrite Hst, Hln.
    change (bytes " ") with [scan.sp]. change (ascii_of_nat 10) with nl.
    cbn [app]. by rewrite <- !app_assoc.
Qed.

Lemma truncated_response_rejected_witness :
  fst (ReadResponse (mkConn [bytes "200      "; bytes " 1"] EndEOF [] [])) = Returns invalid.
Proof.
  apply (truncated_response_rejected _ 200 "0123456789abcdef" nl
           (bytes "200       1") (bytes "6" ++ nl :: bytes "0123456789abcdef" ++ [nl]));
    [lia | vm_compute; discriminate | reflexivity | discriminate | reflexivity].
Defined.

(** * The digest and its hexadecimal form *)

Lemma round_length st kw : length (sha256.round st kw) = length st.
Proof.
  unfold sha256.round.
  by destruct st as [|a [|b [|c [|d [|e [|f [|g [|h [|? ?]]]]]]]]].
Qed.

Lemma rounds_length kws : ∀ st, length (fold_left sha256.round kws st) = length st.
Proof.
  induction kws as [|kw kws IH]; intros st; simpl; [done|].
  by rewrite IH, round_length.
Qed.

Lemma block_length h chunk : length (sha256.block h chunk) = length h.
Proof.
  unfold sha256.block. rewrite length_zip_with, rounds_length. lia.
Qed.

Lemma absorb_length p : ∀ x h, length (sha256.absorb p x h) = length h.
Proof.
  induction p as [|b p IH]; intros x h; simpl; [done|].
  destruct (_ =? _)%nat; rewrite IH; [apply block_length|done].
Qed.

Lemma be_words_length h :
  length (concat (map (sha256.be_bytes 4) h)) = (4 * length h)%nat.
Proof.
  induction h as [|v h IH]; [done|].
  cbn [map concat]. rewrite length_app, IH.
  unfold sha256.be_bytes. rewrite length_map, length_rev, length_seq. simpl. lia.
Qed.

(** A digest has 32 bytes, whatever the message. *)
Lemma Sum256_length data : length (sha256.Sum256 data) = 32%nat.
Proof.
  unfold sha256.Sum256. cbv zeta.
  by rewrite length_map, be_words_length, absorb_length.
Qed.

Lemma hex_digit_ok b :
  hex_digit (hex.digit (Z.shiftr (byte_val b) 4)) ∧
  hex_digit (hex.digit (Z.land (byte_val b) 0x0f)).
Proof.
  unfold hex_digit.
  destruct b as [[] [] [] [] [] [] [] []]; split; vm_compute;
    repeat (first [apply list_elem_of_here | apply list_elem_of_further]).
Qed.

Lemma EncodeToString_digits src :
  length (bytes (hex.EncodeToString src)) = (2 * length src)%nat ∧
  Forall hex_digit (bytes (hex.EncodeToString src)).
Proof.
  unfold hex.EncodeToString. rewrite bytes_str.
  induction src as [|b src [IH1 IH2]]; [by split|].
  cbn [flat_map app length]. split; [rewrite IH1; lia|].
  destruct (hex_digit_ok b) as [Hhi Hlo]. by repeat apply Forall_cons_2.
Qed.

(** The argument of [auth]: 64 hexadecimal digits. *)
Lemma auth_hex_digits secret challenge :
  length (bytes (auth_hex secret challenge)) = 64%nat ∧
  Forall hex_digit (bytes (auth_hex secret challenge)).
Proof.
  unfold auth_hex.
  destruct (EncodeToString_digits
              (sha256.Sum256 (bytes challenge ++ [nl] ++ secret ++ bytes challenge ++ [nl])))
    as [H1 H2].
  by rewrite Sum256_length in H1.
Qed.

(** * What the handshake writes *)

Lemma Send_written cmd args c :
  written (snd (Send cmd args c))
  = written c ++ [(bytes (Join (cmd :: args) " " +:+ newline),
                   bool_decide (fst (Send cmd args c) = None))].
Proof. unfold Send. apply conn_Write_written. Qed.

Lemma CommandForSuccess_written cmd args c :
  written (snd (CommandForSuccess cmd args c))
  = written c ++ [(bytes (Join (cmd :: args) " " +:+ newline),
                   bool_decide (fst (Send cmd args c) = None))].
Proof.
  unfold CommandForSuccess. pose proof (Send_written cmd args c) as HS.
  destruct (Send cmd args c) as [[e|] c1]; cbn [fst snd] in *; [done|].
  destruct (ReadResponse_frame c1) as (_ & _ & HR).
  by destruct (ReadResponse c1) as [[[code resp]| |] c2]; cbn [snd] in *; rewrite HR.
Qed.

(** X6.  The handshake writes to the connection at most once, and only
    after a greeting with status 107; what it writes is the line [auth],
    a space, 64 hexadecimal digits and a newline, 70 bytes in all. *)
Theorem handshake_writes cfg c :
  (snd (fst (handshake cfg c)) = Returns NoPrompt →
   written (snd (handshake cfg c)) = written c) ∧
  (written (snd (handshake cfg c)) = written c ∨
   ∃ h ok, written (snd (handshake cfg c))
           = written c ++ [(bytes "auth " ++ h ++ [nl], ok)] ∧
           length h = 64%nat ∧ Forall hex_digit h).
Proof.
  unfold handshake. destruct (ReadResponse_frame c) as (_ & _ & HR).
  destruct (ReadResponse c) as [[[code resp]| |] c1]; cbn [fst snd] in *;
    try (split; [done|by left]).
  destruct (negb (code =? 107)); cbn [fst snd]; [split; [done|by left]|].
  destruct resp as [body|]; cbn [deref obind]; [|split; [done|by left]].
  rewrite auth_response_hex.
  set (h := auth_hex (secret cfg) (first_line body)).
  pose proof (CommandForSuccess_written "auth" [h] c1) as HW.
  destruct (auth_hex_digits (secret cfg) (first_line body)) as [Hlen Hdig]. fold h in Hlen, Hdig.
  assert (Hline : bytes (Join ["auth"; h] " " +:+ newline) = bytes "auth " ++ bytes h ++ [nl]).
  { cbn [Join]. by rewrite !bytes_app. }
  rewrite Hline, HR in HW.
  destruct (CommandForSuccess "auth" [h] c1) as [[ok| |] c2]; cbn [fst snd] in *.
  - split; [by destruct ok|]. right. eexists (bytes h), _. by rewrite HW.
  - split; [done|]. right. eexists (bytes h), _. by rewrite HW.
  - split; [done|]. right. eexists (bytes h), _. by rewrite HW.
Qed.

(** * The panics of a run *)

Lemma Fscanf_returns c : ∃ h, fst (fmt.Fscanf c) = Returns h ∨ fst (fmt.Fscanf c) = OutOfFuel.
Proof.
  unfold fmt.Fscanf. cbv zeta.
  destruct (fmt.doScanf _) as [r s] eqn:Hscan. cbn [fst].
  unfold fmt.doScanf in Hscan.
  repeat match type of Hscan with
         | context [match ?x with _ => _ end] => destruct x
         end; injection Hscan as <- _; eauto.
  Unshelve. all: exact (fmt.mkscanned 0 None 0 0).
Qed.

(** A response without body comes with the sentinel code. *)
Lemma ReadResponse_nil c code c' :
  ReadResponse c = (Returns (code, None), c') → code = -1.
Proof.
  unfold ReadResponse.
  destruct (fmt.Fscanf c) as [[h| |] c1]; [|done..].
  destruct (fmt.err h); [by intros [= <- _]|].
  destruct (negb _); [by intros [= <- _]|].
  destruct (_ <? 0); [done|].
  destruct (conn_Read _ c1) as [[d|e] c2]; [|by intros [= <- _]].
  cbv zeta. destruct (negb _); [by intros [= <- _]|]. by destruct (_ <? 0).
Qed.

Lemma ReadResponse_panics c msg :
  fst (ReadResponse c) = Panics msg → msg = makeslice_panic ∨ msg = slice_panic.
Proof.
  unfold ReadResponse. destruct (Fscanf_returns c) as [h0 H].
  destruct (fmt.Fscanf c) as [[h| |] c1]; cbn [fst] in *; [|by destruct H|done].
  destruct (fmt.err h); [done|]. destruct (negb _); [done|].
  destruct (_ <? 0); [intros [= <-]; by left|].
  destruct (conn_Read _ c1) as [[d|e] c2]; [|done].
  cbv zeta. destruct (negb _); [done|].
  destruct (_ <? 0); [intros [= <-]; by right|done].
Qed.

Lemma scan_line_panics cfg t a msg :
  scan_line cfg t a = Panics msg → msg = index_panic.
Proof.
  unfold scan_line. destruct (HasPrefix _ _); [done|].
  assert (Hh : ∀ m, is_healthy (Fields t) = Panics m → m = index_panic).
  { unfold is_healthy, index. intros m.
    destruct (Fields t !! 1%nat); cbn [obind]; [|by intros [= <-]].
    destruct (bool_decide _); [|done].
    destruct (Fields t !! 2%nat); cbn [obind]; [done|by intros [= <-]]. }
  destruct (directorRegexp cfg) as [re|].
  - unfold index at 1. destruct (Fields t !! 0%nat); cbn [obind]; [|by intros [= <-]].
    destruct (is_healthy (Fields t)) as [[]|m|] eqn:E; cbn [obind]; try done.
    intros [= <-]. by apply Hh.
  - destruct (is_healthy (Fields t)) as [[]|m|] eqn:E; cbn [obind]; try done.
    intros [= <-]. by apply Hh.
Qed.

Lemma scan_lines_panics cfg lines : ∀ a msg,
  scan_lines cfg lines a = Panics msg → msg = index_panic.
Proof.
  induction lines as [|t lines IH]; intros a msg; simpl; [done|].
  destruct (scan_line cfg t a) as [a'|m|] eqn:E; cbn [obind]; [apply IH| |done].
  intros [= <-]. by apply scan_line_panics in E.
Qed.

Ltac known_events :=
  repeat first [apply Forall_nil_2 | apply Forall_cons_2]; try exact I.

Lemma handshake_panics cfg c : Forall (known_panic cfg) (fst (fst (handshake cfg c))).
Proof.
  unfold handshake.
  pose proof (ReadResponse_panics c) as HP.
  destruct (ReadResponse c) as [[[code resp]| |] c1] eqn:HR; cbn [fst snd] in *.
  - destruct (negb (code =? 107)) eqn:Hc; cbn [fst]; [known_events|].
    destruct resp as [body|]; cbn [deref obind].
    + rewrite auth_response_hex. unfold CommandForSuccess.
      destruct (Send "auth" _ c1) as [[e|] c1']; cbn [fst]; [known_events|].
      pose proof (ReadResponse_panics c1') as HP2.
      destruct (ReadResponse c1') as [[[code' resp']| |] c2]; cbn [fst] in *;
        known_events.
      simpl. destruct (HP2 _ eq_refl); auto.
    + apply ReadResponse_nil in HR. by subst code.
  - known_events. simpl. destruct (HP _ eq_refl); auto.
  - known_events.
Qed.

Lemma poll_panics n cfg : ∀ c g, Forall (known_panic cfg) (fst (fst (poll n cfg c g))).
Proof.
  induction n as [|n IH]; intros c g; simpl; [known_events|].
  destruct (Send "backend.list" [] c) as [[e|] c1]; [known_events|].
  pose proof (ReadResponse_panics c1) as HP.
  destruct (ReadResponse c1) as [[[code resp]| |] c2] eqn:HR; cbn [fst] in *.
  - destruct (negb (code =? 200)) eqn:Hc; [known_events|].
    destruct resp as [body|]; cbn [deref obind].
    + unfold aggregate.
      pose proof (scan_lines_panics cfg (bufio.ScanLines body) tally0) as HS.
      destruct (scan_lines cfg _ tally0) as [a|m|]; [|known_events; simpl; auto|known_events].
      rewrite publish_outcome. destruct (valid_labels cfg a) eqn:Hv.
      * specialize (IH c2 (gauges_written cfg a g)).
        destruct (poll n cfg c2 (gauges_written cfg a g)) as [[evs e] g'']. cbn [fst] in *.
        known_events. exact IH.
      * known_events. simpl. do 3 right. split; [done|].
        unfold valid_labels in Hv. by destruct (directorRegexp cfg).
    + apply ReadResponse_nil in HR. by subst code.
  - known_events. simpl. destruct (HP _ eq_refl); auto.
  - known_events.
Qed.

Lemma supervise_panics n cfg dials : ∀ first g,
  Forall (known_panic cfg) (supervise n cfg dials first g).
Proof.
  induction dials as [|d dials IH]; intros first g; simpl; [known_events|].
  apply Forall_app. split; [destruct first; known_events|].
  destruct d as [c|]; [|known_events; apply IH].
  apply Forall_cons_2; [exact I|].
  pose proof (handshake_panics cfg c) as HH.
  destruct (handshake cfg c) as [[evs r] c1]. cbn [fst] in HH.
  destruct r as [[]| |]; try done; try (apply Forall_app; by split).
  pose proof (poll_panics n cfg c1 g) as HP.
  destruct (poll n cfg c1 g) as [[evs' e] g']. cbn [fst] in HP.
  destruct e; repeat (apply Forall_app; split); auto.
Qed.

(** X7.  Whatever the peers send, a run can only die of four panics:
    the two that a negative length field raises in [ReadResponse], the
    index panic of the listing loop, and the panic of [With] on a label
    that is not valid UTF-8, which needs a director pattern.  In
    particular [*resp] never meets a nil pointer (a response without
    body has the code -1, which is neither 107 nor 200), the first
    piece that [strings.Split] returns is always there, and [With] never
    panics over the names or the number of its labels. *)
Theorem crash_causes n cfg dials msg :
  Crashed msg ∈ main_loop n cfg dials →
  msg = makeslice_panic ∨ msg = slice_panic ∨ msg = index_panic
  ∨ (msg = label_value_panic ∧ directorRegexp cfg ≠ None).
Proof.
  intros Hin. unfold main_loop in Hin.
  pose proof (supervise_panics n cfg dials true ∅) as H.
  rewrite Forall_forall in H. by apply H in Hin.
Qed.

Lemma crash_causes_witness :
  Crashed makeslice_panic
    ∈ main_loop 1 plain_cfg [Some (mkConn [bytes "107       -2"; [nl]] EndEOF [] [])] ∧
  (makeslice_panic = makeslice_panic ∨ makeslice_panic = slice_panic
   ∨ makeslice_panic = index_panic
   ∨ (makeslice_panic = label_value_panic ∧ directorRegexp plain_cfg ≠ None)).
Proof.
  assert (H : Crashed makeslice_panic
    ∈ main_loop 1 plain_cfg [Some (mkConn [bytes "107       -2"; [nl]] EndEOF [] [])])
    by (apply list_elem_of_In; vm_compute; tauto).
  split; [exact H|]. exact (crash_causes _ _ _ _ H).
Defined.

(** * What a call leaves alone: the two sides of the connection *)

(** X8.  [ReadResponse] never writes: the log of the writes and the
    script of their results are as before, whatever it reads.  [Send]
    never reads.  And a command whose write fails is given up without a
    read: [CommandForSuccess] returns false and the bytes to come are
    all still there. *)
Theorem io_sides cmd args c :
  (written (snd (ReadResponse c)) = written c ∧
   wscript (snd (ReadResponse c)) = wscript c) ∧
  incoming (snd (Send cmd args c)) = incoming c ∧
  (fst (Send cmd args c) ≠ None →
   fst (CommandForSuccess cmd args c) = Returns false ∧
   incoming (snd (CommandForSuccess cmd args c)) = incoming c).
Proof.
  destruct (ReadResponse_frame c) as (_ & Hw & Hl).
  destruct (Send_frame cmd args c) as [Hi _].
  split; [done|]. split; [done|]. unfold CommandForSuccess.
  destruct (Send cmd args c) as [[e|] c1]; cbn [fst snd] in *; [done|].
  by intros [].
Qed.

Lemma io_sides_witness :
  fst (Send "auth" ["x"] (mkConn [bytes "200 0"; [nl; nl]] EndEOF [false] [])) ≠ None ∧
  fst (CommandForSuccess "auth" ["x"] (mkConn [bytes "200 0"; [nl; nl]] EndEOF [false] []))
  = Returns false ∧
  incoming (snd (CommandForSuccess "auth" ["x"]
                   (mkConn [bytes "200 0"; [nl; nl]] EndEOF [false] [])))
  = [bytes "200 0"; [nl; nl]].
Proof.
  assert (H : fst (Send "auth" ["x"] (mkConn [bytes "200 0"; [nl; nl]] EndEOF [false] []))
              ≠ None) by (vm_compute; discriminate).
  split; [exact H|].
  exact (proj2 (proj2 (io_sides "auth" ["x"]
                         (mkConn [bytes "200 0"; [nl; nl]] EndEOF [false] []))) H).
Defined.

(** * Which listings the loop gets through *)




(** * The order of the listing *)










(** * The label names of the gauges *)

Lemma write_directors_keys lh ls m (g : gmap (gmap string string) Z) key :
  is_Some (write_directors lh ls m g !! key) →
  is_Some (g !! key) ∨
  ∃ k s, (s = "healthy" ∨ s = "sick") ∧ key = director_labels s k.
Proof.
  unfold write_directors. revert key.
  apply (map_fold_weak_ind (λ r m, ∀ key,
    is_Some (r !! key) →
    is_Some (g !! key) ∨
    ∃ k s, (s = "healthy" ∨ s = "sick") ∧ key = director_labels s k)).
  - auto.
  - intros i x m' r Hi IH key. unfold set_gauge.
    destruct (decide (key = director_labels "sick" i)) as [->|H1].
    { intros _. right. exists i, "sick". auto. }
    rewrite lookup_insert_ne by done.
    destruct (decide (key = director_labels "healthy" i)) as [->|H2].
    { intros _. right. exists i, "healthy". auto. }
    rewrite lookup_insert_ne by done. apply IH.
Qed.

(** X11.  Every gauge that a publication which completes has created
    has exactly the label names that the gauge vector was declared with
    (lines 124-129 and 137-143), and its state is "healthy" or "sick". *)
Theorem published_label_names cfg a (g g' : gmap (gmap string string) Z) key :
  publish cfg a g = Returns g' →
  g !! key = None →
  is_Some (g' !! key) →
  dom key = list_to_set (promlabels cfg) ∧
  (key !! "state" = Some "healthy" ∨ key !! "state" = Some "sick").
Proof.
  intros Hpub Hnew Hkey. apply publish_returns in Hpub as ->.
  unfold gauges_written, promlabels in *.
  assert (Hnew' : (if resetBackends cfg then ∅ else g) !! key = None).
  { destruct (resetBackends cfg); [apply lookup_empty|done]. }
  destruct (directorRegexp cfg) as [re|].
  - apply (write_directors_keys (labelhealthy a) (labelsick a)) in Hkey
      as [Hold|(k & s & Hs & ->)].
    { rewrite Hnew' in Hold. by destruct Hold. }
    split.
    + unfold director_labels. rewrite dom_insert_L, dom_singleton_L. set_solver.
    + rewrite director_labels_state. destruct Hs as [-> | ->]; auto.
  - unfold set_gauge in Hkey.
    destruct (decide (key = state_labels "sick")) as [->|H1].
    { split; [|right; apply lookup_singleton_eq].
      unfold state_labels. rewrite dom_singleton_L. set_solver. }
    rewrite lookup_insert_ne in Hkey by done.
    destruct (decide (key = state_labels "healthy")) as [->|H2].
    { split; [|left; apply lookup_singleton_eq].
      unfold state_labels. rewrite dom_singleton_L. set_solver. }
    rewrite lookup_insert_ne in Hkey by done. rewrite Hnew' in Hkey. by destruct Hkey.
Qed.

Lemma published_label_names_witness :
  dom (director_labels "healthy" "fe") = list_to_set (promlabels grouped_cfg) ∧
  (director_labels "healthy" "fe" !! "state" = Some "healthy"
   ∨ director_labels "healthy" "fe" !! "state" = Some "sick").
Proof.
  set (a := mktally 0 0 {[ "fe" := 1 ]} {[ "fe" := 1 ]} {[ "fe" := 1 ]}).
  apply (published_label_names grouped_cfg a ∅ (gauges_written grouped_cfg a ∅)).
  - rewrite publish_outcome.
    replace (valid_labels grouped_cfg a) with true by (vm_compute; reflexivity).
    reflexivity.
  - apply lookup_empty.
  - rewrite (gauges_written_grouped grouped_cfg director_suffix) by reflexivity.
    destruct (write_directors_lookup (labelhealthy a) (labelsick a) (labelall a)
                (if resetBackends grouped_cfg then ∅ else ∅)) as [Hw _].
    destruct (Hw "fe") as [Hh _]; [by eexists|]. rewrite Hh. by eexists.
Defined.

(** * A line that does not fit the scanner's buffer *)

Lemma Scan_go_full data : ∀ cur,
  bufio.MaxScanTokenSize ≤ len cur → bufio.Scan_go data cur = [].
Proof.
  induction data as [|b data IH]; intros cur Hcur; cbn [bufio.Scan_go].
  - destruct cur; [done|]. by rewrite (proj2 (Z.ltb_ge _ _) Hcur).
  - destruct (Ascii.eqb b nl); [by rewrite (proj2 (Z.ltb_ge _ _) Hcur)|].
    apply IH. unfold len in *. rewrite length_app. simpl. lia.
Qed.

Lemma Scan_go_long long : ∀ cur data,
  nl ∉ long → bufio.MaxScanTokenSize ≤ len (cur ++ long) →
  bufio.Scan_go (long ++ data) cur = [].
Proof.
  induction long as [|b long IH]; intros cur data Hnl Hlen.
  - rewrite app_nil_r in Hlen. by apply Scan_go_full.
  - cbn [app bufio.Scan_go].
    assert (Hb : Ascii.eqb b nl = false).
    { apply Ascii.eqb_neq. intros ->. apply Hnl. by left. }
    rewrite Hb. apply IH.
    + intros Hin. apply Hnl. by right.
    + by rewrite <- app_assoc.
Qed.

Lemma Scan_go_cut d1 long d2 : ∀ cur,
  (d1 ≠ [] → last d1 = Some nl) → (d1 = [] → cur = []) →
  nl ∉ long → bufio.MaxScanTokenSize ≤ len long →
  bufio.Scan_go (d1 ++ long ++ d2) cur = bufio.Scan_go d1 cur.
Proof.
  intros cur Hlast Hcur Hnl Hlong. revert cur Hlast Hcur.
  induction d1 as [|b d1 IH]; intros cur Hlast Hcur.
  - rewrite (Hcur eq_refl). cbn [app]. by apply Scan_go_long.
  - cbn [app bufio.Scan_go]. destruct (Ascii.eqb b nl) eqn:Hb.
    + destruct (len cur <? bufio.MaxScanTokenSize); [|done]. f_equal.
      apply IH; [|done]. intros Hne. rewrite <- Hlast by done.
      destruct d1; [done|]. done.
    + apply IH.
      * intros Hne. rewrite <- Hlast by done. by destruct d1.
      * intros ->. specialize (Hlast ltac:(done)). simpl in Hlast.
        injection Hlast as ->. by rewrite Ascii.eqb_refl in Hb.
Qed.

(** X12.  A line of 65536 bytes or more stops the scanner for good
    ([bufio.ErrTooLong], which the loop never looks at): the lines before
    it are counted, the line itself and every line after it are not, and
    the cycle is published as if the listing had ended there. *)
Theorem overlong_line_cuts cfg s1 long s2 :
  (s1 ≠ "" → last (bytes s1) = Some nl) →
  nl ∉ bytes long →
  bufio.MaxScanTokenSize ≤ len (bytes long) →
  aggregate cfg (s1 +:+ long +:+ s2) = aggregate cfg s1.
Proof.
  intros Hlast Hnl Hlong. unfold aggregate, bufio.ScanLines.
  rewrite !bytes_app. rewrite Scan_go_cut; try done.
  intros Hne. apply Hlast. intros ->. done.
Qed.

Lemma overlong_line_cuts_witness :
  aggregate plain_cfg
    (listing ["a healthy Healthy"] +:+ str (replicate (Z.to_nat 65536) "x"%char)
       +:+ listing [""; "b sick Sick"])
  = aggregate plain_cfg (listing ["a healthy Healthy"]).
Proof.
  apply overlong_line_cuts.
  - intros _. reflexivity.
  - rewrite bytes_str. intros Hin. apply elem_of_replicate in Hin as [Hin _]. discriminate Hin.
  - rewrite bytes_str. unfold len. rewrite length_replicate. rewrite Z2Nat.id; [|lia].
    reflexivity.
Defined.

(** * The end of the listing *)

Lemma Scan_go_last d : ∀ cur,
  (d = [] → cur ≠ []) → (d ≠ [] → last d ≠ Some nl) →
  bufio.Scan_go (d ++ [nl]) cur = bufio.Scan_go d cur.
Proof.
  induction d as [|b d IH]; intros cur Hcur Hlast.
  - cbn [app bufio.Scan_go]. rewrite Ascii.eqb_refl.
    destruct cur as [|x cur]; [by destruct Hcur|].
    by destruct (_ <? _).
  - cbn [app bufio.Scan_go]. specialize (Hlast ltac:(done)).
    assert (Hd : d ≠ [] → last d ≠ Some nl).
    { intros Hne. destruct d; [done|]. exact Hlast. }
    destruct (Ascii.eqb b nl) eqn:Hb.
    + destruct (_ <? _); [|done]. f_equal. apply IH; [|done].
      intros ->. apply Ascii.eqb_eq in Hb as ->. by destruct Hlast.
    + apply IH; [|done]. intros _. by destruct cur.
Qed.

(** X13.  The newline that ends the last line of a listing is optional:
    a body that does not end in a newline gives the same tally, or the
    same panic, as that body with a newline added. *)
Theorem last_newline_optional cfg s :
  s ≠ "" →
  last (bytes s) ≠ Some nl →
  aggregate cfg (s +:+ newline) = aggregate cfg s.
Proof.
  intros Hs Hlast. unfold aggregate, bufio.ScanLines. rewrite bytes_app.
  change (bytes newline) with [nl]. rewrite Scan_go_last; [done| |done].
  intros Hb. destruct s; [done|discriminate Hb].
Qed.

Lemma last_newline_optional_witness :
  aggregate plain_cfg ("a healthy Healthy" +:+ newline) = aggregate plain_cfg "a healthy Healthy".
Proof. apply last_newline_optional; [discriminate|vm_compute; discriminate]. Defined.

(** * The gauges add up to the listing *)












(** * When the gauges are published *)

Lemma app_eq_cut {A} (l1 l2 pre post : list A) x :
  l1 ++ l2 = pre ++ x :: post →
  (∃ post', l1 = pre ++ x :: post' ∧ post = post' ++ l2)
  ∨ (∃ pre', pre = l1 ++ pre' ∧ l2 = pre' ++ x :: post).
Proof.
  intros H. apply app_eq_app in H as [l [[H1 H2]|[H1 H2]]].
  - destruct l as [|y l].
    + right. exists []. rewrite app_nil_r in H1. simpl in H2. split; [|done].
      by rewrite app_nil_r.
    + injection H2 as -> ->. left. by exists l.
  - right. by exists l.
Qed.










(** * Closing the connections *)

Lemma calls_events_Ev evs : calls_events (map Ev evs) = evs.
Proof.
  induction evs as [|e evs IH]; [done|].
  change (calls_events (map Ev (e :: evs))) with (e :: calls_events (map Ev evs)).
  by rewrite IH.
Qed.

Lemma calls_events_app tr1 tr2 :
  calls_events (tr1 ++ tr2) = calls_events tr1 ++ calls_events tr2.
Proof. unfold calls_events. apply omap_app. Qed.

Lemma calls_events_unwind k : calls_events (unwind k) = [].
Proof.
  unfold unwind, calls_events. induction (rev (seq 0 k)) as [|x l IH]; [done|]. apply IH.
Qed.

(** How the handshake and the poll loop end, read off their events. *)
Lemma handshake_end cfg c :
  match snd (fst (handshake cfg c)) with
  | Panics _ => ∃ evs msg, fst (fst (handshake cfg c)) = evs ++ [Crashed msg] ∧
                           Forall (λ e, is_crash (Ev e) = false) evs
  | _ => Forall (λ e, is_crash (Ev e) = false) (fst (fst (handshake cfg c)))
  end.
Proof.
  unfold handshake.
  destruct (ReadResponse c) as [[[code resp]| |] c1]; cbn [fst snd].
  - destruct (negb (code =? 107)); cbn [fst snd]; [by repeat constructor|].
    destruct (obind (deref resp) _) as [h|msg|]; cbn [fst snd].
    + destruct (CommandForSuccess "auth" [h] c1) as [[ok|msg|] c2]; cbn [fst snd].
      * by repeat constructor.
      * exists [Response code], msg. split; [done|]. by repeat constructor.
      * by repeat constructor.
    + exists [Response code], msg. split; [done|]. by repeat constructor.
    + by repeat constructor.
  - exists [], msg. by split.
  - done.
Qed.

Lemma poll_end_events n cfg : ∀ c g,
  match snd (fst (poll n cfg c g)) with
  | Died => ∃ evs msg, fst (fst (poll n cfg c g)) = evs ++ [Crashed msg] ∧
                       Forall (λ e, is_crash (Ev e) = false) evs
  | _ => Forall (λ e, is_crash (Ev e) = false) (fst (fst (poll n cfg c g)))
  end.
Proof.
  induction n as [|n IH]; intros c g; simpl; [done|].
  destruct (Send "backend.list" [] c) as [[e|] c1]; cbn [fst snd]; [by repeat constructor|].
  destruct (ReadResponse c1) as [[[code resp]|msg|] c2]; cbn [fst snd].
  - destruct (negb (code =? 200)); cbn [fst snd]; [by repeat constructor|].
    destruct (obind (deref resp) _) as [a|msg|]; cbn [fst snd].
    + destruct (publish cfg a g) as [g'|msg|]; cbn [fst snd].
      * specialize (IH c2 g').
        destruct (poll n cfg c2 g') as [[evs e] g'']. cbn [fst snd] in *.
        destruct e.
        -- by repeat constructor.
        -- destruct IH as (evs0 & msg & -> & Hq).
           exists (Sent "backend.list" [] true :: Response code :: Published g'
                     :: Sleep (varnishInterval cfg) :: evs0), msg.
           split; [done|]. by repeat constructor.
        -- by repeat constructor.
      * exists [Sent "backend.list" [] true; Response code], msg.
        split; [done|]. by repeat constructor.
      * by repeat constructor.
    + exists [Sent "backend.list" [] true; Response code], msg.
      split; [done|]. by repeat constructor.
    + by repeat constructor.
  - exists [Sent "backend.list" [] true], msg. split; [done|]. by repeat constructor.
  - by repeat constructor.
Qed.

Lemma obtained_app tr1 tr2 : obtained (tr1 ++ tr2) = (obtained tr1 + obtained tr2)%nat.
Proof. unfold obtained. by rewrite List.filter_app, length_app. Qed.

Lemma obtained_events evs :
  Forall (λ e, is_dial e = false) evs → obtained (map Ev evs) = 0%nat.
Proof.
  induction 1 as [|e evs He _ IH]; [done|].
  unfold obtained in *. cbn [map List.filter]. by destruct e.
Qed.

Lemma obtained_sleep (first : bool) :
  obtained (map Ev (if first then [] else [Sleep 5])) = 0%nat.
Proof. by destruct first. Qed.

Lemma events_no_close evs : Forall (λ c, is_close c = false) (map Ev evs).
Proof. induction evs; by constructor. Qed.

Lemma unwind_no_crash k : Forall (λ c, is_crash c = false) (unwind k).
Proof. unfold unwind. induction (rev (seq 0 k)); by constructor. Qed.

Lemma events_no_crash evs :
  Forall (λ e, is_crash (Ev e) = false) evs → Forall (λ c, is_crash c = false) (map Ev evs).
Proof. induction 1; by constructor. Qed.

Lemma events_on_conn evs :
  Forall (λ e, is_dial e = false) evs → Forall (λ c, on_conn c = true) (map Ev evs).
Proof. induction 1 as [|e evs He _ IH]; constructor; [by destruct e|done]. Qed.

(** Where an element with [P] lies when the first part has none. *)
Lemma cut_after (P : Call → bool) X T pre x post :
  Forall (λ c, P c = false) X → P x = true →
  X ++ T = pre ++ x :: post →
  ∃ pre', pre = X ++ pre' ∧ T = pre' ++ x :: post.
Proof.
  intros HX Hx H. apply app_eq_cut in H as [(post' & H & _)|H]; [|done].
  by apply (split_not_in P) in H.
Qed.

Lemma cut_before (P : Call → bool) X T pre x post :
  Forall (λ c, P c = false) T → P x = true →
  X ++ T = pre ++ x :: post →
  ∃ post', X = pre ++ x :: post' ∧ post = post' ++ T.
Proof.
  intros HT Hx H. apply app_eq_cut in H as [H|(pre' & _ & H)]; [done|].
  by apply (split_not_in P) in H.
Qed.

Lemma closes_quiet k X : Forall (λ c, is_close c = false) X → closes_after_poll k X.
Proof. intros HX pre j post H. by apply (split_not_in is_close) in H. Qed.

Lemma unwinds_quiet k X : Forall (λ c, is_crash c = false) X → unwinds k X.
Proof. intros HX pre msg post H. by apply (split_not_in is_crash) in H. Qed.

Lemma closes_prefix k X T :
  Forall (λ c, is_close c = false) X →
  closes_after_poll (k + obtained X) T → closes_after_poll k (X ++ T).
Proof.
  intros HX HT pre j post H Hpre.
  apply (cut_after is_close) in H as (pre' & -> & H); [|done..].
  apply Forall_app in Hpre as [_ Hpre].
  destruct (HT _ _ _ H Hpre) as [(pre0 & h & mid & -> & Hmid & ->) Hpost].
  split; [|done]. exists (X ++ pre0), h, mid.
  rewrite <- app_assoc, obtained_app. split; [done|]. split; [done|lia].
Qed.

Lemma unwinds_prefix k X T :
  Forall (λ c, is_crash c = false) X →
  unwinds (k + obtained X) T → unwinds k (X ++ T).
Proof.
  intros HX HT pre msg post H.
  apply (cut_after is_crash) in H as (pre' & -> & H); [|done..].
  rewrite (HT _ _ _ H), obtained_app. f_equal. lia.
Qed.

(** A part of the trace that ends in a panic. *)
Lemma closes_crash k X msg k' :
  Forall (λ c, is_close c = false) X →
  closes_after_poll k (X ++ Ev (Crashed msg) :: unwind k').
Proof.
  intros HX pre j post H Hpre.
  apply (cut_after is_close) in H as (pre' & -> & H); [|done..].
  destruct pre' as [|c pre']; [done|]. injection H as <- _.
  apply Forall_app in Hpre as [_ Hpre]. by apply Forall_cons in Hpre as [? _].
Qed.

Lemma unwinds_crash k X msg :
  Forall (λ c, is_crash c = false) X →
  unwinds k (X ++ Ev (Crashed msg) :: unwind (k + obtained X)).
Proof.
  intros HX pre m post H.
  apply (cut_after is_crash) in H as (pre' & -> & H); [|done..].
  destruct pre' as [|c pre'].
  - injection H as _ <-. by rewrite app_nil_r.
  - injection H as _ H. by apply (split_not_in is_crash _ _ _ _ (unwind_no_crash _)) in H.
Qed.

Lemma supervise_closing_head n cfg dials g k :
  supervise_closing n cfg dials false g k = [] ∨
  ∃ tr, supervise_closing n cfg dials false g k = Ev (Sleep 5) :: tr.
Proof. destruct dials as [|d dials]; [by left|right]. by eexists. Qed.

Lemma supervise_closing_traces n cfg dials : ∀ first g k,
  closes_after_poll k (supervise_closing n cfg dials first g k) ∧
  unwinds k (supervise_closing n cfg dials first g k).
Proof.
  induction dials as [|d dials IH]; intros first g k.
  { split; [by apply closes_quiet|by apply unwinds_quiet]. }
  cbn [supervise_closing].
  set (sl := map Ev (if first then [] else [Sleep 5])).
  assert (Hsl0 : obtained sl = 0%nat) by apply obtained_sleep.
  assert (Hslc : Forall (λ c, is_close c = false) sl) by apply events_no_close.
  assert (Hslx : Forall (λ c, is_crash c = false) sl) by (destruct first; by repeat constructor).
  destruct d as [c|].
  2:{ destruct (IH false g k) as [IHc IHu].
      change (sl ++ Ev (DialTCP false) :: ?T) with (sl ++ [Ev (DialTCP false)] ++ T).
      rewrite app_assoc. split.
      - apply closes_prefix; [apply Forall_app; split; [done|by repeat constructor]|].
        rewrite obtained_app, Hsl0. by rewrite Nat.add_0_r.
      - apply unwinds_prefix; [apply Forall_app; split; [done|by repeat constructor]|].
        rewrite obtained_app, Hsl0. by rewrite Nat.add_0_r. }
  pose proof (handshake_events cfg c) as (Hhd & _ & Hauth).
  pose proof (handshake_end cfg c) as Hhe.
  destruct (handshake cfg c) as [[evs r] c1]. cbn [fst snd] in *.
  (* the calls up to the end of the handshake *)
  set (X := sl ++ Ev (DialTCP true) :: map Ev evs).
  assert (HXc : Forall (λ c, is_close c = false) X).
  { apply Forall_app. split; [done|]. constructor; [done|apply events_no_close]. }
  assert (HX1 : obtained X = 1%nat).
  { unfold X. rewrite obtained_app, Hsl0.
    change (Ev (DialTCP true) :: map Ev evs) with ([Ev (DialTCP true)] ++ map Ev evs).
    by rewrite obtained_app, obtained_events. }
  destruct r as [[]|msg|].
  - (* no prompt *)
    destruct (IH false g (S k)) as [IHc IHu].
    change (sl ++ Ev (DialTCP true) :: map Ev evs ++ ?T) with (sl ++ (Ev (DialTCP true) :: map Ev evs) ++ T).
    rewrite app_assoc. fold X. split.
    + apply closes_prefix; [done|]. rewrite HX1. by replace (k + 1)%nat with (S k) by lia.
    + apply unwinds_prefix.
      * apply Forall_app. split; [done|]. constructor; [done|by apply events_no_crash].
      * rewrite HX1. by replace (k + 1)%nat with (S k) by lia.
  - (* authentication failed *)
    destruct (IH false g (S k)) as [IHc IHu].
    change (sl ++ Ev (DialTCP true) :: map Ev evs ++ ?T) with (sl ++ (Ev (DialTCP true) :: map Ev evs) ++ T).
    rewrite app_assoc. fold X. split.
    + apply closes_prefix; [done|]. rewrite HX1. by replace (k + 1)%nat with (S k) by lia.
    + apply unwinds_prefix.
      * apply Forall_app. split; [done|]. constructor; [done|by apply events_no_crash].
      * rewrite HX1. by replace (k + 1)%nat with (S k) by lia.
  - (* authenticated *)
    destruct (Hauth eq_refl) as [h ->].
    pose proof (poll_no_dial n cfg c1 g) as Hpd.
    pose proof (poll_end_events n cfg c1 g) as Hpe.
    destruct (poll n cfg c1 g) as [[evs' e] g']. cbn [fst snd] in *.
    assert (HXx : Forall (λ c, is_crash c = false) X).
    { apply Forall_app. split; [done|]. by repeat constructor. }
    destruct e.
    + (* the loop breaks: line 262 *)
      destruct (IH false g' (S k)) as [IHc IHu].
      rewrite map_app.
      change (sl ++ Ev (DialTCP true) :: (map Ev ?a ++ map Ev evs') ++ ?T)
        with (sl ++ (Ev (DialTCP true) :: map Ev a) ++ map Ev evs' ++ T).
      rewrite app_assoc. fold X.
      set (Y := map Ev evs').
      assert (HYx : Forall (λ c, is_crash c = false) Y) by by apply events_no_crash.
      assert (HY0 : obtained Y = 0%nat) by by apply obtained_events.
      split.
      * intros pre j post H Hpre.
        rewrite app_assoc in H.
        apply (cut_after is_close) in H as (pre' & -> & H);
          [|apply Forall_app; split; [done|apply events_no_close]|done].
        destruct pre' as [|x pre'].
        -- injection H as <- <-. split; [|apply supervise_closing_head].
           exists sl, h, Y. rewrite app_nil_r. split; [|split].
           ++ unfold X. by rewrite <- app_assoc.
           ++ by apply events_on_conn.
           ++ rewrite Hsl0. lia.
        -- injection H as <- H.
           apply Forall_app in Hpre as [_ Hpre]. apply Forall_cons in Hpre as [_ Hpre].
           destruct (IHc _ _ _ H Hpre) as [(pre0 & h' & mid & -> & Hmid & ->) Hpost].
           split; [|done]. exists ((X ++ Y) ++ Close k :: pre0), h', mid.
           split; [by rewrite <- !app_assoc|]. split; [done|].
           rewrite !obtained_app, HX1, HY0.
           change (obtained (Close k :: pre0)) with (obtained pre0). lia.
      * rewrite app_assoc.
        change (Close k :: ?T) with ([Close k] ++ T). rewrite app_assoc.
        apply unwinds_prefix.
        -- apply Forall_app. split; [apply Forall_app; by split|by repeat constructor].
        -- rewrite !obtained_app, HX1, HY0.
           change (obtained [Close k]) with 0%nat.
           by replace (k + (1 + 0 + 0))%nat with (S k) by lia.
    + (* a panic in the loop *)
      destruct Hpe as (evs0 & msg & -> & Hq).
      rewrite map_app.
      change (sl ++ Ev (DialTCP true) :: (map Ev ?a ++ map Ev (evs0 ++ [Crashed msg])) ++ ?T)
        with (sl ++ (Ev (DialTCP true) :: map Ev a) ++ map Ev (evs0 ++ [Crashed msg]) ++ T).
      rewrite app_assoc. fold X. rewrite map_app, <- app_assoc. cbn [map app].
      rewrite app_assoc.
      apply Forall_app in Hpd as [Hpd _].
      assert (H0 : obtained (X ++ map Ev evs0) = 1%nat)
        by (rewrite obtained_app, HX1, obtained_events by done; lia).
      split.
      * apply closes_crash. apply Forall_app. split; [done|apply events_no_close].
      * replace (S k) with (k + obtained (X ++ map Ev evs0))%nat by lia.
        apply unwinds_crash. apply Forall_app. split; [done|by apply events_no_crash].
    + (* the observation ends *)
      rewrite map_app.
      change (sl ++ Ev (DialTCP true) :: map Ev ?a ++ map Ev evs')
        with (sl ++ (Ev (DialTCP true) :: map Ev a) ++ map Ev evs').
      rewrite app_assoc. fold X. split.
      * apply closes_quiet, Forall_app. split; [done|apply events_no_close].
      * apply unwinds_quiet, Forall_app. split; [done|by apply events_no_crash].
  - (* a panic in the handshake *)
    destruct Hhe as (evs0 & m & -> & Hq).
    rewrite map_app, <- app_assoc. cbn [map app].
    change (sl ++ Ev (DialTCP true) :: map Ev evs0 ++ ?T)
      with (sl ++ (Ev (DialTCP true) :: map Ev evs0) ++ T).
    rewrite app_assoc.
    apply Forall_app in Hhd as [Hhd _].
    set (X0 := sl ++ Ev (DialTCP true) :: map Ev evs0).
    assert (H0 : obtained X0 = 1%nat).
    { unfold X0. rewrite obtained_app, Hsl0.
      change (Ev (DialTCP true) :: map Ev evs0) with ([Ev (DialTCP true)] ++ map Ev evs0).
      by rewrite obtained_app, obtained_events. }
    split.
    + apply closes_crash. apply Forall_app. split; [done|].
      constructor; [done|apply events_no_close].
    + replace (S k) with (k + obtained X0)%nat by lia.
      apply unwinds_crash. apply Forall_app. split; [done|].
      constructor; [done|by apply events_no_crash].
  - (* the embedding's fuel: never the case *)
    change (sl ++ Ev (DialTCP true) :: map Ev evs) with X. split.
    + by apply closes_quiet.
    + apply unwinds_quiet, Forall_app. split; [done|].
      constructor; [done|by apply events_no_crash].
Qed.

Lemma supervise_closing_events n cfg dials : ∀ first g k,
  calls_events (supervise_closing n cfg dials first g k) = supervise n cfg dials first g.
Proof.
  induction dials as [|d dials IH]; intros first g k; [done|].
  cbn [supervise_closing supervise].
  rewrite calls_events_app, calls_events_Ev. f_equal.
  destruct d as [c|].
  - change (calls_events (Ev ?e :: ?T)) with (e :: calls_events T). f_equal.
    destruct (handshake cfg c) as [[evs r] c1].
    destruct r as [[]|msg|].
    + by rewrite calls_events_app, calls_events_Ev, IH.
    + by rewrite calls_events_app, calls_events_Ev, IH.
    + destruct (poll n cfg c1 g) as [[evs' e] g']. destruct e.
      * rewrite calls_events_app, calls_events_Ev.
        change (calls_events (Close k :: ?T)) with (calls_events T).
        by rewrite IH, <- app_assoc.
      * by rewrite calls_events_app, calls_events_Ev, calls_events_unwind, app_nil_r.
      * by rewrite calls_events_Ev.
    + by rewrite calls_events_app, calls_events_Ev, calls_events_unwind, app_nil_r.
    + by rewrite calls_events_Ev.
  - change (calls_events (Ev ?e :: ?T)) with (e :: calls_events T). by rewrite IH.
Qed.

(** X16.  [conn.Close()] of line 262 is reached only for a connection
    that was greeted with 107 and authenticated, when its poll loop is
    left; it closes that connection (the one obtained by the last
    successful attempt), and the next call, if any, is the sleep before
    the next attempt.  So a connection whose greeting or authentication
    fails is never closed while the process lives: the deferred [Close]
    of line 172 cannot run, since [main] does not return. *)
Theorem close_after_poll n cfg dials pre j post :
  main_closing n cfg dials = pre ++ Close j :: post →
  Forall (λ c, is_crash c = false) pre →
  (∃ pre0 h mid,
     pre = pre0 ++ Ev (DialTCP true) :: Ev (Response 107)
                :: Ev (Command "auth" [h] true) :: mid ∧
     Forall (λ c, on_conn c = true) mid ∧ j = obtained pre0) ∧
  (post = [] ∨ ∃ post', post = Ev (Sleep 5) :: post').
Proof.
  intros H Hpre.
  destruct (supervise_closing_traces n cfg dials true ∅ 0) as [Hc _].
  destruct (Hc _ _ _ H Hpre) as [(pre0 & h & mid & Hp & Hmid & Hj) Hpost].
  split; [|done]. by exists pre0, h, mid.
Qed.

Lemma close_after_poll_witness :
  closed_run = take 5 closed_run ++ Close 0 :: drop 6 closed_run ∧
  Forall (λ c, is_crash c = false) (take 5 closed_run) ∧
  (∃ pre0 h mid,
     take 5 closed_run
     = pre0 ++ Ev (DialTCP true) :: Ev (Response 107)
            :: Ev (Command "auth" [h] true) :: mid ∧
     Forall (λ c, on_conn c = true) mid ∧ 0%nat = obtained pre0) ∧
  (drop 6 closed_run = [] ∨ ∃ post', drop 6 closed_run = Ev (Sleep 5) :: post').
Proof.
  assert (H : closed_run = take 5 closed_run ++ Close 0 :: drop 6 closed_run)
    by (vm_compute; reflexivity).
  assert (Hq : Forall (λ c, is_crash c = false) (take 5 closed_run))
    by (vm_compute; repeat constructor).
  split; [exact H|]. split; [exact Hq|].
  exact (close_after_poll 5 plain_cfg [Some greeting_conn] _ _ _ H Hq).
Defined.

(** X17.  When a panic ends the run, the deferred calls of line 172 run
    before the process dies: one [Close] for every connection obtained
    since the start, the last one first, those that line 262 has closed
    already included; nothing else follows the panic. *)
Theorem panic_unwinds n cfg dials pre msg post :
  main_closing n cfg dials = pre ++ Ev (Crashed msg) :: post →
  post = unwind (obtained pre).
Proof.
  intros H. destruct (supervise_closing_traces n cfg dials true ∅ 0) as [_ Hu].
  exact (Hu _ _ _ H).
Qed.

Lemma panic_unwinds_witness :
  dying_run = take 4 dying_run ++ Ev (Crashed makeslice_panic) :: [Close 1; Close 0] ∧
  [Close 1; Close 0] = unwind (obtained (take 4 dying_run)).
Proof.
  assert (H : dying_run
              = take 4 dying_run ++ Ev (Crashed makeslice_panic) :: [Close 1; Close 0])
    by (vm_compute; reflexivity).
  split; [exact H|].
  exact (panic_unwinds 5 plain_cfg [Some unprompted_conn; Some negative_conn] _ _ _ H).
Defined.

(** The two runs, call by call. *)
Example closing_runs :
  closed_run
  = [Ev (DialTCP true); Ev (Response 107);
     Ev (Command "auth"
           ["cf6abf12475d710d82f41665219bc962f42dc866d00e5e53991f28c954f529c0"] true);
     Ev (Sent "backend.list" [] true); Ev (Response (-1)); Close 0] ∧
  dying_run
  = [Ev (DialTCP true); Ev (Response 200); Ev (Sleep 5); Ev (DialTCP true);
     Ev (Crashed makeslice_panic); Close 1; Close 0].
Proof. split; vm_compute; reflexivity. Qed.

(** A run that dies in the publication, on a label that is not valid
    UTF-8: nothing is published, and both connections are closed by the
    deferred calls. *)
Example publication_panic_run :
  main_closing 5 grouped_cfg [Some unprompted_conn; Some invalid_label_conn; None]
  = [Ev (DialTCP true); Ev (Response 200); Ev (Sleep 5); Ev (DialTCP true);
     Ev (Response 107);
     Ev (Command "auth"
           ["cf6abf12475d710d82f41665219bc962f42dc866d00e5e53991f28c954f529c0"] true);
     Ev (Sent "backend.list" [] true); Ev (Response 200);
     Ev (Crashed label_value_panic); Close 1; Close 0].
Proof. vm_compute. reflexivity. Qed.
